(** * NPSS ranking service: ranking and track allocation of students

    A shallow embedding of [services/rankingService.ts] ([calculateTotal],
    [tieBreaker], [rankStudents]) and proofs about the ranking and the
    quota-bounded allocation it computes.

    Modelling conventions.
    - Scores, quotas, ranks and usage counters are JavaScript numbers.  Marks
      and quotas are taken to be integers ([Z]); the only other number that
      arises is [NaN], produced when an absent property ([undefined]) takes
      part in arithmetic.
    - [Record<string, number>] objects ([quotaUsage], [planQuotas], and the
      score mapping of a student) are finite maps [gmap string Z] holding
      their own properties.  [quotaUsage] and [planQuotas] are created by
      [{}], so they inherit from [Object.prototype]: an assignment under the
      key [__proto__] reaches the inherited setter, which ignores a number,
      and stores nothing ([assignKey]).  A read of a key that is not an own
      property yields [undefined] or an inherited value (a function, or the
      prototype itself under [__proto__]); the model reads [None] in both
      cases, and [choosePlan] says what the guard and the comparison make of
      it.
    - [Array.prototype.sort] is stable and, for a consistent comparator, its
      result is fully determined; it is modelled by a stable insertion sort.
      A comparator that returns [NaN] (a record lacking one of the five
      subject keys is involved) is not consistent, and the order is then the
      engine's choice: results about the order are stated for records that
      carry the five keys, or at a given input on which the comparisons leave
      the array as it is. *)

From stdpp Require Import gmap strings list fin_maps sorting pretty.
From Stdlib Require Import ZArith Lia Ascii.

Local Open Scope Z_scope.

(** ** JavaScript numbers *)

Inductive number : Type :=
  | Num (z : Z)
  | NaN.

Global Instance number_eq_dec : EqDecision number.
Proof. solve_decision. Defined.

(** [ToNumber] of a property read: [undefined] becomes [NaN]. *)
Definition toNumber (v : option Z) : number :=
  match v with
  | Some z => Num z
  | None => NaN
  end.

(** [x + y] and [x - y] on numbers. *)
Definition add (x y : number) : number :=
  match x, y with
  | Num a, Num b => Num (a + b)
  | _, _ => NaN
  end.

Definition sub (x y : number) : number :=
  match x, y with
  | Num a, Num b => Num (a - b)
  | _, _ => NaN
  end.

(** [v !== w] on two property reads (a number or [undefined]). *)
Definition strictNe (v w : option Z) : bool :=
  bool_decide (v ≠ w).

(** [x !== y] on two numbers: [NaN] differs from everything, itself included. *)
Definition numStrictNe (x y : number) : bool :=
  match x, y with
  | Num a, Num b => bool_decide (a ≠ b)
  | _, _ => true
  end.

(** ** Data model *)

(** Modelled from the spec: the declarations of [Student], [StudyPlan] and
    [RankedStudent] in [types.ts] are not among the sources.  A student has an
    identity, display fields, a mapping from subject key to score and an
    ordered list of preferred track names; a study plan has a name and a
    quota. *)
Record Student : Type := {
  id : string;
  title : string;
  firstName : string;
  lastName : string;
  scores : gmap string Z;
  preferredStreams : list string
}.

Record StudyPlan : Type := {
  plan_id : string;
  name : string;
  quota : Z
}.

(** The object [{ ...s, totalScore, rank, qualifiedStream }]: the spread
    carries the student's own fields over, kept together as [base]. *)
Record RankedStudent : Type := {
  base : Student;
  totalScore : number;
  rank : Z;
  qualifiedStream : option string
}.

Global Instance Student_eq_dec : EqDecision Student.
Proof. solve_decision. Defined.

Global Instance StudyPlan_eq_dec : EqDecision StudyPlan.
Proof. solve_decision. Defined.

Global Instance RankedStudent_eq_dec : EqDecision RankedStudent.
Proof. solve_decision. Defined.

(** ** Score aggregation and comparison *)

(** [const { math, science, thai, english, social } = student.scores;
     return math + science + thai + english + social;]
    The optional [subjects] argument is not used by the body. *)
Definition calculateTotal (student : Student) : number :=
  let math := toNumber (scores student !! "math"%string) in
  let science := toNumber (scores student !! "science"%string) in
  let thai := toNumber (scores student !! "thai"%string) in
  let english := toNumber (scores student !! "english"%string) in
  let social := toNumber (scores student !! "social"%string) in
  add (add (add (add math science) thai) english) social.

(** [b.scores.k - a.scores.k] *)
Definition diff (k : string) (a b : Student) : number :=
  sub (toNumber (scores b !! k)) (toNumber (scores a !! k)).

(** [a.scores.k !== b.scores.k] *)
Definition differ (k : string) (a b : Student) : bool :=
  strictNe (scores a !! k) (scores b !! k).

(** Returns a negative value if [a] should come before [b]. *)
Definition tieBreaker (a b : Student) : number :=
  if differ "science" a b then diff "science" a b
  else if differ "math" a b then diff "math" a b
  else if differ "english" a b then diff "english" a b
  else if differ "thai" a b then diff "thai" a b
  else diff "social" a b.

(** The comparator handed to [processed.sort]. *)
Definition compareStudents (a b : RankedStudent) : number :=
  if numStrictNe (totalScore b) (totalScore a)
  then sub (totalScore b) (totalScore a)
  else tieBreaker (base a) (base b).

(** ** Sorting *)

(** [SortCompare]: a comparator result of [NaN] counts as [+0]. *)
Definition sortCompare {A : Type} (comparefn : A → A → number) (x y : A) : Z :=
  match comparefn x y with
  | Num v => v
  | NaN => 0
  end.

Section Sort.
Context {A : Type} (comparefn : A → A → number).

(** [x] came before every element of [l] in the array: it is placed in
    front of the first element it does not have to follow.  For a consistent
    comparator this is the order [Array.prototype.sort] must produce (sorted,
    equal elements in their original order); for an inconsistent one the
    standard leaves the order open and this is one admissible outcome. *)
Fixpoint insert_sorted (x : A) (l : list A) : list A :=
  match l with
  | [] => [x]
  | y :: l' =>
      if sortCompare comparefn x y <=? 0
      then x :: y :: l'
      else y :: insert_sorted x l'
  end.

Fixpoint sort (l : list A) : list A :=
  match l with
  | [] => []
  | x :: l' => insert_sorted x (sort l')
  end.
End Sort.

(** ** rankStudents *)

(** Step 1: [{ ...s, totalScore: calculateTotal(s), rank: 0,
    qualifiedStream: null }]. *)
Definition withTotal (s : Student) : RankedStudent :=
  {| base := s; totalScore := calculateTotal s; rank := 0;
     qualifiedStream := None |}.

(** Step 3: [{ ...s, rank: index + 1 }]. *)
Definition withRank (index : nat) (s : RankedStudent) : RankedStudent :=
  {| base := base s; totalScore := totalScore s;
     rank := Z.of_nat index + 1; qualifiedStream := qualifiedStream s |}.

(** Steps 1 to 3: the ranked students, before allocation. *)
Definition ranked (students : list Student) : list RankedStudent :=
  imap withRank (sort compareStudents (withTotal <$> students)).

(** [record[key] = v] on an object created by [{}], [v] a number: an own
    property is created or overwritten, except under the key [__proto__],
    where the setter inherited from [Object.prototype] takes the value and,
    as it is not an object, drops it. *)
Definition assignKey (record : gmap string Z) (key : string) (v : Z)
    : gmap string Z :=
  if decide (key = "__proto__"%string) then record else <[key := v]> record.

(** [plans.forEach(p => { quotaUsage[p.name] = 0; })] from [{}]. *)
Definition initQuotaUsage (plans : list StudyPlan) : gmap string Z :=
  foldl (λ quotaUsage p, assignKey quotaUsage (name p) 0) ∅ plans.

(** [plans.forEach(p => planQuotas[p.name] = p.quota)] from [{}]. *)
Definition initPlanQuotas (plans : list StudyPlan) : gmap string Z :=
  foldl (λ planQuotas p, assignKey planQuotas (name p) (quota p)) ∅ plans.

(** The [for (const planName of student.preferredStreams)] loop with its
    [break]: the plan assigned, and [quotaUsage] afterwards.

    A name that is not an own property of [planQuotas] reads [None].  In the
    source the read then yields [undefined], and the guard
    [planQuotas[planName] !== undefined] fails; or it yields a value
    inherited from [Object.prototype] ([toString], [constructor], the
    prototype under [__proto__]), the guard passes, [quotaUsage[planName]]
    yields the very same object, and [currentUsage < planQuotas[planName]]
    compares an object with itself, which is false.  Either way the loop goes
    on to the next preference.  The increment is reached for own properties
    only, where it is an ordinary write. *)
Fixpoint choosePlan (planQuotas quotaUsage : gmap string Z)
    (prefs : list string) : option string * gmap string Z :=
  match prefs with
  | [] => (None, quotaUsage)
  | planName :: prefs' =>
      match planQuotas !! planName with
      | Some q =>
          match quotaUsage !! planName with
          | Some currentUsage =>
              if currentUsage <? q
              then (Some planName, <[planName := currentUsage + 1]> quotaUsage)
              else choosePlan planQuotas quotaUsage prefs'
          | None => choosePlan planQuotas quotaUsage prefs'
          end
      | None => choosePlan planQuotas quotaUsage prefs'
      end
  end.

(** [{ ...student, qualifiedStream: assignedPlan }] *)
Definition withStream (student : RankedStudent) (assignedPlan : option string)
    : RankedStudent :=
  {| base := base student; totalScore := totalScore student;
     rank := rank student; qualifiedStream := assignedPlan |}.

(** Step 4: the final [processed.map], threading [quotaUsage] from one
    student to the next; returns the allocated students and the final
    [quotaUsage]. *)
Fixpoint allocate (planQuotas quotaUsage : gmap string Z)
    (processed : list RankedStudent) : list RankedStudent * gmap string Z :=
  match processed with
  | [] => ([], quotaUsage)
  | student :: rest =>
      let '(assignedPlan, quotaUsage') :=
        choosePlan planQuotas quotaUsage (preferredStreams (base student)) in
      let '(out, final) := allocate planQuotas quotaUsage' rest in
      (withStream student assignedPlan :: out, final)
  end.

Definition rankStudents (students : list Student) (plans : list StudyPlan)
    : list RankedStudent :=
  (allocate (initPlanQuotas plans) (initQuotaUsage plans) (ranked students)).1.

(** [quotaUsage] at the moment the student at position [i] of the ranked
    list is processed. *)
Definition usageBefore (students : list Student) (plans : list StudyPlan)
    (i : nat) : gmap string Z :=
  (allocate (initPlanQuotas plans) (initQuotaUsage plans)
     (take i (ranked students))).2.

(** ** Vocabulary of the properties *)

(** The five subjects read by [calculateTotal], and the tie-break priority
    of [tieBreaker]. *)
Definition subjectKeys : list string :=
  ["math"; "science"; "thai"; "english"; "social"]%string.

Definition tieBreakKeys : list string :=
  ["science"; "math"; "english"; "thai"; "social"]%string.

(** A student whose score mapping carries all five subjects. *)
Definition complete (s : Student) : Prop :=
  Forall (λ k, is_Some (scores s !! k)) subjectKeys.

Global Instance complete_dec s : Decision (complete s).
Proof. unfold complete. apply _. Defined.

(** The spec's reading of a score: a missing subject key counts as 0. *)
Definition score (k : string) (s : Student) : Z :=
  default 0 (scores s !! k).

(** The spec's total: the arithmetic sum of the student's scores over the
    configured subject keys, a missing key contributing 0. *)
Definition specTotal (subjects : list string) (s : Student) : Z :=
  foldr (λ k acc, score k s + acc) 0 subjects.

(** The spec's sort key: the total first, then the tie-break subjects in
    their fixed priority. *)
Definition sortKey (s : Student) : list Z :=
  specTotal subjectKeys s :: ((λ k, score k s) <$> tieBreakKeys).

(** [lexGt u v]: reading both keys top to bottom, the first position at which
    they differ holds the larger value in [u]. *)
Fixpoint lexGt (u v : list Z) : Prop :=
  match u, v with
  | x :: u', y :: v' => x > y ∨ (x = y ∧ lexGt u' v')
  | _, _ => False
  end.

Global Instance lexGt_dec u v : Decision (lexGt u v).
Proof.
  revert v. induction u as [|x u IH]; intros [|y v]; simpl; try apply _.
Defined.

(** [a] ranks strictly better than [b]; [a] and [b] tie on every key. *)
Definition better (a b : Student) : Prop := lexGt (sortKey a) (sortKey b).
Definition tied (a b : Student) : Prop := sortKey a = sortKey b.

Global Instance better_dec a b : Decision (better a b).
Proof. unfold better. apply _. Defined.

Global Instance tied_dec a b : Decision (tied a b).
Proof. unfold tied. apply _. Defined.

(** An entry of the array being sorted whose record carries all five
    subjects: its total is the one just computed. *)
Definition consistent (r : RankedStudent) : Prop :=
  complete (base r) ∧ totalScore r = calculateTotal (base r).

(** [a] may stand before [b]: [b] is not strictly better. *)
Definition mayPrecede (a b : RankedStudent) : Prop :=
  ¬ better (base b) (base a).

(** The track [planName] is configured and still has room under
    [quotaUsage]. *)
Definition hasSpace (planQuotas quotaUsage : gmap string Z)
    (planName : string) : bool :=
  match planQuotas !! planName, quotaUsage !! planName with
  | Some q, Some u => u <? q
  | _, _ => false
  end.

(** Under [planQuotas'] and [quotaUsage'] every track has at least the room
    it has under [planQuotas] and [quotaUsage]. *)
Definition noLessRoom (planQuotas quotaUsage planQuotas' quotaUsage'
    : gmap string Z) : Prop :=
  ∀ t q u, planQuotas !! t = Some q → quotaUsage !! t = Some u →
    ∃ q' u', planQuotas' !! t = Some q' ∧ quotaUsage' !! t = Some u' ∧
             q - u ≤ q' - u'.

(** Number of students of [out] allocated to track [t]. *)
Definition assignedTo (t : string) (out : list RankedStudent) : nat :=
  length (filter (λ r, qualifiedStream r = Some t) out).

(** [t] is the first element of [prefs] that names a configured track with
    remaining capacity, [before] being the students processed so far: a
    listed track [p] is named [t] and fewer than [quota p] students of
    [before] hold it, and no track named by an earlier element of [prefs]
    has fewer students of [before] than its quota. *)
Definition firstWithCapacity (plans : list StudyPlan)
    (before : list RankedStudent) (prefs : list string) (t : string) : Prop :=
  ∃ p pre post,
    p ∈ plans ∧ name p = t ∧
    prefs = pre ++ t :: post ∧
    Z.of_nat (assignedTo t before) < quota p ∧
    Forall (λ n, ∀ p', p' ∈ plans → name p' = n →
              quota p' ≤ Z.of_nat (assignedTo n before)) pre.

(** The last definition named [t] in the plans list, if any. *)
Definition lastNamed (t : string) (plans : list StudyPlan) : option StudyPlan :=
  last (filter (λ p, name p = t) plans).

(** ** The same program over a store of objects

    Arrays and objects are references in JavaScript.  To speak about what
    [rankStudents] writes, the program is restated over a store: a list of
    cells addressed by position, where allocation appends a cell.  The score
    mapping and the preference array of a student, which the spread shares
    between a student and its copies and which the program only reads, stay
    inside the student's cell. *)

Module Store.

Definition loc := nat.

Inductive cell : Type :=
  | StudentObj (s : Student)
  | RankedObj (r : RankedStudent)
  | PlanObj (p : StudyPlan)
  | ArrayObj (elems : list loc)
  | RecordObj (m : gmap string Z).

Definition M (A : Type) : Type := list cell → option (A * list cell).

Global Instance M_ret : MRet M := λ A a h, Some (a, h).

Global Instance M_bind : MBind M :=
  λ A B f m h, match m h with
               | Some (a, h') => f a h'
               | None => None
               end.

(** A read or write the program cannot perform (wrong kind of object). *)
Definition fail {A} : M A := λ _, None.

Definition new (c : cell) : M loc := λ h, Some (length h, h ++ [c]).

Definition read (l : loc) : M cell :=
  λ h, match h !! l with
       | Some c => Some (c, h)
       | None => None
       end.

Definition write (l : loc) (c : cell) : M unit :=
  λ h, if decide (l < length h)%nat then Some ((), <[l := c]> h) else None.

Definition readArray (l : loc) : M (list loc) :=
  c ← read l; match c with ArrayObj e => mret e | _ => fail end.

Definition readStudent (l : loc) : M Student :=
  c ← read l; match c with StudentObj s => mret s | _ => fail end.

Definition readRanked (l : loc) : M RankedStudent :=
  c ← read l; match c with RankedObj r => mret r | _ => fail end.

Definition readPlan (l : loc) : M StudyPlan :=
  c ← read l; match c with PlanObj p => mret p | _ => fail end.

Definition readRecord (l : loc) : M (gmap string Z) :=
  c ← read l; match c with RecordObj m => mret m | _ => fail end.

(** [arr.map((x, index) => f(index, x))], collecting the results. *)
Fixpoint mapFrom {A B} (f : nat → A → M B) (index : nat) (l : list A)
    : M (list B) :=
  match l with
  | [] => mret []
  | x :: l' =>
      y ← f index x;
      ys ← mapFrom f (S index) l';
      mret (y :: ys)
  end.

Definition map {A B} (f : A → M B) (l : list A) : M (list B) :=
  mapFrom (λ _, f) 0%nat l.

Fixpoint forEach {A} (f : A → M unit) (l : list A) : M unit :=
  match l with
  | [] => mret ()
  | x :: l' => f x;; forEach f l'
  end.

(** [processed.sort(...)]: the array at [arr] is reordered in place. *)
Definition sortArray (arr : loc) : M unit :=
  elems ← readArray arr;
  objs ← map (λ l, r ← readRanked l; mret (l, r)) elems;
  write arr (ArrayObj (sort (λ a b, compareStudents a.2 b.2) objs).*1).

(** [record[key] = v] *)
Definition setKey (record : loc) (key : string) (v : Z) : M unit :=
  m ← readRecord record;
  write record (RecordObj (assignKey m key v)).

(** [record[key]++] on the own property [key], which holds [currentUsage]. *)
Definition increment (record : loc) (key : string) (currentUsage : Z)
    : M unit :=
  m ← readRecord record;
  write record (RecordObj (<[key := currentUsage + 1]> m)).

Fixpoint choosePlan (planQuotas quotaUsage : loc) (prefs : list string)
    : M (option string) :=
  match prefs with
  | [] => mret None
  | planName :: prefs' =>
      quotas ← readRecord planQuotas;
      match quotas !! planName with
      | Some q =>
          usage ← readRecord quotaUsage;
          match usage !! planName with
          | Some currentUsage =>
              if currentUsage <? q
              then increment quotaUsage planName currentUsage;;
                   mret (Some planName)
              else choosePlan planQuotas quotaUsage prefs'
          | None => choosePlan planQuotas quotaUsage prefs'
          end
      | None => choosePlan planQuotas quotaUsage prefs'
      end
  end.

Definition rankStudents (students plans : loc) : M loc :=
  elems ← readArray students;
  objs ← map (λ l, s ← readStudent l; new (RankedObj (withTotal s))) elems;
  processed ← new (ArrayObj objs);
  sortArray processed;;
  elems ← readArray processed;
  objs ← mapFrom (λ index l,
            s ← readRanked l; new (RankedObj (withRank index s)))
          0%nat elems;
  processed ← new (ArrayObj objs);
  quotaUsage ← new (RecordObj ∅);
  planElems ← readArray plans;
  forEach (λ l, p ← readPlan l; setKey quotaUsage (name p) 0) planElems;;
  planQuotas ← new (RecordObj ∅);
  forEach (λ l, p ← readPlan l; setKey planQuotas (name p) (quota p))
    planElems;;
  elems ← readArray processed;
  objs ← map (λ l,
            student ← readRanked l;
            assignedPlan ← choosePlan planQuotas quotaUsage
                              (preferredStreams (base student));
            new (RankedObj (withStream student assignedPlan)))
          elems;
  new (ArrayObj objs).

(** The cells at [ls] hold the values [xs], wrapped by [inj]. *)
Definition holds {A} (inj : A → cell) (h : list cell) (ls : list loc)
    (xs : list A) : Prop :=
  Forall2 (λ l x, h !! l = Some (inj x)) ls xs.

End Store.

(** ** The dashboard: the student list behind [rankStudents]

    [Dashboard] keeps the students in a state variable and recomputes
    [rankStudents(students, studyPlans)] from it.  Each handler is modelled
    by the list it hands to [setStudents]; the calls to the storage service
    that follow do not change that list. *)

Module Dashboard.

(** [updatedList.findIndex(s => s.id === i)]; [None] stands for -1. *)
Fixpoint findIndex (i : string) (updatedList : list Student) : option nat :=
  match updatedList with
  | [] => None
  | s :: rest =>
      if decide (id s = i) then Some 0%nat else S <$> findIndex i rest
  end.

(** One round of the [newStudents.forEach] of [handleAddStudents]. *)
Definition upsert (updatedList : list Student) (newStu : Student)
    : list Student :=
  match findIndex (id newStu) updatedList with
  | Some index => <[index := newStu]> updatedList
  | None => updatedList ++ [newStu]
  end.

Definition handleAddStudents (isViewer : bool)
    (students newStudents : list Student) : list Student :=
  if isViewer then students else foldl upsert students newStudents.

(** [originalId || updatedStudent.id]: an absent or empty [originalId]
    gives way to the id of the updated student. *)
Definition targetId (updatedStudent : Student) (originalId : option string)
    : string :=
  match originalId with
  | Some i => if decide (i = ""%string) then id updatedStudent else i
  | None => id updatedStudent
  end.

Definition handleEditStudent (isViewer : bool) (students : list Student)
    (updatedStudent : Student) (originalId : option string) : list Student :=
  if isViewer then students
  else (λ s, if decide (id s = targetId updatedStudent originalId)
             then updatedStudent else s) <$> students.

Definition handleDeleteStudent (isViewer : bool) (students : list Student)
    (i : string) : list Student :=
  if isViewer then students else filter (λ s, id s ≠ i) students.

(** [useMemo(() => rankStudents(students, studyPlans), ...)] *)
Definition rankedStudents (students : list Student)
    (studyPlans : list StudyPlan) : list RankedStudent :=
  rankStudents students studyPlans.

End Dashboard.

(** ** The settings page: adding a plan *)

Module SettingsPage.

(** [setTempPlans([...tempPlans, { id: `PLAN-${Date.now()}`,
    name: 'แผนการเรียนใหม่', quota: 10 }])], with the clock reading [now]. *)
Definition handleAddTempPlan (now : Z) (tempPlans : list StudyPlan)
    : list StudyPlan :=
  tempPlans ++ [{| plan_id := "PLAN-" +:+ pretty now;
                   name := "แผนการเรียนใหม่"; quota := 10 |}].

End SettingsPage.

(** ** The student list view *)

Module StudentList.

Definition ITEMS_PER_PAGE : Z := 100.

Inductive direction : Type := DESC | ASC.

(** [s.includes(sub)] *)
Fixpoint includes (s sub : string) : bool :=
  String.prefix sub s ||
  match s with
  | EmptyString => false
  | String _ s' => includes s' sub
  end.

(** [arr.slice(start, end)], negative positions counting from the end. *)
Definition slice {A} (l : list A) (start end_ : Z) : list A :=
  let len := Z.of_nat (length l) in
  let k := if start <? 0 then Z.max (len + start) 0 else Z.min start len in
  let final := if end_ <? 0 then Z.max (len + end_) 0 else Z.min end_ len in
  take (Z.to_nat (final - k)) (drop (Z.to_nat k) l).

(** [Math.ceil(n / d)] on a length [n] and a positive page size [d]. *)
Definition ceilDiv (n d : Z) : Z :=
  if n mod d =? 0 then n / d else n / d + 1.

(** The comparators of the two [result.sort] calls:
    [a.scores[sortSubject] || 0] is the score with 0 for a missing key. *)
Definition bySubject (isDesc : bool) (sortSubject : string)
    (a b : RankedStudent) : number :=
  let scoreA := score sortSubject (base a) in
  let scoreB := score sortSubject (base b) in
  Num (if isDesc then scoreB - scoreA else scoreA - scoreB).

Definition byRank (isDesc : bool) (a b : RankedStudent) : number :=
  Num (if isDesc then rank a - rank b else rank b - rank a).

Section View.
(** [String.prototype.toLowerCase], left abstract. *)
Variable toLowerCase : string → string.

(** The callback of [students.filter]. *)
Definition matches (filterStream filterPreferred searchTerm : string)
    (s : RankedStudent) : bool :=
  let matchesQualified :=
    bool_decide (filterStream = "ALL"%string) ||
    bool_decide (qualifiedStream s = Some filterStream) in
  let matchesPreferred :=
    bool_decide (filterPreferred = "ALL"%string) ||
    bool_decide (head (preferredStreams (base s)) = Some filterPreferred) in
  let searchLower := toLowerCase searchTerm in
  let matchesSearch :=
    includes (toLowerCase (firstName (base s))) searchLower ||
    includes (toLowerCase (lastName (base s))) searchLower ||
    includes (toLowerCase (id (base s))) searchLower in
  matchesQualified && matchesPreferred && matchesSearch.

Definition filteredStudents (students : list RankedStudent)
    (filterStream filterPreferred searchTerm sortSubject : string)
    (sortDirection : direction) : list RankedStudent :=
  let result :=
    filter (λ s, matches filterStream filterPreferred searchTerm s = true)
      students in
  let isDesc := match sortDirection with DESC => true | ASC => false end in
  if decide (sortSubject ≠ "TOTAL"%string)
  then sort (bySubject isDesc sortSubject) result
  else sort (byRank isDesc) result.
End View.

Definition totalPages (filtered : list RankedStudent) : Z :=
  ceilDiv (Z.of_nat (length filtered)) ITEMS_PER_PAGE.

Definition paginatedStudents (filtered : list RankedStudent)
    (currentPage : Z) : list RankedStudent :=
  let startIndex := (currentPage - 1) * ITEMS_PER_PAGE in
  slice filtered startIndex (startIndex + ITEMS_PER_PAGE).

(** [goToPage]: the page shown afterwards. *)
Definition goToPage (filtered : list RankedStudent) (currentPage page : Z)
    : Z :=
  if (1 <=? page) && (page <=? totalPages filtered) then page
  else currentPage.

(** [handleExport]: the students handed to [generateSheet] for one plan, and
    for the waiting sheet ([!s.qualifiedStream]: no stream, or the empty
    string). *)
Definition planStudents (students : list RankedStudent) (plan : StudyPlan)
    : list RankedStudent :=
  filter (λ s, qualifiedStream s = Some (name plan)) students.

Definition waitingStudents (students : list RankedStudent)
    : list RankedStudent :=
  filter (λ s, qualifiedStream s = None ∨ qualifiedStream s = Some ""%string)
    students.

(** [plan.name.replace(/[*?:\\/[\]]/g, ' ')]: each of the seven characters
    the class lists becomes a space. *)
Definition special (c : ascii) : bool :=
  bool_decide (c ∈ ["*"; "?"; ":"; "\"; "/"; "["; "]"]%char).

Fixpoint replaceSpecial (s : string) : string :=
  match s with
  | EmptyString => EmptyString
  | String c s' =>
      String (if special c then " "%char else c) (replaceSpecial s')
  end.

Section Sheets.
(** [String.prototype.trim] and [String.prototype.substring], left
    abstract. *)
Variable trim : string → string.
Variable substring : string → Z → Z → string.

(** [workbook.addWorksheet(sheetName)] belongs to the ExcelJS library, which
    is not among the sources: whether a workbook holding sheets of the names
    [names] takes one more sheet named [sheetName], or raises an exception,
    is left abstract. *)
Variable addWorksheet : list string → string → bool.

Definition safeSheetName (plan : StudyPlan) : string :=
  let sanitizedPlanName := trim (replaceSpecial (name plan)) in
  substring sanitizedPlanName 0 30.

(** [generateSheet(sheetName, data)]: a sheet of that name with a row for
    each student of [data] is added to the workbook, unless [addWorksheet]
    raises its exception, which ends the export. *)
Definition generateSheet (sheetName : string) (data : list RankedStudent)
    (workbook : list (string * list RankedStudent))
    : option (list (string * list RankedStudent)) :=
  if addWorksheet workbook.*1 sheetName
  then Some (workbook ++ [(sheetName, data)])
  else None.

(** [handleExport], up to [writeBuffer]: the sheets of the workbook, in the
    order they were added, each with its name and its students: the overall
    sheet, one sheet per plan, and the waiting sheet when somebody waits.
    Two plans may arrive at one sheet name: their names differ only in
    special characters or outer blanks, or share their first 30
    characters. *)
Definition handleExport (students : list RankedStudent)
    (studyPlans : list StudyPlan)
    : option (list (string * list RankedStudent)) :=
  workbook ← generateSheet "รวมทั้งหมด" students [];
  workbook ← foldl (λ acc plan,
                workbook ← acc;
                generateSheet (safeSheetName plan)
                  (planStudents students plan) workbook)
              (Some workbook) studyPlans;
  if decide (0 < length (waitingStudents students))%nat
  then generateSheet "รอเรียก (Waiting)" (waitingStudents students) workbook
  else Some workbook.
End Sheets.

End StudentList.

(** ** The edit form: preferences in and out *)

Module EditStudentForm.

(** The effect that fills [selectedStreams]: [studyPlans.length] slots, all
    [''], then [fullStreams[i] = s] for each loaded preference in range. *)
Definition loadStreams (preferred : list string) (plans : nat) : list string :=
  foldl (λ fullStreams '(i, s),
           if (i <? plans)%nat then <[i := s]> fullStreams else fullStreams)
    (replicate plans ""%string) (imap pair preferred).

(** [selectedStreams.filter(s => s !== '')] of [handleConfirm]. *)
Definition finalStreams (selectedStreams : list string) : list string :=
  filter (λ s, s ≠ ""%string) selectedStreams.

End EditStudentForm.

(** ** The preference selects of the entry and edit forms

    [handleManualStreamChange] and [handleStreamChange] write one slot of
    [selectedStreams].  A JavaScript array written past its end grows, the
    slots in between staying empty; an empty slot is skipped by [filter] and
    [some] and becomes [undefined] when the array is spread. *)

Module StreamSelect.

Inductive slot : Type :=
  | Str (s : string)
  | Undefined
  | Hole.

Global Instance slot_eq_dec : EqDecision slot.
Proof. solve_decision. Defined.

(** [[...selectedStreams]] *)
Definition spread (selectedStreams : list slot) : list slot :=
  (λ x, match x with Hole => Undefined | _ => x end) <$> selectedStreams.

(** [newStreams[index] = value] *)
Definition assign (newStreams : list slot) (index : nat) (value : slot)
    : list slot :=
  if (index <? length newStreams)%nat then <[index := value]> newStreams
  else newStreams ++ replicate (index - length newStreams) Hole ++ [value].

Definition handleStreamChange (selectedStreams : list slot) (index : nat)
    (value : string) : list slot :=
  assign (spread selectedStreams) index (Str value).

(** [selectedStreams.some((s, i) => s === optionName && i !== index)], with
    [i] counted from [from]. *)
Fixpoint someElsewhere (from : nat) (selectedStreams : list slot)
    (optionName : string) (index : nat) : bool :=
  match selectedStreams with
  | [] => false
  | x :: rest =>
      (bool_decide (x = Str optionName) && bool_decide (from ≠ index)) ||
      someElsewhere (S from) rest optionName index
  end.

Definition isSelectedElsewhere (selectedStreams : list slot)
    (optionName : string) (index : nat) : bool :=
  someElsewhere 0 selectedStreams optionName index.

(** [selectedStreams.filter(s => s !== '')] *)
Definition finalStreams (selectedStreams : list slot) : list slot :=
  filter (λ x, x ≠ Hole ∧ x ≠ Str ""%string) selectedStreams.

(** The plans chosen: the non-empty strings among the slots, in order. *)
Definition chosen (selectedStreams : list slot) : list string :=
  omap (λ x, match x with
             | Str s => if decide (s = ""%string) then None else Some s
             | _ => None
             end) selectedStreams.

End StreamSelect.

(** ** Sample data *)

Definition mkScores (math science thai english social : Z) : gmap string Z :=
  <["math"%string := math]> (<["science"%string := science]>
  (<["thai"%string := thai]> (<["english"%string := english]>
  (<["social"%string := social]> ∅)))).

Definition mkStudent (i : string) (sc : gmap string Z) (prefs : list string)
    : Student :=
  {| id := i; title := ""; firstName := ""; lastName := "";
     scores := sc; preferredStreams := prefs |}.

Definition mkPlan (n : string) (q : Z) : StudyPlan :=
  {| plan_id := n; name := n; quota := q |}.

Definition alice : Student :=
  mkStudent "S1" (mkScores 80 90 70 60 50) ["X"; "Y"]%string.
Definition bob : Student :=
  mkStudent "S2" (mkScores 70 90 70 60 50) ["X"; "Y"]%string.
Definition carol : Student :=
  mkStudent "S3" (mkScores 70 90 70 60 50) ["Q"; "X"]%string.
Definition dave : Student :=
  mkStudent "S4" (mkScores 10 10 10 10 10) ["Q"]%string.

(** Two definitions of the same name, as the settings page produces when two
    plans are added and left with the default name. *)
Definition plansTwiceX : list StudyPlan := [mkPlan "X" 0; mkPlan "X" 1].

Definition plansXY : list StudyPlan := [mkPlan "X" 1; mkPlan "Y" 5].

(** A student entered while the subject configuration lacked [social]. *)
Definition erin : Student :=
  mkStudent "S5"
    (<["math"%string := 10]> (<["science"%string := 20]>
     (<["thai"%string := 30]> (<["english"%string := 40]> ∅)))) [].

(** A store holding [bob] and [alice], the array of the two, one plan and
    the array of plans. *)
Definition sampleStore : list Store.cell :=
  [Store.StudentObj bob; Store.StudentObj alice; Store.ArrayObj [0; 1]%nat;
   Store.PlanObj (mkPlan "X" 1); Store.ArrayObj [3%nat]].

(** A student entered while a sixth subject, [art], was configured. *)
Definition frank : Student :=
  mkStudent "S6" (<["art"%string := 5]> (mkScores 10 20 30 40 50)) [].

(** Two definitions of the same name with the capacity 1 listed first and a
    larger one last; with a smaller one last; and with a negative one last
    (the quota field of the settings page takes any number typed in). *)
Definition plansX1X2 : list StudyPlan := [mkPlan "X" 1; mkPlan "X" 2].

Definition plansX1X0Y : list StudyPlan :=
  [mkPlan "X" 1; mkPlan "X" 0; mkPlan "Y" 5].

Definition plansXneg : list StudyPlan := [mkPlan "X" 5; mkPlan "X" (-1)].

(** A plan that the settings page was given the name [__proto__], and two
    students who put it first. *)
Definition plansProto : list StudyPlan :=
  [mkPlan "__proto__" 1; mkPlan "Y" 5].

Definition plansProtoTwice : list StudyPlan :=
  [mkPlan "__proto__" 1; mkPlan "__proto__" 2].

Definition gina : Student :=
  mkStudent "S7" (mkScores 90 90 90 90 90) ["__proto__"; "Y"]%string.
Definition hugo : Student :=
  mkStudent "S8" (mkScores 80 80 80 80 80) ["__proto__"; "Y"]%string.

(** Plans whose sheet names the export cannot tell apart. *)
Definition plansSlash : list StudyPlan := [mkPlan "A/B" 1; mkPlan "A:B" 1].

(** * Properties *)

Ltac some_ne :=
  repeat match goal with
         | H : Some ?x ≠ Some ?y |- _ =>
             assert (x ≠ y) by congruence; clear H
         end.

(** Scenario 1 of the specification. *)
Example scenario1 :
  let s1 := mkStudent "S1" (mkScores 80 90 0 0 0) ["X"%string] in
  let s2 := mkStudent "S2" (mkScores 70 90 0 0 0) ["X"%string] in
  (λ r, (id (base r), rank r, qualifiedStream r)) <$>
    rankStudents [s2; s1] [mkPlan "X" 1]
  = [("S1"%string, 1, Some "X"%string); ("S2"%string, 2, None)].
Proof. vm_compute. reflexivity. Qed.

(** Scenario 2: one student without preferences, one track of capacity 5. *)
Example scenario2 :
  (λ r, (rank r, qualifiedStream r)) <$>
    rankStudents [mkStudent "S1" (mkScores 1 2 3 4 5) []] [mkPlan "X" 5]
  = [(1, None)].
Proof. vm_compute. reflexivity. Qed.

(** Scenario 3: two students with the same score on every subject. *)
Example scenario3 :
  (λ r, (id (base r), rank r)) <$> rankStudents [carol; bob] plansXY
  = [("S3"%string, 1); ("S2"%string, 2)] ∧
  (λ r, (id (base r), rank r)) <$> rankStudents [bob; carol] plansXY
  = [("S2"%string, 1); ("S3"%string, 2)].
Proof. vm_compute. auto. Qed.

(** Scenario 4: the only preference names no configured track. *)
Example scenario4 :
  qualifiedStream <$> rankStudents [dave] plansXY = [None].
Proof. vm_compute. reflexivity. Qed.

(** Scenario 5: a track of capacity 0. *)
Example scenario5 :
  qualifiedStream <$> rankStudents [alice; bob] [mkPlan "X" 0; mkPlan "Y" 1]
  = [Some "Y"%string; None].
Proof. vm_compute. reflexivity. Qed.

Example scenario1_store :
  let s1 := mkStudent "S1" (mkScores 80 90 0 0 0) ["X"%string] in
  let s2 := mkStudent "S2" (mkScores 70 90 0 0 0) ["X"%string] in
  let h := [Store.StudentObj s2; Store.StudentObj s1;
            Store.ArrayObj [0; 1]%nat; Store.PlanObj (mkPlan "X" 1);
            Store.ArrayObj [3%nat]] in
  match Store.rankStudents 2%nat 4%nat h with
  | Some (res, h') =>
      take 5 h' = h ∧
      h' !! res = Some (Store.ArrayObj [13; 14]%nat) ∧
      h' !! 13%nat = Some (Store.RankedObj
         (withStream (withRank 0 (withTotal s1)) (Some "X"%string)))
  | None => False
  end.
Proof. vm_compute. auto. Qed.

(** ** The tables built from the plans *)

Lemma assignKey_lookup record key v t :
  assignKey record key v !! t =
  if decide (key = t ∧ t ≠ "__proto__"%string) then Some v else record !! t.
Proof.
  unfold assignKey. destruct (decide (key = "__proto__"%string)) as [->|Hk].
  - rewrite decide_False; [done | by intros [<- ?]].
  - destruct (decide (key = t)) as [<-|Hne].
    + by rewrite lookup_insert_eq, decide_True.
    + rewrite lookup_insert_ne by done. rewrite decide_False; [done|].
      by intros [? _].
Qed.

Lemma initQuotaUsage_snoc plans p :
  initQuotaUsage (plans ++ [p]) = assignKey (initQuotaUsage plans) (name p) 0.
Proof. unfold initQuotaUsage. by rewrite foldl_snoc. Qed.

Lemma initPlanQuotas_snoc plans p :
  initPlanQuotas (plans ++ [p]) =
  assignKey (initPlanQuotas plans) (name p) (quota p).
Proof. unfold initPlanQuotas. by rewrite foldl_snoc. Qed.

Lemma lastNamed_snoc t plans p :
  lastNamed t (plans ++ [p]) =
  if decide (name p = t) then Some p else lastNamed t plans.
Proof.
  unfold lastNamed. rewrite filter_app, filter_cons, filter_nil.
  destruct (decide (name p = t)); [apply last_snoc | by rewrite app_nil_r].
Qed.

(** [planQuotas] holds, for each name other than [__proto__], the quota of
    the last plan so named, and nothing under [__proto__]. *)
Lemma initPlanQuotas_lookup plans t :
  initPlanQuotas plans !! t =
  if decide (t = "__proto__"%string) then None else quota <$> lastNamed t plans.
Proof.
  induction plans as [|p plans IH] using rev_ind; [by case_decide|].
  rewrite initPlanQuotas_snoc, lastNamed_snoc, assignKey_lookup, IH.
  destruct (decide (t = "__proto__"%string)) as [Ht|Ht].
  - rewrite decide_False; [done | by intros [_ ?]].
  - destruct (decide (name p = t)); [by rewrite decide_True | ].
    rewrite decide_False; [done | by intros [? _]].
Qed.

(** [quotaUsage] starts at 0 on exactly the names [planQuotas] knows. *)
Lemma initQuotaUsage_lookup plans t :
  initQuotaUsage plans !! t =
  if decide (t = "__proto__"%string) then None
  else (λ _, 0) <$> lastNamed t plans.
Proof.
  induction plans as [|p plans IH] using rev_ind; [by case_decide|].
  rewrite initQuotaUsage_snoc, lastNamed_snoc, assignKey_lookup, IH.
  destruct (decide (t = "__proto__"%string)) as [Ht|Ht].
  - rewrite decide_False; [done | by intros [_ ?]].
  - destruct (decide (name p = t)); [by rewrite decide_True | ].
    rewrite decide_False; [done | by intros [? _]].
Qed.

Lemma initPlanQuotas_lookup_ne plans t :
  t ≠ "__proto__"%string →
  initPlanQuotas plans !! t = quota <$> lastNamed t plans.
Proof. intros Ht. by rewrite initPlanQuotas_lookup, decide_False. Qed.

Lemma initQuotaUsage_lookup_ne plans t :
  t ≠ "__proto__"%string →
  initQuotaUsage plans !! t = (λ _, 0) <$> lastNamed t plans.
Proof. intros Ht. by rewrite initQuotaUsage_lookup, decide_False. Qed.

(** A plan named [__proto__] leaves no trace in the tables. *)
Lemma initPlanQuotas_proto plans :
  initPlanQuotas plans !! "__proto__"%string = None.
Proof. by rewrite initPlanQuotas_lookup, decide_True. Qed.

(** A name [planQuotas] holds a quota for is the name of a plan, the last
    one listed under it, and is not [__proto__]. *)
Lemma initPlanQuotas_Some plans t q :
  initPlanQuotas plans !! t = Some q ↔
  t ≠ "__proto__"%string ∧ ∃ p, lastNamed t plans = Some p ∧ quota p = q.
Proof.
  rewrite initPlanQuotas_lookup. case_decide as Ht.
  - split; [done | by intros [? _]].
  - destruct (lastNamed t plans) as [p|]; simpl; split.
    + intros [= <-]. eauto.
    + by intros [_ (p' & [= <-] & <-)].
    + done.
    + by intros [_ (p' & ? & _)].
Qed.

Lemma initQuotaUsage_of_quota plans t q :
  initPlanQuotas plans !! t = Some q → initQuotaUsage plans !! t = Some 0.
Proof.
  rewrite initPlanQuotas_lookup, initQuotaUsage_lookup.
  case_decide; [done|]. destruct (lastNamed t plans); naive_solver.
Qed.

Lemma lastNamed_unique plans p :
  NoDup (name <$> plans) → p ∈ plans → lastNamed (name p) plans = Some p.
Proof.
  induction plans as [|p' plans IH] using rev_ind; [by intros _ ?%elem_of_nil|].
  rewrite fmap_app, lastNamed_snoc. simpl.
  intros [Hnd [Hdisj _]]%NoDup_app [Hin | ->%list_elem_of_singleton]%elem_of_app.
  - destruct (decide (name p' = name p)) as [Heq|]; [|by apply IH].
    exfalso. apply (Hdisj (name p)); [by apply list_elem_of_fmap_2|].
    rewrite Heq. apply list_elem_of_here.
  - by rewrite decide_True.
Qed.

Lemma lastNamed_Some_unique plans t p :
  NoDup (name <$> plans) →
  lastNamed t plans = Some p ↔ p ∈ plans ∧ name p = t.
Proof.
  intros Hnd. split.
  - unfold lastNamed. intros H%last_Some_elem_of.
    by apply list_elem_of_filter in H as [? ?].
  - intros [Hp <-]. by apply lastNamed_unique.
Qed.

Lemma lastNamed_elem_of plans t p :
  lastNamed t plans = Some p → p ∈ plans ∧ name p = t.
Proof.
  unfold lastNamed. intros H%last_Some_elem_of.
  by apply list_elem_of_filter in H as [? ?].
Qed.

Lemma lastNamed_is_Some plans t :
  is_Some (lastNamed t plans) ↔ t ∈ name <$> plans.
Proof.
  split.
  - intros [p [Hp <-]%lastNamed_elem_of]. by apply list_elem_of_fmap_2.
  - intros (p & -> & Hp)%list_elem_of_fmap.
    induction plans as [|p' plans IH] using rev_ind;
      [by apply elem_of_nil in Hp|].
    rewrite lastNamed_snoc. case_decide; [by eexists|].
    apply IH. apply elem_of_app in Hp as [Hp|Hp]; [done|].
    apply list_elem_of_singleton in Hp. by subst.
Qed.

(** With distinct names, [planQuotas] holds the quota of every listed plan
    whose name is not [__proto__]. *)
Lemma initPlanQuotas_unique plans p :
  NoDup (name <$> plans) → p ∈ plans → name p ≠ "__proto__"%string →
  initPlanQuotas plans !! name p = Some (quota p).
Proof.
  intros Hnd Hp Hne. by rewrite initPlanQuotas_lookup_ne, lastNamed_unique.
Qed.

(** ** One student's walk down the preference list *)

Lemma hasSpace_true planQuotas quotaUsage t :
  hasSpace planQuotas quotaUsage t = true ↔
  ∃ q u, planQuotas !! t = Some q ∧ quotaUsage !! t = Some u ∧ u < q.
Proof.
  unfold hasSpace. split.
  - destruct (planQuotas !! t) as [q|], (quotaUsage !! t) as [u|]; try done.
    intros ?%Z.ltb_lt. eauto.
  - intros (q & u & -> & -> & ?). by apply Z.ltb_lt.
Qed.

(** What the preference loop returns: either the first preference with room,
    whose counter is bumped by one, or nothing with the counters untouched. *)
Lemma choosePlan_spec planQuotas quotaUsage prefs :
  match choosePlan planQuotas quotaUsage prefs with
  | (Some t, quotaUsage') =>
      ∃ pre post u,
        prefs = pre ++ t :: post ∧
        Forall (λ n, hasSpace planQuotas quotaUsage n = false) pre ∧
        hasSpace planQuotas quotaUsage t = true ∧
        quotaUsage !! t = Some u ∧
        quotaUsage' = <[t := u + 1]> quotaUsage
  | (None, quotaUsage') =>
      quotaUsage' = quotaUsage ∧
      Forall (λ n, hasSpace planQuotas quotaUsage n = false) prefs
  end.
Proof.
  induction prefs as [|n prefs IH]; simpl; [by split|].
  assert (Hskip : hasSpace planQuotas quotaUsage n = false →
    match choosePlan planQuotas quotaUsage prefs with
    | (Some t, quotaUsage') =>
        ∃ pre post u,
          n :: prefs = pre ++ t :: post ∧
          Forall (λ n, hasSpace planQuotas quotaUsage n = false) pre ∧
          hasSpace planQuotas quotaUsage t = true ∧
          quotaUsage !! t = Some u ∧
          quotaUsage' = <[t := u + 1]> quotaUsage
    | (None, quotaUsage') =>
        quotaUsage' = quotaUsage ∧
        Forall (λ n, hasSpace planQuotas quotaUsage n = false) (n :: prefs)
    end).
  { intros Hn. destruct (choosePlan planQuotas quotaUsage prefs) as [[t|] U'].
    - destruct IH as (pre & post & u & -> & Hpre & Ht & Hu & ->).
      exists (n :: pre), post, u. split_and!; auto.
    - destruct IH as [-> Hall]. split; auto. }
  unfold hasSpace in Hskip at 1.
  destruct (planQuotas !! n) as [q|] eqn:Hq; [|by apply Hskip].
  destruct (quotaUsage !! n) as [u|] eqn:Hu; [|by apply Hskip].
  destruct (u <? q) eqn:Hlt; [|by apply Hskip].
  exists [], prefs, u. split_and!; auto.
  unfold hasSpace. by rewrite Hq, Hu.
Qed.

Lemma choosePlan_none planQuotas quotaUsage prefs :
  Forall (λ n, hasSpace planQuotas quotaUsage n = false) prefs →
  choosePlan planQuotas quotaUsage prefs = (None, quotaUsage).
Proof.
  intros Hall. pose proof (choosePlan_spec planQuotas quotaUsage prefs) as H.
  destruct (choosePlan planQuotas quotaUsage prefs) as [[t|] U'].
  - destruct H as (pre & post & u & -> & _ & Ht & _).
    apply Forall_app in Hall as [_ Hall]. apply Forall_cons in Hall as [Hf _].
    congruence.
  - by destruct H as [-> _].
Qed.

Lemma choosePlan_cons_true Q U n rest :
  hasSpace Q U n = true →
  ∃ u, U !! n = Some u ∧
       choosePlan Q U (n :: rest) = (Some n, <[n := u + 1]> U).
Proof.
  intros (q & u & Hq & Hu & Hlt)%hasSpace_true. exists u. split; [done|].
  simpl. rewrite Hq, Hu. by destruct (Z.ltb_spec u q); [|lia].
Qed.

Lemma choosePlan_cons_false Q U n rest :
  hasSpace Q U n = false →
  choosePlan Q U (n :: rest) = choosePlan Q U rest.
Proof.
  unfold hasSpace. simpl.
  destruct (Q !! n) as [q|]; [|done]. destruct (U !! n) as [u|]; [|done].
  by intros ->.
Qed.

(** Preferences without room are passed over. *)
Lemma choosePlan_skip_full Q U pre rest :
  Forall (λ n, hasSpace Q U n = false) pre →
  choosePlan Q U (pre ++ rest) = choosePlan Q U rest.
Proof.
  induction 1 as [|n pre Hn _ IH]; [done|].
  rewrite <-app_comm_cons, choosePlan_cons_false by done. exact IH.
Qed.

(** A student whose walk down the list reaches [t] is given [t] exactly when
    [t] has room. *)
Lemma choosePlan_reaches Q U pre t post :
  Forall (λ n, hasSpace Q U n = false) pre →
  (choosePlan Q U (pre ++ t :: post)).1 = Some t ↔ hasSpace Q U t = true.
Proof.
  intros Hpre. rewrite (choosePlan_skip_full _ _ _ _ Hpre).
  destruct (hasSpace Q U t) eqn:Ht.
  - destruct (choosePlan_cons_true Q U t post Ht) as (u & _ & ->). done.
  - rewrite (choosePlan_cons_false _ _ _ _ Ht).
    pose proof (choosePlan_spec Q U post) as Hc.
    destruct (choosePlan Q U post) as [[t'|] U']; simpl; [|done].
    destruct Hc as (_ & _ & _ & _ & _ & Ht' & _).
    split; [intros [= ->]; congruence | done].
Qed.

(** ** The allocation pass *)

Lemma allocate_cons planQuotas quotaUsage student rest :
  allocate planQuotas quotaUsage (student :: rest) =
  (withStream student
     (choosePlan planQuotas quotaUsage (preferredStreams (base student))).1
   :: (allocate planQuotas
         (choosePlan planQuotas quotaUsage
            (preferredStreams (base student))).2 rest).1,
   (allocate planQuotas
      (choosePlan planQuotas quotaUsage
         (preferredStreams (base student))).2 rest).2).
Proof.
  simpl. destruct (choosePlan _ _ _) as [a U']. simpl.
  by destruct (allocate planQuotas U' rest).
Qed.

Lemma allocate_app planQuotas quotaUsage l1 l2 :
  allocate planQuotas quotaUsage (l1 ++ l2) =
  ((allocate planQuotas quotaUsage l1).1 ++
   (allocate planQuotas (allocate planQuotas quotaUsage l1).2 l2).1,
   (allocate planQuotas (allocate planQuotas quotaUsage l1).2 l2).2).
Proof.
  revert quotaUsage. induction l1 as [|s l1 IH]; intros U.
  - cbn [allocate app fst snd]. by destruct (allocate planQuotas U l2).
  - rewrite <-app_comm_cons, !allocate_cons. cbn [fst snd]. by rewrite IH.
Qed.

Lemma allocate_length planQuotas quotaUsage l :
  length (allocate planQuotas quotaUsage l).1 = length l.
Proof.
  revert quotaUsage. induction l as [|s l IH]; intros U; [done|].
  rewrite allocate_cons. cbn [fst length]. by rewrite IH.
Qed.

Lemma allocate_take planQuotas quotaUsage l i :
  (allocate planQuotas quotaUsage (take i l)).1 =
  take i (allocate planQuotas quotaUsage l).1.
Proof.
  revert quotaUsage i. induction l as [|s l IH]; intros U [|i]; try done.
  change (take (S i) (s :: l)) with (s :: take i l).
  rewrite !allocate_cons. cbn [fst take]. by rewrite IH.
Qed.

(** The student at position [i] gets what the preference loop returns in the
    state left by the students before. *)
Lemma allocate_lookup planQuotas quotaUsage l i s :
  l !! i = Some s →
  (allocate planQuotas quotaUsage l).1 !! i =
  Some (withStream s
          (choosePlan planQuotas (allocate planQuotas quotaUsage (take i l)).2
             (preferredStreams (base s))).1).
Proof.
  intros Hi. rewrite <-(take_drop_middle l i s Hi) at 1.
  rewrite allocate_app, allocate_cons. cbn [fst snd].
  apply lookup_lt_Some in Hi.
  rewrite lookup_app_r by (rewrite allocate_length, length_take; lia).
  rewrite allocate_length, length_take.
  by replace (i - i `min` length l)%nat with 0%nat by lia.
Qed.

Lemma allocate_take_S planQuotas quotaUsage l i s :
  l !! i = Some s →
  (allocate planQuotas quotaUsage (take (S i) l)).2 =
  (choosePlan planQuotas (allocate planQuotas quotaUsage (take i l)).2
     (preferredStreams (base s))).2.
Proof.
  intros Hi. rewrite (take_S_r _ _ _ Hi), allocate_app. cbn [snd].
  by rewrite allocate_cons.
Qed.

Lemma assignedTo_cons t r out :
  assignedTo t (r :: out) =
  ((if decide (qualifiedStream r = Some t) then 1 else 0) + assignedTo t out)%nat.
Proof.
  unfold assignedTo. rewrite filter_cons.
  by destruct (decide (qualifiedStream r = Some t)).
Qed.

Lemma assignedTo_app t out1 out2 :
  assignedTo t (out1 ++ out2) = (assignedTo t out1 + assignedTo t out2)%nat.
Proof. unfold assignedTo. by rewrite filter_app, length_app. Qed.

(** The counter of a track after the pass is its counter before plus the
    number of students the pass gave the track; a track without a counter or
    without a quota receives nobody; and a counter never passes the quota
    unless it started above it. *)
Lemma allocate_usage planQuotas t l :
  ∀ quotaUsage,
    let res := allocate planQuotas quotaUsage l in
    res.2 !! t =
      (λ u, u + Z.of_nat (assignedTo t res.1)) <$> quotaUsage !! t ∧
    (quotaUsage !! t = None ∨ planQuotas !! t = None → assignedTo t res.1 = 0%nat) ∧
    (∀ u q u', quotaUsage !! t = Some u → planQuotas !! t = Some q →
               res.2 !! t = Some u' → u' ≤ Z.max u q).
Proof.
  induction l as [|s l IH]; intros U.
  - cbn [allocate fst snd]. split_and!.
    + destruct (U !! t); simpl; [|done].
      f_equal. change (assignedTo t []) with 0%nat. lia.
    + done.
    + intros u q u' -> _ [= ->]. lia.
  - rewrite allocate_cons.
    pose proof (choosePlan_spec planQuotas U (preferredStreams (base s))) as Hc.
    destruct (choosePlan planQuotas U (preferredStreams (base s))) as [a U'].
    cbn [fst snd]. destruct (IH U') as (IH1 & IH2 & IH3).
    rewrite assignedTo_cons. cbn [qualifiedStream withStream].
    destruct a as [t'|].
    + destruct Hc as (pre & post & u0 & _ & _ & Ht' & Hu0 & ->).
      apply hasSpace_true in Ht' as (q0 & u1 & Hq0 & Hu1 & Hlt).
      assert (u1 = u0) as -> by congruence.
      destruct (decide (t' = t)) as [->|Hne].
      * rewrite decide_True by done. rewrite lookup_insert_eq in IH1, IH3.
        rewrite IH1, Hu0. simpl. split_and!.
        -- f_equal. lia.
        -- intros [?|?]; congruence.
        -- intros u q u' [= ->] Hq Hu'. 
           assert (q0 = q) as -> by congruence.
           specialize (IH3 (u + 1) q u' eq_refl Hq).
           rewrite IH1 in IH3. specialize (IH3 Hu'). lia.
      * rewrite decide_False by congruence.
        rewrite lookup_insert_ne in IH1, IH2, IH3 by done.
        split_and!; [exact IH1 | exact IH2 | exact IH3].
    + destruct Hc as [-> _]. rewrite decide_False by done.
      split_and!; [exact IH1 | exact IH2 | exact IH3].
Qed.

(** The number of students a run gives to a name is bounded by the quota
    [planQuotas] holds for it (by 0 if that quota is negative), and is 0 for
    a name that is not configured. *)
Lemma rankStudents_assignedTo students plans t :
  match initPlanQuotas plans !! t with
  | Some q => Z.of_nat (assignedTo t (rankStudents students plans)) ≤ Z.max 0 q
  | None => assignedTo t (rankStudents students plans) = 0%nat
  end.
Proof.
  unfold rankStudents.
  destruct (allocate_usage (initPlanQuotas plans) t (ranked students)
              (initQuotaUsage plans)) as (H1 & H2 & H3).
  destruct (initPlanQuotas plans !! t) as [q|] eqn:Hq; [|by apply H2; right].
  rewrite (initQuotaUsage_of_quota _ _ _ Hq) in H1, H3. simpl in H1.
  specialize (H3 0 q _ eq_refl eq_refl H1). lia.
Qed.

(** ** The sort *)

Section SortFacts.
Context {A : Type} (comparefn : A → A → number).

Lemma insert_sorted_perm x l : insert_sorted comparefn x l ≡ₚ x :: l.
Proof.
  induction l as [|y l IH]; [done|]. simpl.
  destruct (sortCompare comparefn x y <=? 0); [done|].
  rewrite IH. apply Permutation_swap.
Qed.

Lemma sort_perm l : sort comparefn l ≡ₚ l.
Proof.
  induction l as [|x l IH]; [done|]. simpl.
  by rewrite insert_sorted_perm, IH.
Qed.

Lemma sort_length l : length (sort comparefn l) = length l.
Proof. by rewrite sort_perm. Qed.

(** Sorting through a projection: what [sortArray] does with references. *)
Lemma sort_fmap {B} (f : B → A) (l : list B) :
  f <$> sort (λ a b, comparefn (f a) (f b)) l = sort comparefn (f <$> l).
Proof.
  induction l as [|x l IH]; [done|].
  rewrite fmap_cons. cbn [sort]. rewrite <-IH.
  generalize (sort (λ a b, comparefn (f a) (f b)) l). intros k.
  induction k as [|y k IHk]; [done|].
  rewrite fmap_cons. cbn [insert_sorted].
  change (sortCompare (λ a b, comparefn (f a) (f b)) x y)
    with (sortCompare comparefn (f x) (f y)).
  destruct (sortCompare comparefn (f x) (f y) <=? 0);
    rewrite !fmap_cons; [done | by rewrite IHk].
Qed.

(** Sortedness and stability hold on a domain [D] of elements on which the
    comparator is consistent.  [R x y] reads: [x] may stand before [y]. *)
Context (D : A → Prop) (R : A → A → Prop).
Hypothesis R_le : ∀ x y, D x → D y → sortCompare comparefn x y ≤ 0 → R x y.
Hypothesis R_gt : ∀ x y, D x → D y → ¬ sortCompare comparefn x y ≤ 0 → R y x.
Hypothesis R_trans : ∀ x y z, D x → D y → D z → R x y → R y z → R x z.

Lemma insert_sorted_StronglySorted x l :
  D x → Forall D l → StronglySorted R l →
  StronglySorted R (insert_sorted comparefn x l).
Proof.
  intros Hx. induction l as [|y l IH]; intros HD Hs; simpl.
  - repeat constructor.
  - apply Forall_cons in HD as [Hy HD].
    apply StronglySorted_cons in Hs as [Hyl Hs].
    destruct (Z.leb_spec (sortCompare comparefn x y) 0) as [Hle|Hgt].
    + apply StronglySorted_cons. split; [|by apply StronglySorted_cons].
      apply Forall_cons. split; [by apply R_le|].
      rewrite Forall_forall in Hyl, HD |- *. intros z Hz.
      apply (R_trans x y z); auto.
    + apply StronglySorted_cons. split; [|by apply IH].
      rewrite insert_sorted_perm. apply Forall_cons. split; [|done].
      apply R_gt; auto. lia.
Qed.

Lemma sort_StronglySorted l :
  Forall D l → StronglySorted R (sort comparefn l).
Proof.
  induction l as [|x l IH]; intros HD; simpl; [constructor|].
  apply Forall_cons in HD as [Hx HD].
  apply insert_sorted_StronglySorted; auto. by rewrite sort_perm.
Qed.

(** Stability: elements of a class [P] whose members never have to follow
    one another keep their input order. *)
Context (P : A → Prop) `{!∀ x, Decision (P x)}.
Hypothesis P_le : ∀ x y, D x → D y → P x → P y → sortCompare comparefn x y ≤ 0.

Lemma insert_sorted_filter x l :
  D x → Forall D l →
  filter P (insert_sorted comparefn x l) = filter P (x :: l).
Proof.
  intros Hx. induction l as [|y l IH]; intros HD; [done|]. simpl.
  apply Forall_cons in HD as [Hy HD].
  destruct (Z.leb_spec (sortCompare comparefn x y) 0) as [Hle|Hgt]; [done|].
  rewrite (filter_cons _ y), IH, !filter_cons by done.
  destruct (decide (P x)) as [HPx|], (decide (P y)) as [HPy|]; try done.
  specialize (P_le x y Hx Hy HPx HPy). lia.
Qed.

Lemma sort_filter l :
  Forall D l → filter P (sort comparefn l) = filter P l.
Proof.
  induction l as [|x l IH]; intros HD; [done|]. simpl.
  apply Forall_cons in HD as [Hx HD].
  rewrite insert_sorted_filter by (by rewrite ?sort_perm).
  by rewrite !filter_cons, IH.
Qed.
End SortFacts.

(** ** The order on sort keys *)

Lemma lexGt_irrefl u : ¬ lexGt u u.
Proof. induction u as [|x u IH]; simpl; [tauto|]. intros [?|[_ ?]]; [lia | auto]. Qed.

Lemma lexGt_trans u v w : lexGt u v → lexGt v w → lexGt u w.
Proof.
  revert v w. induction u as [|x u IH]; intros [|y v] [|z w]; simpl; try tauto.
  intros [?|[-> ?]] [?|[-> ?]]; try (left; lia). right. split; [done|].
  by apply (IH v).
Qed.

Lemma lexGt_total u v :
  length u = length v → lexGt u v ∨ u = v ∨ lexGt v u.
Proof.
  revert v. induction u as [|x u IH]; intros [|y v]; simpl; try done; [auto|].
  intros [= Hlen]. destruct (Z.lt_trichotomy x y) as [?|[->|?]].
  - right. right. left. lia.
  - destruct (IH v Hlen) as [?|[->|?]]; auto.
  - left. left. lia.
Qed.

Lemma sortKey_length s : length (sortKey s) = 6%nat.
Proof. done. Qed.

(** Exactly one of: [a] better, tied, [b] better. *)
Lemma better_total a b : better a b ∨ tied a b ∨ better b a.
Proof. apply lexGt_total. by rewrite !sortKey_length. Qed.

Lemma better_not_tied a b : better a b → ¬ tied a b.
Proof. unfold better, tied. intros H Heq. rewrite Heq in H. by eapply lexGt_irrefl. Qed.

Lemma better_asym a b : better a b → ¬ better b a.
Proof. intros H1 H2. eapply lexGt_irrefl, lexGt_trans; eauto. Qed.

Lemma not_better_trans a b c :
  ¬ better b a → ¬ better c b → ¬ better c a.
Proof.
  intros Hba Hcb Hca. destruct (better_total a b) as [Hab|[Heq|?]]; [| |done].
  - apply Hcb. by apply (lexGt_trans _ (sortKey a)).
  - apply Hcb. unfold better, tied in *. by rewrite <-Heq.
Qed.

(** ** The comparator on students that carry all five subjects *)

Lemma complete_inv s :
  complete s →
  ∃ math science thai english social,
    scores s !! "math"%string = Some math ∧
    scores s !! "science"%string = Some science ∧
    scores s !! "thai"%string = Some thai ∧
    scores s !! "english"%string = Some english ∧
    scores s !! "social"%string = Some social.
Proof.
  unfold complete, subjectKeys. rewrite !Forall_cons.
  intros ([m ?] & [sc ?] & [t ?] & [e ?] & [so ?] & _). by exists m, sc, t, e, so.
Qed.

(** On such a student [calculateTotal] is the plain sum of the five marks. *)
Lemma calculateTotal_complete s :
  complete s → calculateTotal s = Num (specTotal subjectKeys s).
Proof.
  intros (m & sc & t & e & so & Hm & Hsc & Ht & He & Hso)%complete_inv.
  unfold calculateTotal, specTotal, score, subjectKeys. simpl.
  rewrite Hm, Hsc, Ht, He, Hso. simpl. f_equal. lia.
Qed.

(** The sign of the comparator tells which key comes first. *)
Lemma compareStudents_spec a b :
  consistent a → consistent b →
  (sortCompare compareStudents a b < 0 ↔ better (base a) (base b)) ∧
  (sortCompare compareStudents a b = 0 ↔ tied (base a) (base b)) ∧
  (0 < sortCompare compareStudents a b ↔ better (base b) (base a)).
Proof.
  intros [Ha Hta] [Hb Htb].
  unfold sortCompare, compareStudents. rewrite Hta, Htb.
  destruct (complete_inv _ Ha) as (m & sc & t & e & so & Hm & Hsc & Ht & He & Hso).
  destruct (complete_inv _ Hb) as (m' & sc' & t' & e' & so' & Hm' & Hsc' & Ht' & He' & Hso').
  unfold better, tied, sortKey, tieBreaker, differ, diff, strictNe,
    calculateTotal, specTotal, score, subjectKeys, tieBreakKeys.
  simpl. rewrite Hm, Hsc, Ht, He, Hso, Hm', Hsc', Ht', He', Hso'. simpl.
  repeat case_bool_decide; simplify_eq; simpl; some_ne;
    (split_and!; (split; intros ?; simplify_eq));
    first [lia | repeat f_equal; lia].
Qed.

(** ** The ranked list *)

Lemma ranked_length students : length (ranked students) = length students.
Proof. unfold ranked. by rewrite length_imap, sort_length, length_fmap. Qed.

Lemma ranked_lookup students i s :
  ranked students !! i = Some s →
  ∃ s0, sort compareStudents (withTotal <$> students) !! i = Some s0 ∧
        s = withRank i s0.
Proof.
  unfold ranked. rewrite list_lookup_imap.
  destruct (sort compareStudents (withTotal <$> students) !! i) as [s0|];
    [|done].
  intros [= <-]. eauto.
Qed.

Lemma ranked_rank students i s :
  ranked students !! i = Some s → rank s = Z.of_nat i + 1.
Proof. by intros (s0 & _ & ->)%ranked_lookup. Qed.

Lemma ranked_base students :
  base <$> ranked students =
  base <$> sort compareStudents (withTotal <$> students).
Proof.
  unfold ranked. rewrite fmap_imap.
  rewrite (imap_ext _ (λ _, base)) by done. apply imap_const.
Qed.

Lemma sorted_withTotal_total students :
  Forall (λ r, totalScore r = calculateTotal (base r))
    (sort compareStudents (withTotal <$> students)).
Proof.
  rewrite sort_perm. apply Forall_fmap, Forall_true. done.
Qed.

Lemma ranked_totalScore students :
  Forall (λ r, totalScore r = calculateTotal (base r)) (ranked students).
Proof.
  apply Forall_lookup. intros i s (s0 & Hs0 & ->)%ranked_lookup.
  pose proof (sorted_withTotal_total students) as H.
  rewrite Forall_lookup in H. exact (H i s0 Hs0).
Qed.

Lemma rankStudents_length students plans :
  length (rankStudents students plans) = length students.
Proof. unfold rankStudents. by rewrite allocate_length, ranked_length. Qed.

(** The student at output position [i] is the ranked student at position [i]
    with the result of the preference loop run in [usageBefore i]. *)
Lemma rankStudents_lookup students plans i r :
  rankStudents students plans !! i = Some r ↔
  ∃ s, ranked students !! i = Some s ∧
       r = withStream s
             (choosePlan (initPlanQuotas plans) (usageBefore students plans i)
                (preferredStreams (base s))).1.
Proof.
  unfold rankStudents, usageBefore. split.
  - intros Hr. assert (Hlt : (i < length (ranked students))%nat).
    { apply lookup_lt_Some in Hr. by rewrite allocate_length in Hr. }
    apply lookup_lt_is_Some in Hlt as [s Hs]. exists s. split; [done|].
    rewrite (allocate_lookup _ _ _ _ _ Hs) in Hr. congruence.
  - intros (s & Hs & ->). by apply allocate_lookup.
Qed.

Lemma rankStudents_lookup_rank students plans i r :
  rankStudents students plans !! i = Some r → rank r = Z.of_nat i + 1.
Proof.
  intros (s & Hs & ->)%rankStudents_lookup. simpl. by eapply ranked_rank.
Qed.

Lemma rankStudents_base students plans :
  base <$> rankStudents students plans = base <$> ranked students.
Proof.
  unfold rankStudents. generalize (initQuotaUsage plans), (ranked students).
  intros U l. revert U. induction l as [|s l IH]; intros U; [done|].
  rewrite allocate_cons. cbn [fst]. rewrite !fmap_cons. by rewrite IH.
Qed.

Lemma usageBefore_S students plans i s :
  ranked students !! i = Some s →
  usageBefore students plans (S i) =
  (choosePlan (initPlanQuotas plans) (usageBefore students plans i)
     (preferredStreams (base s))).2.
Proof. apply allocate_take_S. Qed.

(** The counter of a configured name, when student [i] is processed, is the
    number of students before [i] that were given that name. *)
Lemma usageBefore_count students plans i t q :
  initPlanQuotas plans !! t = Some q →
  usageBefore students plans i !! t =
  Some (Z.of_nat (assignedTo t (take i (rankStudents students plans)))).
Proof.
  intros Hq. unfold usageBefore, rankStudents.
  destruct (allocate_usage (initPlanQuotas plans) t (take i (ranked students))
              (initQuotaUsage plans)) as (H1 & _).
  rewrite H1, (initQuotaUsage_of_quota _ _ _ Hq), allocate_take. done.
Qed.

Lemma assignedTo_pos t out i j r :
  out !! i = Some r → qualifiedStream r = Some t → (i < j)%nat →
  (1 ≤ assignedTo t (take j out))%nat.
Proof.
  intros Hi Hr Hlt. unfold assignedTo.
  assert (Hin : r ∈ filter (λ r, qualifiedStream r = Some t) (take j out)).
  { apply list_elem_of_filter. split; [done|].
    apply list_elem_of_lookup. exists i. by rewrite lookup_take_lt. }
  destruct (filter _ _); [by apply elem_of_nil in Hin | simpl; lia].
Qed.

Lemma assignedTo_zero t out :
  assignedTo t out = 0%nat ↔ Forall (λ r, qualifiedStream r ≠ Some t) out.
Proof.
  unfold assignedTo. rewrite length_zero_iff_nil. split.
  - intros Hnil. apply Forall_forall. intros r Hr Hq.
    exact (filter_nil_not_elem_of _ _ r Hnil Hq Hr).
  - intros Hall. induction Hall as [|r out Hr _ IH]; [done|].
    by rewrite filter_cons_False.
Qed.

Lemma assignedTo_take_mono t i j out :
  (i ≤ j)%nat → (assignedTo t (take i out) ≤ assignedTo t (take j out))%nat.
Proof.
  intros Hij. rewrite <-(take_drop i (take j out)), assignedTo_app.
  rewrite take_take. replace (i `min` j)%nat with i by lia. lia.
Qed.

Lemma assignedTo_take_total t i out :
  (assignedTo t (take i out) ≤ assignedTo t out)%nat.
Proof.
  rewrite <-(take_drop i out) at 2. rewrite assignedTo_app. lia.
Qed.

(** What the student at position [i] sees of a configured track. *)
Lemma hasSpace_count students plans i t q :
  initPlanQuotas plans !! t = Some q →
  hasSpace (initPlanQuotas plans) (usageBefore students plans i) t =
  (Z.of_nat (assignedTo t (take i (rankStudents students plans))) <? q).
Proof.
  intros Hq. unfold hasSpace.
  by rewrite Hq, (usageBefore_count _ _ _ _ _ Hq).
Qed.

(** ** Capacity *)

(** C1, as amended: for every list of students and every list of track
    definitions with pairwise distinct names and capacities >= 0, and for
    every track in that list, the number of students whose [qualifiedStream]
    in the output of [rankStudents] equals that track's name is at most that
    track's quota; in particular a track with quota 0 is assigned to no
    student. *)
Theorem capacity_invariant students plans p :
  NoDup (name <$> plans) →
  Forall (λ p, 0 ≤ quota p) plans →
  p ∈ plans →
  Z.of_nat (assignedTo (name p) (rankStudents students plans)) ≤ quota p ∧
  (quota p = 0 →
   Forall (λ r, qualifiedStream r ≠ Some (name p))
     (rankStudents students plans)).
Proof.
  intros Hnd Hpos Hp.
  pose proof (rankStudents_assignedTo students plans (name p)) as Hb.
  rewrite Forall_forall in Hpos. specialize (Hpos p Hp).
  assert (Hle : Z.of_nat (assignedTo (name p) (rankStudents students plans))
                ≤ quota p).
  { destruct (decide (name p = "__proto__"%string)) as [Heq|Hne].
    - rewrite Heq in Hb |- *. rewrite initPlanQuotas_proto in Hb. lia.
    - rewrite (initPlanQuotas_unique plans p Hnd Hp Hne) in Hb. lia. }
  split; [done|]. intros H0. apply assignedTo_zero. lia.
Qed.

Lemma capacity_invariant_witness :
  NoDup (name <$> plansXY) ∧
  Forall (λ p, 0 ≤ quota p) plansXY ∧
  mkPlan "X" 1 ∈ plansXY ∧
  Z.of_nat (assignedTo "X" (rankStudents [alice; bob; carol] plansXY)) ≤ 1.
Proof.
  assert (H1 : NoDup (name <$> plansXY)).
  { apply (bool_decide_unpack _). vm_compute. exact I. }
  assert (H2 : Forall (λ p, 0 ≤ quota p) plansXY).
  { apply (bool_decide_unpack _). vm_compute. exact I. }
  assert (H3 : mkPlan "X" 1 ∈ plansXY) by apply list_elem_of_here.
  split; [exact H1 | split; [exact H2 | split; [exact H3 |]]].
  exact (proj1 (capacity_invariant [alice; bob; carol] plansXY _ H1 H2 H3)).
Defined.

(** C1 as stated fails when two definitions share a name: the track
    [X] with quota 0 is listed, yet the later definition of [X] lets one
    student in. *)
Lemma capacity_fails_on_shared_name :
  Forall (λ p, 0 ≤ quota p) plansTwiceX ∧
  mkPlan "X" 0 ∈ plansTwiceX ∧
  ¬ (Z.of_nat (assignedTo (name (mkPlan "X" 0))
                 (rankStudents [alice] plansTwiceX))
     ≤ quota (mkPlan "X" 0)).
Proof.
  split_and!.
  - apply (bool_decide_unpack _). vm_compute. exact I.
  - apply list_elem_of_here.
  - vm_compute. intros H. apply H. reflexivity.
Qed.

(** C10, as amended: when several definitions carry the name [t], a name
    other than [__proto__], the quota of the last one governs the allocations
    for [t].  [planQuotas] holds that quota; one counter serves the name,
    equal at every moment to the number of students so far given [t]; a
    student whose walk down the preference list reaches [t] (no earlier
    preference has room) is given [t] exactly when fewer students than the
    last-listed quota hold [t] at that moment, and nobody is given [t]
    otherwise; so the number of students given [t] never exceeds the
    last-listed quota, or 0 when that quota is negative. *)
Theorem shared_name_last_quota students plans t p :
  lastNamed t plans = Some p →
  t ≠ "__proto__"%string →
  initPlanQuotas plans !! t = Some (quota p) ∧
  (∀ i, usageBefore students plans i !! t =
        Some (Z.of_nat (assignedTo t (take i (rankStudents students plans))))) ∧
  (∀ i r pre post,
     rankStudents students plans !! i = Some r →
     preferredStreams (base r) = pre ++ t :: post →
     Forall (λ n, hasSpace (initPlanQuotas plans)
                    (usageBefore students plans i) n = false) pre →
     (qualifiedStream r = Some t ↔
      Z.of_nat (assignedTo t (take i (rankStudents students plans)))
      < quota p)) ∧
  (∀ i r, rankStudents students plans !! i = Some r →
          qualifiedStream r = Some t →
          Z.of_nat (assignedTo t (take i (rankStudents students plans)))
          < quota p) ∧
  Z.of_nat (assignedTo t (rankStudents students plans)) ≤ Z.max 0 (quota p).
Proof.
  intros Hlast Hne.
  assert (Hq : initPlanQuotas plans !! t = Some (quota p)).
  { by rewrite initPlanQuotas_lookup_ne, Hlast. }
  split_and!; [done | | | |].
  - intros i. by eapply usageBefore_count.
  - intros i r pre post (s & Hs & ->)%rankStudents_lookup Hprefs Hpre.
    cbn [qualifiedStream base withStream] in *. rewrite Hprefs.
    rewrite (choosePlan_reaches _ _ _ _ _ Hpre).
    rewrite (hasSpace_count _ _ _ _ _ Hq). apply Z.ltb_lt.
  - intros i r (s & Hs & ->)%rankStudents_lookup Hr. cbn in Hr.
    pose proof (choosePlan_spec (initPlanQuotas plans)
                  (usageBefore students plans i)
                  (preferredStreams (base s))) as Hc.
    destruct (choosePlan _ _ _) as [[t'|] U']; simplify_eq/=.
    destruct Hc as (_ & _ & u & _ & _ & Hsp & _).
    rewrite (hasSpace_count _ _ _ _ _ Hq) in Hsp. by apply Z.ltb_lt.
  - pose proof (rankStudents_assignedTo students plans t) as Hb.
    by rewrite Hq in Hb.
Qed.

Lemma shared_name_last_quota_witness :
  lastNamed "X" plansX1X2 = Some (mkPlan "X" 2) ∧
  "X"%string ≠ "__proto__"%string ∧
  rankStudents [alice; bob; carol] plansX1X2 !! 1%nat
    = Some (withStream (withRank 1 (withTotal bob)) (Some "X"%string)) ∧
  (qualifiedStream (withStream (withRank 1 (withTotal bob)) (Some "X"%string))
     = Some "X"%string ↔
   Z.of_nat (assignedTo "X"
               (take 1 (rankStudents [alice; bob; carol] plansX1X2)))
   < quota (mkPlan "X" 2)) ∧
  Z.of_nat (assignedTo "X" (rankStudents [alice; bob; carol] plansX1X2))
  ≤ Z.max 0 (quota (mkPlan "X" 2)).
Proof.
  assert (H1 : lastNamed "X" plansX1X2 = Some (mkPlan "X" 2))
    by (vm_compute; reflexivity).
  assert (H2 : "X"%string ≠ "__proto__"%string) by discriminate.
  assert (H3 : rankStudents [alice; bob; carol] plansX1X2 !! 1%nat
               = Some (withStream (withRank 1 (withTotal bob))
                         (Some "X"%string)))
    by (vm_compute; reflexivity).
  pose proof (shared_name_last_quota [alice; bob; carol] plansX1X2 "X" _
                H1 H2) as (_ & _ & Hgov & _ & Hbound).
  split; [exact H1 | split; [exact H2 | split; [exact H3 | split]]].
  - exact (Hgov 1%nat _ [] ["Y"%string] H3 eq_refl (Forall_nil_2 _)).
  - exact Hbound.
Defined.

(** C10 as stated fails in two ways.  With a negative quota listed last
    ([X] with 5, then [X] with -1) nobody is given [X], and 0 exceeds -1.
    And under the name [__proto__] no quota governs: with quotas 1 and 2
    listed, a student who puts [__proto__] first while nobody holds it is
    passed on to the next preference. *)
Lemma last_quota_fails_as_stated :
  (lastNamed "X" plansXneg = Some (mkPlan "X" (-1)) ∧
   ¬ (Z.of_nat (assignedTo "X" (rankStudents [alice] plansXneg))
      ≤ quota (mkPlan "X" (-1)))) ∧
  (lastNamed "__proto__" plansProtoTwice = Some (mkPlan "__proto__" 2) ∧
   rankStudents [gina] plansProtoTwice !! 0%nat
     = Some (withStream (withRank 0 (withTotal gina)) None) ∧
   head (preferredStreams gina) = Some "__proto__"%string ∧
   ¬ (qualifiedStream (withStream (withRank 0 (withTotal gina)) None)
        = Some "__proto__"%string ↔
      Z.of_nat (assignedTo "__proto__"
                  (take 0 (rankStudents [gina] plansProtoTwice)))
      < quota (mkPlan "__proto__" 2))).
Proof.
  split; [split | split_and!].
  - vm_compute. reflexivity.
  - vm_compute. intros H. apply H. reflexivity.
  - vm_compute. reflexivity.
  - vm_compute. reflexivity.
  - reflexivity.
  - intros [_ H]. discriminate H. vm_compute. reflexivity.
Qed.

(** ** Fairness *)

Lemma rankStudents_position students plans r :
  r ∈ rankStudents students plans →
  ∃ i, rankStudents students plans !! i = Some r ∧ rank r = Z.of_nat i + 1.
Proof.
  intros (i & Hi)%list_elem_of_lookup. exists i. split; [done|].
  by eapply rankStudents_lookup_rank.
Qed.

(** Contention over a name for which [planQuotas] holds the quota 1. *)
Lemma contention_at_quota_one students plans t A B :
  A ∈ rankStudents students plans →
  B ∈ rankStudents students plans →
  rank A < rank B →
  head (preferredStreams (base A)) = Some t →
  initPlanQuotas plans !! t = Some 1 →
  (∀ C, C ∈ rankStudents students plans → rank C < rank A →
        qualifiedStream C ≠ Some t) →
  qualifiedStream A = Some t ∧ qualifiedStream B ≠ Some t.
Proof.
  intros (i & HA & HrA)%rankStudents_position
         (j & HB & HrB)%rankStudents_position Hlt HpA Hq Habove.
  assert (Hij : (i < j)%nat) by lia.
  assert (HUi : usageBefore students plans i !! t = Some 0).
  { rewrite (usageBefore_count _ _ _ _ _ Hq).
    replace (assignedTo t (take i (rankStudents students plans)))
      with 0%nat; [done|].
    symmetry. apply assignedTo_zero, Forall_forall. intros C HC.
    apply list_elem_of_lookup in HC as (k & Hk).
    apply lookup_take_Some in Hk as [Hk Hki].
    apply Habove; [by eapply list_elem_of_lookup_2|].
    rewrite (rankStudents_lookup_rank _ _ _ _ Hk). lia. }
  assert (HAt : qualifiedStream A = Some t).
  { apply rankStudents_lookup in HA as (s & Hs & ->). simpl in *.
    destruct (preferredStreams (base s)) as [|t' prefs]; simplify_eq/=.
    by rewrite Hq, HUi. }
  split; [done|]. intros HBt.
  apply rankStudents_lookup in HB as (s & Hs & ->). simpl in HBt.
  pose proof (choosePlan_spec (initPlanQuotas plans)
                (usageBefore students plans j)
                (preferredStreams (base s))) as Hc.
  destruct (choosePlan _ _ _) as [[t'|] U']; simplify_eq/=.
  destruct Hc as (_ & _ & u & _ & _ & Hsp & _).
  apply hasSpace_true in Hsp as (q & u' & Hq' & Hu' & Hlt').
  rewrite (usageBefore_count _ _ _ _ _ Hq) in Hu'.
  pose proof (assignedTo_pos t _ i j A HA HAt Hij). simplify_eq. lia.
Qed.

(** C2, as amended: the track names are pairwise distinct; two students A
    and B of the output with [rank A < rank B] share the first preference,
    the name of a listed track [p] of capacity 1 that is not named
    [__proto__], and no student ranked above A holds that track: then A
    receives it and B does not.  Contention goes to the lower rank number. *)
Theorem contention_favours_higher_rank students plans p A B :
  NoDup (name <$> plans) →
  p ∈ plans →
  quota p = 1 →
  name p ≠ "__proto__"%string →
  A ∈ rankStudents students plans →
  B ∈ rankStudents students plans →
  rank A < rank B →
  head (preferredStreams (base A)) = Some (name p) →
  head (preferredStreams (base B)) = Some (name p) →
  (∀ C, C ∈ rankStudents students plans → rank C < rank A →
        qualifiedStream C ≠ Some (name p)) →
  qualifiedStream A = Some (name p) ∧ qualifiedStream B ≠ Some (name p).
Proof.
  intros Hnd Hp Hone Hne HA HB Hlt HpA _ Habove.
  apply (contention_at_quota_one students plans (name p) A B); try done.
  by rewrite (initPlanQuotas_unique plans p Hnd Hp Hne), Hone.
Qed.

Lemma contention_favours_higher_rank_witness :
  NoDup (name <$> plansXY) ∧
  mkPlan "X" 1 ∈ plansXY ∧
  withStream (withRank 0 (withTotal alice)) (Some "X"%string)
    ∈ rankStudents [bob; alice] plansXY ∧
  withStream (withRank 1 (withTotal bob)) (Some "Y"%string)
    ∈ rankStudents [bob; alice] plansXY ∧
  qualifiedStream (withStream (withRank 0 (withTotal alice)) (Some "X"%string))
    = Some "X"%string ∧
  qualifiedStream (withStream (withRank 1 (withTotal bob)) (Some "Y"%string))
    ≠ Some "X"%string.
Proof.
  assert (Hnd : NoDup (name <$> plansXY)).
  { apply (bool_decide_unpack _). vm_compute. exact I. }
  assert (Hp : mkPlan "X" 1 ∈ plansXY) by apply list_elem_of_here.
  assert (Hout : rankStudents [bob; alice] plansXY =
                 [withStream (withRank 0 (withTotal alice)) (Some "X"%string);
                  withStream (withRank 1 (withTotal bob)) (Some "Y"%string)])
    by (vm_compute; reflexivity).
  assert (HA : withStream (withRank 0 (withTotal alice)) (Some "X"%string)
                 ∈ rankStudents [bob; alice] plansXY)
    by (rewrite Hout; apply list_elem_of_here).
  assert (HB : withStream (withRank 1 (withTotal bob)) (Some "Y"%string)
                 ∈ rankStudents [bob; alice] plansXY)
    by (rewrite Hout; apply list_elem_of_further, list_elem_of_here).
  split; [exact Hnd | split; [exact Hp | split; [exact HA | split; [exact HB |]]]].
  apply (contention_favours_higher_rank [bob; alice] plansXY (mkPlan "X" 1)
           _ _ Hnd Hp eq_refl).
  - discriminate.
  - exact HA.
  - exact HB.
  - vm_compute. reflexivity.
  - vm_compute. reflexivity.
  - vm_compute. reflexivity.
  - intros C HC Hr. exfalso. rewrite Hout in HC.
    apply elem_of_cons in HC as [->|HC]; [vm_compute in Hr; discriminate|].
    apply elem_of_cons in HC as [->|HC]; [vm_compute in Hr; discriminate|].
    by apply elem_of_nil in HC.
Defined.

(** C2 as stated fails in two ways.  When the track of capacity 1 shares its
    name with a later definition of capacity 2, A and B both receive it.  And
    a track of capacity 1 named [__proto__] is given to neither: A, ranked
    first and with nobody holding it, is passed on to the next preference. *)
Lemma contention_fails_as_stated :
  (rankStudents [alice; bob] plansX1X2 =
     [withStream (withRank 0 (withTotal alice)) (Some "X"%string);
      withStream (withRank 1 (withTotal bob)) (Some "X"%string)] ∧
   mkPlan "X" 1 ∈ plansX1X2 ∧
   head (preferredStreams alice) = Some "X"%string ∧
   head (preferredStreams bob) = Some "X"%string ∧
   ¬ (qualifiedStream
        (withStream (withRank 0 (withTotal alice)) (Some "X"%string))
      = Some "X"%string ∧
      qualifiedStream
        (withStream (withRank 1 (withTotal bob)) (Some "X"%string))
      ≠ Some "X"%string)) ∧
  (rankStudents [gina; hugo] plansProto =
     [withStream (withRank 0 (withTotal gina)) (Some "Y"%string);
      withStream (withRank 1 (withTotal hugo)) (Some "Y"%string)] ∧
   mkPlan "__proto__" 1 ∈ plansProto ∧
   NoDup (name <$> plansProto) ∧
   head (preferredStreams gina) = Some "__proto__"%string ∧
   head (preferredStreams hugo) = Some "__proto__"%string ∧
   ¬ (qualifiedStream
        (withStream (withRank 0 (withTotal gina)) (Some "Y"%string))
      = Some "__proto__"%string ∧
      qualifiedStream
        (withStream (withRank 1 (withTotal hugo)) (Some "Y"%string))
      ≠ Some "__proto__"%string)).
Proof.
  split; split_and!.
  - vm_compute. reflexivity.
  - apply list_elem_of_here.
  - reflexivity.
  - reflexivity.
  - intros [_ H]. by apply H.
  - vm_compute. reflexivity.
  - apply list_elem_of_here.
  - apply (bool_decide_unpack _). vm_compute. exact I.
  - reflexivity.
  - reflexivity.
  - intros [H _]. discriminate H.
Qed.

(** ** Preferences *)

(** The track a student holds is one of the student's preferences, the first
    that has room in the tables at the moment the student is processed. *)
Lemma assigned_first_with_room students plans i r t :
  rankStudents students plans !! i = Some r →
  qualifiedStream r = Some t →
  t ∈ preferredStreams (base r) ∧
  ∃ pre post,
    preferredStreams (base r) = pre ++ t :: post ∧
    hasSpace (initPlanQuotas plans) (usageBefore students plans i) t = true ∧
    Forall (λ n, hasSpace (initPlanQuotas plans)
                   (usageBefore students plans i) n = false) pre.
Proof.
  intros (s & Hs & ->)%rankStudents_lookup Hr. simpl in *.
  pose proof (choosePlan_spec (initPlanQuotas plans)
                (usageBefore students plans i)
                (preferredStreams (base s))) as Hc.
  destruct (choosePlan _ _ _) as [[t'|] U']; simplify_eq/=.
  destruct Hc as (pre & post & u & Hprefs & Hpre & Hsp & _).
  split; [rewrite Hprefs; set_solver|]. by exists pre, post.
Qed.

(** C6, as amended: the track names are pairwise distinct and none is
    [__proto__].  A student of the output whose [qualifiedStream] is set
    holds one of the student's own preferences, namely the first one, in the
    student's stated order, that names a configured track with capacity
    remaining at the moment the student is processed: the track [p] of that
    name has been given to fewer students than its quota, and every track
    named by an earlier preference has been given to as many students as its
    quota, or more ([firstWithCapacity]). *)
Theorem assigned_is_first_available students plans i r t :
  NoDup (name <$> plans) →
  "__proto__"%string ∉ name <$> plans →
  rankStudents students plans !! i = Some r →
  qualifiedStream r = Some t →
  t ∈ preferredStreams (base r) ∧
  firstWithCapacity plans (take i (rankStudents students plans))
    (preferredStreams (base r)) t.
Proof.
  intros Hnd Hproto Hi Hr.
  destruct (assigned_first_with_room _ _ _ _ _ Hi Hr)
    as (Hin & pre & post & Hprefs & Hsp & Hpre).
  split; [done|].
  pose proof Hsp as (q & u & Hq & _ & _)%hasSpace_true.
  pose proof Hq as [_ (p & [Hp Hname]%lastNamed_elem_of & Hquota)]
    %initPlanQuotas_Some.
  exists p, pre, post. split_and!; [done..| |].
  - rewrite (hasSpace_count _ _ _ _ _ Hq) in Hsp.
    apply Z.ltb_lt in Hsp. by rewrite Hquota.
  - eapply Forall_impl; [exact Hpre|]. intros n Hn p' Hp' Hname'. simpl in Hn.
    assert (Hne : name p' ≠ "__proto__"%string).
    { intros Heq. apply Hproto. rewrite <-Heq. by apply list_elem_of_fmap_2. }
    pose proof (initPlanQuotas_unique plans p' Hnd Hp' Hne) as Hq'.
    rewrite Hname' in Hq'. rewrite (hasSpace_count _ _ _ _ _ Hq') in Hn.
    by apply Z.ltb_ge in Hn.
Qed.

Lemma assigned_is_first_available_witness :
  NoDup (name <$> plansXY) ∧
  ("__proto__"%string ∉ name <$> plansXY) ∧
  rankStudents [alice; bob; carol] plansXY !! 1%nat
    = Some (withStream (withRank 1 (withTotal bob)) (Some "Y"%string)) ∧
  firstWithCapacity plansXY (take 1 (rankStudents [alice; bob; carol] plansXY))
    (preferredStreams (base (withRank 1 (withTotal bob)))) "Y".
Proof.
  assert (H0 : NoDup (name <$> plansXY)).
  { apply (bool_decide_unpack _). vm_compute. exact I. }
  assert (H0' : "__proto__"%string ∉ name <$> plansXY).
  { apply (bool_decide_unpack _). vm_compute. exact I. }
  assert (H1 : rankStudents [alice; bob; carol] plansXY !! 1%nat
               = Some (withStream (withRank 1 (withTotal bob))
                         (Some "Y"%string)))
    by (vm_compute; reflexivity).
  split; [exact H0 | split; [exact H0' | split; [exact H1 |]]].
  exact (proj2 (assigned_is_first_available
                  [alice; bob; carol] plansXY 1 _ "Y" H0 H0' H1 eq_refl)).
Defined.

(** C6 as stated fails in two ways.  With [X] listed with capacity 1 and then
    with capacity 0, a student who prefers [X] to [Y] is given [Y], although
    [X] names a listed track of capacity 1 that nobody holds.  And a student
    who prefers [__proto__] to [Y] is given [Y], although [__proto__] names a
    listed track of capacity 1 that nobody holds.  In both cases [Y] is not
    the first preference that names a track with capacity remaining. *)
Lemma first_available_fails_as_stated :
  (rankStudents [alice] plansX1X0Y !! 0%nat
     = Some (withStream (withRank 0 (withTotal alice)) (Some "Y"%string)) ∧
   ¬ firstWithCapacity plansX1X0Y (take 0 (rankStudents [alice] plansX1X0Y))
       (preferredStreams alice) "Y") ∧
  (rankStudents [gina] plansProto !! 0%nat
     = Some (withStream (withRank 0 (withTotal gina)) (Some "Y"%string)) ∧
   NoDup (name <$> plansProto) ∧
   ¬ firstWithCapacity plansProto (take 0 (rankStudents [gina] plansProto))
       (preferredStreams gina) "Y").
Proof.
  split; split_and!.
  - vm_compute. reflexivity.
  - intros (p & pre & post & _ & _ & Hprefs & _ & Hpre).
    destruct pre as [|n [|n' pre]]; simplify_eq/=; [|by destruct pre].
    apply Forall_cons in Hpre as [Hx _].
    specialize (Hx (mkPlan "X" 1) (list_elem_of_here _ _) eq_refl).
    vm_compute in Hx. by apply Hx.
  - vm_compute. reflexivity.
  - apply (bool_decide_unpack _). vm_compute. exact I.
  - intros (p & pre & post & _ & _ & Hprefs & _ & Hpre).
    destruct pre as [|n [|n' pre]]; simplify_eq/=; [|by destruct pre].
    apply Forall_cons in Hpre as [Hx _].
    specialize (Hx (mkPlan "__proto__" 1) (list_elem_of_here _ _) eq_refl).
    vm_compute in Hx. by apply Hx.
Qed.

Lemma choosePlan_skip_unknown planQuotas quotaUsage prefs :
  choosePlan planQuotas quotaUsage
    (filter (λ n, is_Some (planQuotas !! n)) prefs) =
  choosePlan planQuotas quotaUsage prefs.
Proof.
  induction prefs as [|n prefs IH]; [done|]. rewrite filter_cons.
  destruct (decide (is_Some (planQuotas !! n))) as [[q Hq]|Hn].
  - simpl. rewrite Hq, IH. done.
  - simpl. apply eq_None_not_Some in Hn. by rewrite Hn.
Qed.

(** C8: preferences never make the allocation fail.  A preference naming no
    configured track is skipped, leaving every counter as it was (the loop
    behaves as if such names were not in the list, and an unknown name never
    has room); and a student none of whose preferences has room (an empty or
    exhausted list, only full or unknown tracks) is left with no
    [qualifiedStream], whatever room other tracks have, and the counters the
    next student sees are those this student saw. *)
Theorem unusable_preferences_unassigned students plans :
  (∀ quotaUsage prefs,
     choosePlan (initPlanQuotas plans) quotaUsage
       (filter (λ n, is_Some (initPlanQuotas plans !! n)) prefs) =
     choosePlan (initPlanQuotas plans) quotaUsage prefs) ∧
  (∀ quotaUsage n,
     initPlanQuotas plans !! n = None →
     hasSpace (initPlanQuotas plans) quotaUsage n = false) ∧
  (∀ i r,
     rankStudents students plans !! i = Some r →
     Forall (λ n, hasSpace (initPlanQuotas plans)
                    (usageBefore students plans i) n = false)
       (preferredStreams (base r)) →
     qualifiedStream r = None ∧
     usageBefore students plans (S i) = usageBefore students plans i).
Proof.
  split_and!.
  - intros. apply choosePlan_skip_unknown.
  - intros U n Hn. unfold hasSpace. by rewrite Hn.
  - intros i r (s & Hs & ->)%rankStudents_lookup Hall. simpl in *.
    rewrite (usageBefore_S _ _ _ _ Hs).
    by rewrite (choosePlan_none _ _ _ Hall).
Qed.

Lemma unusable_preferences_unassigned_witness :
  rankStudents [alice; dave] plansXY !! 1%nat
    = Some (withStream (withRank 1 (withTotal dave)) None) ∧
  hasSpace (initPlanQuotas plansXY) (usageBefore [alice; dave] plansXY 1)
    "Y" = true ∧
  qualifiedStream (withStream (withRank 1 (withTotal dave)) None) = None.
Proof.
  assert (H1 : rankStudents [alice; dave] plansXY !! 1%nat
               = Some (withStream (withRank 1 (withTotal dave)) None))
    by (vm_compute; reflexivity).
  split; [exact H1 | split; [vm_compute; reflexivity |]].
  refine (proj1 (proj2 (proj2
    (unusable_preferences_unassigned [alice; dave] plansXY)) 1%nat _ H1 _)).
  apply (bool_decide_unpack _). vm_compute. exact I.
Defined.

(** ** Ranks *)

Lemma rankStudents_ranks students plans :
  rank <$> rankStudents students plans =
  Z.of_nat <$> seq 1 (length students).
Proof.
  apply list_eq. intros i. rewrite !list_lookup_fmap.
  destruct (rankStudents students plans !! i) as [r|] eqn:Hr; simpl.
  - rewrite (rankStudents_lookup_rank _ _ _ _ Hr).
    apply lookup_lt_Some in Hr. rewrite rankStudents_length in Hr.
    rewrite lookup_seq_lt by done. simpl. f_equal. lia.
  - apply lookup_ge_None in Hr. rewrite rankStudents_length in Hr.
    by rewrite lookup_seq_ge.
Qed.


(** ** Totals *)

Lemma rankStudents_totalScore students plans :
  Forall (λ r, totalScore r = calculateTotal (base r))
    (rankStudents students plans).
Proof.
  apply Forall_lookup. intros i r (s & Hs & ->)%rankStudents_lookup. simpl.
  pose proof (ranked_totalScore students) as H.
  rewrite Forall_lookup in H. exact (H i s Hs).
Qed.

(** The total of a student that carries all five subjects is their sum. *)
Lemma rankStudents_totalScore_complete students plans r :
  r ∈ rankStudents students plans → complete (base r) →
  totalScore r = Num (specTotal subjectKeys (base r)).
Proof.
  intros Hr Hc. pose proof (rankStudents_totalScore students plans) as H.
  rewrite Forall_forall in H. rewrite (H r Hr).
  by apply calculateTotal_complete.
Qed.

(** C3 at a student whose record lacks a configured subject: with the
    subjects [math], [science], [thai], [english] configured and scored
    10, 20, 30, 40, the sum with missing keys read as 0 is 100, and is still
    100 when [social] is counted as a missing fifth subject; [rankStudents]
    produces [NaN].  And at a student with a sixth configured subject, [art],
    scored 5 beside 10, 20, 30, 40, 50: the sum over the configured subjects
    is 155; [rankStudents] produces 150. *)
Theorem total_of_missing_subject :
  specTotal ["math"; "science"; "thai"; "english"]%string erin = 100 ∧
  specTotal subjectKeys erin = 100 ∧
  totalScore <$> rankStudents [erin] [] = [NaN] ∧
  specTotal ("art"%string :: subjectKeys) frank = 155 ∧
  totalScore <$> rankStudents [frank] [] = [Num 150].
Proof. vm_compute. auto 10. Qed.

(** ** Order of the output *)

Lemma StronglySorted_lookup {A} (R : A → A → Prop) l i j x y :
  StronglySorted R l → (i < j)%nat →
  l !! i = Some x → l !! j = Some y → R x y.
Proof.
  intros Hs. revert i j. induction Hs as [|z l Hs IH Hz]; intros i j Hij Hi Hj.
  - by rewrite lookup_nil in Hi.
  - destruct j as [|j]; [lia|]. destruct i as [|i]; simplify_eq/=.
    + rewrite Forall_forall in Hz. apply Hz. by eapply list_elem_of_lookup_2.
    + apply (IH i j); [lia | done | done].
Qed.

Lemma withTotal_consistent students :
  Forall complete students → Forall consistent (withTotal <$> students).
Proof.
  intros H. apply Forall_fmap. eapply Forall_impl; [exact H|].
  intros s Hs. by split.
Qed.

Lemma sorted_withTotal students :
  Forall complete students →
  StronglySorted mayPrecede (sort compareStudents (withTotal <$> students)).
Proof.
  intros Hc. apply (sort_StronglySorted compareStudents consistent).
  - intros x y Hx Hy Hle Hb.
    apply (compareStudents_spec x y Hx Hy) in Hb. lia.
  - intros x y Hx Hy Hgt Hb.
    assert (Hyx : better (base y) (base x)).
    { apply (compareStudents_spec x y Hx Hy). lia. }
    by apply (better_asym _ _ Hyx).
  - intros x y z _ _ _ Hxy Hyz. unfold mayPrecede in *.
    by apply (not_better_trans (base x) (base y) (base z)).
  - by apply withTotal_consistent.
Qed.

(** In the output, a student never stands before a strictly better one. *)
Lemma rankStudents_sorted students plans i j a b :
  Forall complete students → (i < j)%nat →
  rankStudents students plans !! i = Some a →
  rankStudents students plans !! j = Some b →
  ¬ better (base b) (base a).
Proof.
  intros Hc Hij Ha Hb.
  assert (Hbase : ∀ k r, rankStudents students plans !! k = Some r →
    ∃ r0, sort compareStudents (withTotal <$> students) !! k = Some r0 ∧
          base r0 = base r).
  { intros k r Hr. assert (Hk : (base <$> rankStudents students plans) !! k
                                = Some (base r)).
    { by rewrite list_lookup_fmap, Hr. }
    rewrite rankStudents_base, ranked_base, list_lookup_fmap in Hk.
    destruct (sort compareStudents (withTotal <$> students) !! k) as [r0|];
      simplify_eq/=. eauto. }
  destruct (Hbase i a Ha) as (a0 & Ha0 & <-).
  destruct (Hbase j b Hb) as (b0 & Hb0 & <-).
  exact (StronglySorted_lookup mayPrecede _ i j a0 b0
           (sorted_withTotal students Hc) Hij Ha0 Hb0).
Qed.

(** The order of the output on students that carry the five subjects: the
    comparator of [rankStudents] reads the keys top to bottom (the total,
    then science, math, english, thai, social), the larger value at the
    first difference going first, and is 0 only when every key agrees; this
    is a total order on keys; [totalScore] is the first key; and the output
    is ordered by it: a student standing before another is better or ties
    with it. *)
Theorem output_order students plans :
  Forall complete students →
  (∀ a b, consistent a → consistent b →
     (sortCompare compareStudents a b < 0 ↔ better (base a) (base b)) ∧
     (sortCompare compareStudents a b = 0 ↔ tied (base a) (base b)) ∧
     (0 < sortCompare compareStudents a b ↔ better (base b) (base a))) ∧
  (∀ a b, (better a b ∨ tied a b ∨ better b a) ∧
          (better a b → ¬ tied a b ∧ ¬ better b a)) ∧
  (∀ r, r ∈ rankStudents students plans →
        totalScore r = Num (specTotal subjectKeys (base r)) ∧
        sortKey (base r) =
          [specTotal subjectKeys (base r);
           score "science" (base r); score "math" (base r);
           score "english" (base r); score "thai" (base r);
           score "social" (base r)]) ∧
  (∀ i j a b, (i < j)%nat →
     rankStudents students plans !! i = Some a →
     rankStudents students plans !! j = Some b →
     better (base a) (base b) ∨ tied (base a) (base b)).
Proof.
  intros Hc. split_and!.
  - intros a b. apply compareStudents_spec.
  - intros a b. split; [apply better_total|].
    intros H. split; [by apply better_not_tied | by apply better_asym].
  - intros r Hr. split; [|done].
    apply (rankStudents_totalScore_complete students plans r Hr).
    assert (Hb : base r ∈ base <$> rankStudents students plans)
      by (by apply list_elem_of_fmap_2).
    rewrite rankStudents_base, ranked_base in Hb.
    apply list_elem_of_fmap in Hb as (r0 & -> & Hr0).
    rewrite sort_perm in Hr0.
    apply list_elem_of_fmap in Hr0 as (s & -> & Hs).
    rewrite Forall_forall in Hc. by apply Hc.
  - intros i j a b Hij Ha Hb.
    pose proof (rankStudents_sorted students plans i j a b Hc Hij Ha Hb).
    destruct (better_total (base a) (base b)) as [?|[?|?]]; auto. done.
Qed.

Lemma output_order_witness :
  Forall complete [carol; alice; bob] ∧
  (better (base (withStream (withRank 0 (withTotal alice)) (Some "X"%string)))
          (base (withStream (withRank 1 (withTotal carol)) None)) ∨
   tied (base (withStream (withRank 0 (withTotal alice)) (Some "X"%string)))
        (base (withStream (withRank 1 (withTotal carol)) None))).
Proof.
  assert (Hc : Forall complete [carol; alice; bob]).
  { apply (bool_decide_unpack _). vm_compute. exact I. }
  split; [exact Hc|].
  refine (proj2 (proj2 (proj2 (output_order [carol; alice; bob] plansXY Hc)))
            0%nat 1%nat _ _ _ _ _).
  - lia.
  - vm_compute. reflexivity.
  - vm_compute. reflexivity.
Defined.

(** Whatever a record without a total is compared with, the comparator
    yields [NaN]. *)
Lemma compareStudents_NaN a b :
  totalScore a = NaN ∨ totalScore b = NaN → compareStudents a b = NaN.
Proof.
  unfold compareStudents.
  destruct (totalScore a), (totalScore b); simpl; by intros [?|?].
Qed.

(** C4 at a cohort with a record that lacks a subject.  The record of [erin]
    has no [social] score, so its total is [NaN] (the defect of C3) and
    every comparison with it yields [NaN], which the sort reads as 0.  The
    comparator is then no order at all: [dave] equals [erin] and [erin]
    equals [alice], yet [alice] goes before [dave].  Standing between the
    two in the input, [erin] keeps them where they are: [dave], total 50, is
    ranked first and [alice], total 350, third.  In the input [erin; alice]
    the one comparison made yields [NaN], and [erin] is ranked above [alice],
    whose total is larger also when the missing score is read as 0. *)
Theorem order_breaks_on_missing_subject :
  sortCompare compareStudents (withTotal dave) (withTotal erin) = 0 ∧
  sortCompare compareStudents (withTotal erin) (withTotal alice) = 0 ∧
  0 < sortCompare compareStudents (withTotal dave) (withTotal alice) ∧
  better alice dave ∧ better alice erin ∧
  (λ r, (id (base r), totalScore r, rank r)) <$>
    rankStudents [dave; erin; alice] []
  = [("S4"%string, Num 50, 1); ("S5"%string, NaN, 2);
     ("S1"%string, Num 350, 3)] ∧
  (λ r, (id (base r), totalScore r, rank r)) <$> rankStudents [erin; alice] []
  = [("S5"%string, NaN, 1); ("S1"%string, Num 350, 2)].
Proof.
  split_and!; try (vm_compute; reflexivity).
  - apply (bool_decide_unpack _). vm_compute. exact I.
  - apply (bool_decide_unpack _). vm_compute. exact I.
Qed.

(** ** Ties *)

(** A sorted list splits into the students better than [s], those tied with
    [s], and those [s] is better than, in this order. *)
Lemma sorted_blocks s l :
  StronglySorted mayPrecede l →
  l = filter (λ r, better (base r) s) l ++
      filter (λ r, tied (base r) s) l ++
      filter (λ r, better s (base r)) l.
Proof.
  induction 1 as [|x l Hs IH Hx]; [done|].
  rewrite !filter_cons.
  destruct (better_total (base x) s) as [Hb|[Ht|Hb]].
  - rewrite decide_True by done.
    rewrite decide_False by (by apply better_not_tied).
    rewrite decide_False by (by apply better_asym).
    simpl. by rewrite <-IH.
  - assert (Hnil : filter (λ r, better (base r) s) l = []).
    { apply length_zero_iff_nil. destruct (filter _ l) as [|y k] eqn:Hf; [done|].
      assert (Hy : y ∈ filter (λ r, better (base r) s) l)
        by (rewrite Hf; apply list_elem_of_here).
      apply list_elem_of_filter in Hy as [Hys Hyl].
      rewrite Forall_forall in Hx. exfalso. apply (Hx y Hyl).
      unfold better, tied in *. by rewrite Ht. }
    rewrite decide_False
      by (intros Hb; by apply (better_not_tied _ _ Hb)).
    rewrite decide_True by done.
    rewrite decide_False
      by (intros Hb; apply (better_not_tied _ _ Hb); by symmetry).
    rewrite Hnil in IH |- *. simpl in *. by rewrite <-IH.
  - assert (Hall : Forall (λ r, better s (base r)) l).
    { rewrite Forall_forall in Hx |- *. intros y Hy.
      destruct (better_total s (base y)) as [?|[Ht|Hys]]; [done| |].
      - exfalso. apply (Hx y Hy). unfold better, tied in *. by rewrite <-Ht.
      - exfalso. apply (Hx y Hy). by apply (lexGt_trans _ (sortKey s)). }
    assert (Hnil1 : filter (λ r, better (base r) s) l = []).
    { clear IH Hs Hx. induction Hall as [|y k Hy _ IHk]; [done|].
      rewrite filter_cons_False; [done | by apply better_asym]. }
    assert (Hnil2 : filter (λ r, tied (base r) s) l = []).
    { clear IH Hs Hx Hnil1. induction Hall as [|y k Hy _ IHk]; [done|].
      rewrite filter_cons_False; [done|].
      intros Ht. apply (better_not_tied _ _ Hy). by symmetry. }
    rewrite decide_False by (by apply better_asym).
    rewrite decide_False
      by (intros Ht; apply (better_not_tied _ _ Hb); by symmetry).
    rewrite decide_True by done.
    rewrite Hnil1, Hnil2 in IH |- *. simpl in *. by rewrite <-IH.
Qed.

Lemma filter_withTotal (P : Student → Prop) {Pdec : ∀ x, Decision (P x)}
    (students : list Student) :
  base <$> filter (λ r, P (base r)) (withTotal <$> students) =
  filter P students.
Proof.
  induction students as [|x l IH]; [done|].
  rewrite fmap_cons, !filter_cons. simpl.
  destruct (decide (P x)); [by rewrite fmap_cons, IH | done].
Qed.

Lemma Forall_filter_fmap (P : Student → Prop) {Pdec : ∀ x, Decision (P x)}
    (l : list RankedStudent) :
  Forall P (base <$> filter (λ r, P (base r)) l).
Proof.
  apply Forall_fmap, Forall_forall. by intros r [? _]%list_elem_of_filter.
Qed.

(** Ties among students that carry the five subjects: those tied with a
    given student [s] on the total and on every tie-break subject form one
    uninterrupted run of the output, in their original input order, after
    every student better than [s] and before every student [s] is better
    than; ranks being positions, the run holds distinct consecutive ranks.
    [rankStudents] is a function: the same input gives the same ranks. *)
Theorem ties_keep_input_order students plans s :
  Forall complete students →
  ∃ above below,
    base <$> rankStudents students plans =
      above ++ filter (λ x, tied x s) students ++ below ∧
    Forall (λ x, better x s) above ∧
    Forall (λ x, better s x) below ∧
    rank <$> rankStudents students plans =
      Z.of_nat <$> seq 1 (length students).
Proof.
  intros Hc.
  pose proof (sorted_blocks s _ (sorted_withTotal students Hc)) as Hblocks.
  set (L := sort compareStudents (withTotal <$> students)) in *.
  exists (base <$> filter (λ r, better (base r) s) L),
         (base <$> filter (λ r, better s (base r)) L).
  split_and!.
  - rewrite rankStudents_base, ranked_base. fold L.
    rewrite Hblocks at 1. rewrite !fmap_app. do 2 f_equal.
    unfold L. rewrite (sort_filter compareStudents consistent).
    + apply (filter_withTotal (λ x, tied x s) (Pdec := λ x, tied_dec x s)).
    + intros x y Hx Hy Htx Hty.
      assert (H0 : sortCompare compareStudents x y = 0); [|lia].
      apply (compareStudents_spec x y Hx Hy).
      unfold tied in *. congruence.
    + by apply withTotal_consistent.
  - apply (Forall_filter_fmap (λ x, better x s) (Pdec := λ x, better_dec x s)).
  - apply (Forall_filter_fmap (λ x, better s x) (Pdec := λ x, better_dec s x)).
  - apply rankStudents_ranks.
Qed.

Lemma ties_keep_input_order_witness :
  Forall complete [carol; alice; dave; bob] ∧
  ∃ above below,
    base <$> rankStudents [carol; alice; dave; bob] plansXY =
      above ++ filter (λ x, tied x bob) [carol; alice; dave; bob] ++ below ∧
    Forall (λ x, better x bob) above ∧
    Forall (λ x, better bob x) below ∧
    rank <$> rankStudents [carol; alice; dave; bob] plansXY =
      Z.of_nat <$> seq 1 (length [carol; alice; dave; bob]).
Proof.
  assert (Hc : Forall complete [carol; alice; dave; bob]).
  { apply (bool_decide_unpack _). vm_compute. exact I. }
  split; [exact Hc|].
  exact (ties_keep_input_order [carol; alice; dave; bob] plansXY bob Hc).
Defined.

Example ties_example :
  base <$> rankStudents [carol; alice; dave; bob] plansXY =
    [alice] ++ [carol; bob] ++ [dave] ∧
  filter (λ x, tied x bob) [carol; alice; dave; bob] = [carol; bob].
Proof. vm_compute. auto. Qed.

(** C7 at a cohort with a record that lacks a subject.  [bob] and [carol]
    have the same score on every subject.  The record of [erin] has no
    [social] score, its total is [NaN] (the defect of C3), and every
    comparison with it yields [NaN]; so every comparison made on the input
    [bob; erin; carol] comes out as 0, and the stable sort leaves the three
    where they are.  The tied [bob] and [carol] keep their input order, but
    their ranks, 1 and 3, are not consecutive: [erin] stands between them,
    whom both beat when the missing score is read as 0. *)
Theorem ties_split_by_missing_subject :
  tied bob carol ∧
  better bob erin ∧ better carol erin ∧
  Forall (λ x, Forall (λ y, sortCompare compareStudents x y = 0)
                 (withTotal <$> [bob; erin; carol]))
    (withTotal <$> [bob; erin; carol]) ∧
  (λ r, (id (base r), totalScore r, rank r)) <$>
    rankStudents [bob; erin; carol] []
  = [("S2"%string, Num 340, 1); ("S5"%string, NaN, 2);
     ("S3"%string, Num 340, 3)].
Proof.
  split_and!; try (vm_compute; reflexivity).
  - apply (bool_decide_unpack _). vm_compute. exact I.
  - apply (bool_decide_unpack _). vm_compute. exact I.
  - apply (bool_decide_unpack _). vm_compute. exact I.
Qed.

(** ** The program over the store *)

Lemma run_bind {A B} (m : Store.M A) (f : A → Store.M B) h :
  (m ≫= f) h = match m h with
               | Some (a, h') => f a h'
               | None => None
               end.
Proof. reflexivity. Qed.

Lemma run_ret {A} (a : A) h : (mret a : Store.M A) h = Some (a, h).
Proof. reflexivity. Qed.

Lemma run_read h l c : h !! l = Some c → Store.read l h = Some (c, h).
Proof. unfold Store.read. by intros ->. Qed.

Lemma run_readArray h l e :
  h !! l = Some (Store.ArrayObj e) → Store.readArray l h = Some (e, h).
Proof. intros H. unfold Store.readArray. by rewrite run_bind, (run_read _ _ _ H). Qed.

Lemma run_readStudent h l s :
  h !! l = Some (Store.StudentObj s) → Store.readStudent l h = Some (s, h).
Proof. intros H. unfold Store.readStudent. by rewrite run_bind, (run_read _ _ _ H). Qed.

Lemma run_readRanked h l r :
  h !! l = Some (Store.RankedObj r) → Store.readRanked l h = Some (r, h).
Proof. intros H. unfold Store.readRanked. by rewrite run_bind, (run_read _ _ _ H). Qed.

Lemma run_readPlan h l p :
  h !! l = Some (Store.PlanObj p) → Store.readPlan l h = Some (p, h).
Proof. intros H. unfold Store.readPlan. by rewrite run_bind, (run_read _ _ _ H). Qed.

Lemma run_readRecord h l m :
  h !! l = Some (Store.RecordObj m) → Store.readRecord l h = Some (m, h).
Proof. intros H. unfold Store.readRecord. by rewrite run_bind, (run_read _ _ _ H). Qed.

(** Writing the last-but-[k] cell: cells before it are not touched. *)
Lemma run_write h c c' k :
  Store.write (length h) c' (h ++ c :: k) = Some ((), h ++ c' :: k).
Proof.
  unfold Store.write. rewrite decide_True by (rewrite length_app; simpl; lia).
  f_equal. f_equal. replace (length h) with (length h + 0)%nat at 1 by lia.
  by rewrite insert_app_r.
Qed.

Lemma run_setKey h m key v k :
  Store.setKey (length h) key v (h ++ Store.RecordObj m :: k) =
  Some ((), h ++ Store.RecordObj (assignKey m key v) :: k).
Proof.
  unfold Store.setKey. rewrite run_bind.
  rewrite (run_readRecord _ _ m) by apply list_lookup_middle, eq_refl.
  apply run_write.
Qed.

Lemma run_increment h m key u k :
  Store.increment (length h) key u (h ++ Store.RecordObj m :: k) =
  Some ((), h ++ Store.RecordObj (<[key := u + 1]> m) :: k).
Proof.
  unfold Store.increment. rewrite run_bind.
  rewrite (run_readRecord _ _ m) by apply list_lookup_middle, eq_refl.
  apply run_write.
Qed.

(** A [map] whose callback reads its element and allocates one object: the
    store grows by the new objects, nothing else changes. *)
Lemma run_mapFrom_new {A} (rd : Store.loc → Store.M A)
    (g : nat → A → Store.cell) h ls xs :
  Forall2 (λ l x, ∀ k, rd l (h ++ k) = Some (x, h ++ k)) ls xs →
  ∀ index k,
    Store.mapFrom (λ index l, x ← rd l; Store.new (g index x)) index ls (h ++ k)
    = Some (seq (length (h ++ k)) (length ls),
            h ++ k ++ imap (λ i, g (index + i)%nat) xs).
Proof.
  induction 1 as [|l x ls xs Hl _ IH]; intros index k.
  - simpl. by rewrite app_nil_r.
  - cbn [Store.mapFrom]. rewrite !run_bind, Hl. unfold Store.new at 1.
    rewrite <-(assoc_L (++)), run_bind, IH, run_ret.
    cbn [length seq imap]. do 2 f_equal.
    + do 2 f_equal. rewrite !length_app. simpl. lia.
    + f_equal. rewrite <-(assoc_L (++)). f_equal. simpl.
      replace (index + 0)%nat with index by lia. f_equal.
      apply imap_ext. intros i y _. simpl. f_equal. lia.
Qed.

Lemma holds_app {A} (inj : A → Store.cell) h k ls xs :
  Store.holds inj h ls xs → Store.holds inj (h ++ k) ls xs.
Proof.
  unfold Store.holds. intros H. eapply Forall2_impl; [exact H|].
  intros l x. apply lookup_app_l_Some.
Qed.

(** Freshly allocated objects sit at the end of the store. *)
Lemma holds_fresh {A} (inj : A → Store.cell) h xs :
  Store.holds inj (h ++ (inj <$> xs)) (seq (length h) (length xs)) xs.
Proof.
  unfold Store.holds. apply Forall2_same_length_lookup_2.
  - by rewrite length_seq.
  - intros i l x Hl Hx. apply lookup_seq in Hl as [-> Hi].
    rewrite lookup_app_r by lia.
    replace (length h + i - length h)%nat with i by lia.
    by rewrite list_lookup_fmap, Hx.
Qed.

Lemma run_mapFrom_pairs h ls rs :
  Store.holds Store.RankedObj h ls rs →
  ∀ index,
    Store.mapFrom (λ _ l, r ← Store.readRanked l; mret (l, r)) index ls h
    = Some (zip ls rs, h).
Proof.
  induction 1 as [|l r ls rs Hl _ IH]; intros index; [done|].
  cbn [Store.mapFrom]. rewrite !run_bind, (run_readRanked _ _ _ Hl), run_ret.
  by rewrite run_bind, IH, run_ret.
Qed.

Lemma Forall2_of_pairs {A B} (P : A → B → Prop) (l : list (A * B)) :
  Forall (λ p, P p.1 p.2) l → Forall2 P l.*1 l.*2.
Proof. induction 1; constructor; auto. Qed.

Lemma Forall_zip_of_Forall2 {A B} (P : A → B → Prop) l k :
  Forall2 P l k → Forall (λ p, P p.1 p.2) (zip l k).
Proof. induction 1; constructor; auto. Qed.

(** [sort] reorders the array cell in place; the array then lists the same
    objects in the order of the sorted values. *)
Lemma run_sortArray h objs rs k :
  Store.holds Store.RankedObj h objs rs →
  ∃ sortedObjs,
    Store.sortArray (length h) (h ++ Store.ArrayObj objs :: k)
    = Some ((), h ++ Store.ArrayObj sortedObjs :: k) ∧
    Store.holds Store.RankedObj h sortedObjs (sort compareStudents rs).
Proof.
  intros Hobjs.
  exists (sort (λ a b, compareStudents a.2 b.2) (zip objs rs)).*1. split.
  - unfold Store.sortArray. rewrite run_bind.
    rewrite (run_readArray _ _ objs) by apply list_lookup_middle, eq_refl.
    rewrite run_bind. unfold Store.map.
    rewrite (run_mapFrom_pairs _ _ rs) by (by apply holds_app).
    apply run_write.
  - pose proof (Forall_zip_of_Forall2 _ _ _ Hobjs) as Hz.
    rewrite <-(sort_perm (λ a b, compareStudents a.2 b.2)) in Hz.
    apply (Forall2_of_pairs (λ l r, h !! l = Some (Store.RankedObj r))) in Hz.
    rewrite (sort_fmap compareStudents snd) in Hz.
    rewrite snd_zip in Hz; [done|].
    by rewrite (Forall2_length _ _ _ Hobjs).
Qed.

(** The two [plans.forEach] loops fill a record cell key by key. *)
Lemma run_forEach_setKey (val : StudyPlan → Z) h lp ps :
  Store.holds Store.PlanObj h lp ps →
  ∀ m,
    Store.forEach (λ l, p ← Store.readPlan l;
                        Store.setKey (length h) (name p) (val p)) lp
      (h ++ [Store.RecordObj m])
    = Some ((), h ++ [Store.RecordObj
                        (foldl (λ m p, assignKey m (name p) (val p)) m ps)]).
Proof.
  induction 1 as [|l p lp ps Hl _ IH]; intros m; [done|].
  cbn [Store.forEach foldl]. rewrite !run_bind.
  rewrite (run_readPlan _ _ p) by (by apply lookup_app_l_Some).
  by rewrite run_setKey, IH.
Qed.

(** The preference loop over the store computes [choosePlan] and leaves the
    result in the [quotaUsage] cell; no other cell changes. *)
Lemma run_choosePlan h quotaUsage planQuotas k prefs :
  Store.choosePlan (S (length h)) (length h) prefs
    (h ++ Store.RecordObj quotaUsage :: Store.RecordObj planQuotas :: k)
  = Some ((choosePlan planQuotas quotaUsage prefs).1,
          h ++ Store.RecordObj (choosePlan planQuotas quotaUsage prefs).2
            :: Store.RecordObj planQuotas :: k).
Proof.
  assert (Hpq : ∀ U, (h ++ Store.RecordObj U :: Store.RecordObj planQuotas :: k)
                       !! S (length h) = Some (Store.RecordObj planQuotas)).
  { intros U. rewrite lookup_app_r by lia.
    by replace (S (length h) - length h)%nat with 1%nat by lia. }
  assert (Hqu : ∀ U, (h ++ Store.RecordObj U :: Store.RecordObj planQuotas :: k)
                       !! length h = Some (Store.RecordObj U)).
  { intros U. by apply list_lookup_middle. }
  induction prefs as [|n prefs IH]; [done|].
  cbn [Store.choosePlan choosePlan].
  rewrite run_bind, (run_readRecord _ _ _ (Hpq _)).
  destruct (planQuotas !! n) as [q|]; [|exact IH].
  rewrite run_bind, (run_readRecord _ _ _ (Hqu _)).
  destruct (quotaUsage !! n) as [u|]; [|exact IH].
  destruct (u <? q); [|exact IH].
  by rewrite run_bind, run_increment, run_ret.
Qed.

(** The final [map]: each student is read, allocated against the counters
    in the store, and written to a fresh object. *)
Lemma run_map_allocate h planQuotas ls rs :
  Store.holds Store.RankedObj h ls rs →
  ∀ index quotaUsage k,
    Store.mapFrom (λ _ l,
        student ← Store.readRanked l;
        assignedPlan ← Store.choosePlan (S (length h)) (length h)
                          (preferredStreams (base student));
        Store.new (Store.RankedObj (withStream student assignedPlan)))
      index ls
      (h ++ Store.RecordObj quotaUsage :: Store.RecordObj planQuotas :: k)
    = Some (seq (S (S (length h + length k))) (length ls),
            h ++ Store.RecordObj (allocate planQuotas quotaUsage rs).2
              :: Store.RecordObj planQuotas
              :: k ++ (Store.RankedObj <$> (allocate planQuotas quotaUsage rs).1)).
Proof.
  induction 1 as [|l r ls rs Hl _ IH]; intros index U k.
  - cbn [Store.mapFrom allocate fst snd fmap list_fmap length seq].
    by rewrite app_nil_r.
  - cbn [Store.mapFrom]. rewrite !run_bind.
    rewrite (run_readRanked _ _ r) by (by apply lookup_app_l_Some).
    rewrite run_bind, run_choosePlan. unfold Store.new at 1.
    rewrite run_bind.
    replace ((h ++ Store.RecordObj (choosePlan planQuotas U (preferredStreams (base r))).2
                :: Store.RecordObj planQuotas :: k) ++
             [Store.RankedObj (withStream r (choosePlan planQuotas U (preferredStreams (base r))).1)])
      with (h ++ Store.RecordObj (choosePlan planQuotas U (preferredStreams (base r))).2
              :: Store.RecordObj planQuotas
              :: (k ++ [Store.RankedObj (withStream r (choosePlan planQuotas U (preferredStreams (base r))).1)]))
      by (by rewrite <-(assoc_L (++))).
    rewrite IH, run_ret, allocate_cons. cbn [fst snd length seq].
    do 2 f_equal.
    + f_equal; [rewrite !length_app; simpl; lia|].
      f_equal. rewrite !length_app. simpl. lia.
    + do 3 f_equal. rewrite fmap_cons. by rewrite <-(assoc_L (++)).
Qed.

Lemma run_map_withTotal h ls ss :
  Store.holds Store.StudentObj h ls ss →
  Store.map (λ l, s ← Store.readStudent l;
                  Store.new (Store.RankedObj (withTotal s))) ls h
  = Some (seq (length h) (length ss),
          h ++ (Store.RankedObj <$> (withTotal <$> ss))).
Proof.
  intros Hls. unfold Store.map.
  pose proof (run_mapFrom_new Store.readStudent
                (λ _ s, Store.RankedObj (withTotal s)) h ls ss) as H.
  rewrite <-(app_nil_r h) at 1. rewrite H.
  - rewrite !app_nil_r, (Forall2_length _ _ _ Hls). do 3 f_equal.
    rewrite app_nil_l. apply list_eq. intros i.
    rewrite list_lookup_imap, !list_lookup_fmap. by destruct (ss !! i).
  - eapply Forall2_impl; [exact Hls|]. intros l s Hl k.
    by apply run_readStudent, lookup_app_l_Some.
Qed.

Lemma run_map_withRank h ls rs :
  Store.holds Store.RankedObj h ls rs →
  Store.mapFrom (λ index l, s ← Store.readRanked l;
                            Store.new (Store.RankedObj (withRank index s)))
    0%nat ls h
  = Some (seq (length h) (length rs),
          h ++ (Store.RankedObj <$> imap withRank rs)).
Proof.
  intros Hls.
  pose proof (run_mapFrom_new Store.readRanked
                (λ index s, Store.RankedObj (withRank index s)) h ls rs) as H.
  rewrite <-(app_nil_r h) at 1. rewrite H.
  - rewrite !app_nil_r, (Forall2_length _ _ _ Hls). do 3 f_equal.
    rewrite app_nil_l. apply list_eq. intros i.
    rewrite list_lookup_fmap, !list_lookup_imap. by destruct (rs !! i).
  - eapply Forall2_impl; [exact Hls|]. intros l s Hl k.
    by apply run_readRanked, lookup_app_l_Some.
Qed.

Lemma run_new h c : Store.new c h = Some (length h, h ++ [c]).
Proof. reflexivity. Qed.

(** The run over the store: it succeeds on well-formed input, every cell of
    the initial store is kept, and the array returned lists fresh objects
    holding the students computed by [rankStudents]. *)
Lemma run_rankStudents h students plans ls ss lp ps :
  h !! students = Some (Store.ArrayObj ls) →
  Store.holds Store.StudentObj h ls ss →
  h !! plans = Some (Store.ArrayObj lp) →
  Store.holds Store.PlanObj h lp ps →
  ∃ res outs extra,
    Store.rankStudents students plans h = Some (res, h ++ extra) ∧
    (h ++ extra) !! res = Some (Store.ArrayObj outs) ∧
    (length h ≤ res)%nat ∧
    Forall (λ l, (length h ≤ l)%nat) outs ∧
    Store.holds Store.RankedObj (h ++ extra) outs (rankStudents ss ps).
Proof.
  intros Hstudents Hls Hplans Hlp. unfold Store.rankStudents.
  rewrite run_bind, (run_readArray _ _ _ Hstudents).
  rewrite run_bind, (run_map_withTotal _ _ _ Hls).
  rewrite run_bind, run_new.
  set (h1 := h ++ (Store.RankedObj <$> (withTotal <$> ss))).
  assert (H1 : Store.holds Store.RankedObj h1
                 (seq (length h) (length ss)) (withTotal <$> ss)).
  { rewrite <-(length_fmap withTotal ss). apply holds_fresh. }
  destruct (run_sortArray h1 _ _ [] H1) as (sorted1 & Hsort & Hsorted).
  rewrite run_bind, Hsort.
  set (h2 := h1 ++ [Store.ArrayObj sorted1]).
  rewrite run_bind, (run_readArray h2 _ sorted1)
    by apply list_lookup_middle, eq_refl.
  rewrite run_bind,
    (run_map_withRank h2 sorted1 (sort compareStudents (withTotal <$> ss)))
    by (by apply holds_app).
  fold (ranked ss).
  rewrite sort_length, length_fmap.
  set (h3 := h2 ++ (Store.RankedObj <$> ranked ss)).
  assert (H3 : Store.holds Store.RankedObj h3
                 (seq (length h2) (length ss)) (ranked ss)).
  { rewrite <-(ranked_length ss). apply holds_fresh. }
  rewrite run_bind, run_new.
  set (h4 := h3 ++ [Store.ArrayObj (seq (length h2) (length ss))]).
  rewrite run_bind, run_new.
  assert (Hh4 : ∀ l c, h !! l = Some c → h4 !! l = Some c).
  { intros l c Hl. unfold h4, h3, h2, h1. by do 4 apply lookup_app_l_Some. }
  rewrite run_bind, (run_readArray _ _ lp)
    by (by apply lookup_app_l_Some, Hh4).
  assert (Hlp4 : Store.holds Store.PlanObj h4 lp ps).
  { eapply Forall2_impl; [exact Hlp|]. intros l p. apply Hh4. }
  rewrite run_bind, (run_forEach_setKey (λ _, 0) h4 lp ps Hlp4).
  fold (initQuotaUsage ps).
  rewrite run_bind, run_new.
  rewrite run_bind,
    (run_forEach_setKey quota (h4 ++ [Store.RecordObj (initQuotaUsage ps)])
       lp ps) by (by apply holds_app).
  fold (initPlanQuotas ps).
  rewrite run_bind, (run_readArray _ _ (seq (length h2) (length ss))).
  2:{ do 2 apply lookup_app_l_Some. by apply list_lookup_middle. }
  assert (Hlen : length (h4 ++ [Store.RecordObj (initQuotaUsage ps)])
                 = S (length h4)) by (rewrite length_app; simpl; lia).
  rewrite Hlen, <-(assoc_L (++)). cbn [app].
  rewrite run_bind. unfold Store.map.
  rewrite (run_map_allocate h4 (initPlanQuotas ps) _ (ranked ss))
    by (by apply holds_app).
  rewrite run_new. fold (rankStudents ss ps).
  rewrite length_seq, app_nil_l. cbn [length]. rewrite Nat.add_0_r.
  set (U := (allocate (initPlanQuotas ps) (initQuotaUsage ps) (ranked ss)).2).
  set (outObjs := Store.RankedObj <$> rankStudents ss ps).
  set (tailCells := Store.RecordObj U :: Store.RecordObj (initPlanQuotas ps)
                      :: outObjs).
  eexists _, (seq (S (S (length h4))) (length ss)),
    ((Store.RankedObj <$> (withTotal <$> ss)) ++ [Store.ArrayObj sorted1] ++
     (Store.RankedObj <$> ranked ss) ++
     [Store.ArrayObj (seq (length h2) (length ss))] ++ tailCells ++
     [Store.ArrayObj (seq (S (S (length h4))) (length ss))]).
  assert (Heq : (h4 ++ tailCells) ++
                  [Store.ArrayObj (seq (S (S (length h4))) (length ss))]
                = h ++ ((Store.RankedObj <$> (withTotal <$> ss)) ++
                        [Store.ArrayObj sorted1] ++
                        (Store.RankedObj <$> ranked ss) ++
                        [Store.ArrayObj (seq (length h2) (length ss))] ++
                        tailCells ++
                        [Store.ArrayObj (seq (S (S (length h4))) (length ss))])).
  { unfold h4, h3, h2, h1. by rewrite <-!(assoc_L (++)). }
  rewrite <-Heq. split_and!.
  - done.
  - by apply list_lookup_middle.
  - unfold h4, h3, h2, h1. rewrite !length_app. lia.
  - apply Forall_forall. intros l [Hl _]%elem_of_seq. revert Hl.
    unfold h4, h3, h2, h1. rewrite !length_app. lia.
  - apply holds_app. unfold tailCells.
    rewrite <-(rankStudents_length ss ps).
    replace (h4 ++ Store.RecordObj U :: Store.RecordObj (initPlanQuotas ps)
               :: outObjs)
      with ((h4 ++ [Store.RecordObj U; Store.RecordObj (initPlanQuotas ps)])
              ++ outObjs) by (by rewrite <-(assoc_L (++))).
    replace (S (S (length h4)))
      with (length (h4 ++ [Store.RecordObj U;
                           Store.RecordObj (initPlanQuotas ps)]))
      by (rewrite length_app; simpl; lia).
    apply holds_fresh.
Qed.

(** ** Frame *)

(** The allocation pass changes nothing but [qualifiedStream]. *)
Lemma allocate_only_stream planQuotas quotaUsage l :
  Forall2 (λ r0 r, r = withStream r0 (qualifiedStream r))
    l (allocate planQuotas quotaUsage l).1.
Proof.
  revert quotaUsage. induction l as [|s l IH]; intros U; [constructor|].
  rewrite allocate_cons. cbn [fst]. constructor; [done | apply IH].
Qed.

(** C9: run on a store in which [students] is an array of student objects
    and [plans] an array of plan objects, [rankStudents] succeeds; the store
    afterwards is the initial store followed by new cells, so the students
    array, its elements and the plans are as before; the result is a new
    array of new objects, holding the students [rankStudents] computes; and
    these are the ranked students with nothing but [qualifiedStream]
    changed: the student's own fields, [totalScore] and [rank] carry over. *)
Theorem input_untouched h students plans ls ss lp ps :
  h !! students = Some (Store.ArrayObj ls) →
  Store.holds Store.StudentObj h ls ss →
  h !! plans = Some (Store.ArrayObj lp) →
  Store.holds Store.PlanObj h lp ps →
  ∃ res outs extra,
    Store.rankStudents students plans h = Some (res, h ++ extra) ∧
    (h ++ extra) !! students = Some (Store.ArrayObj ls) ∧
    Store.holds Store.StudentObj (h ++ extra) ls ss ∧
    (h ++ extra) !! plans = Some (Store.ArrayObj lp) ∧
    Store.holds Store.PlanObj (h ++ extra) lp ps ∧
    (length h ≤ res)%nat ∧
    Forall (λ l, (length h ≤ l)%nat) outs ∧
    (h ++ extra) !! res = Some (Store.ArrayObj outs) ∧
    Store.holds Store.RankedObj (h ++ extra) outs (rankStudents ss ps) ∧
    Forall2 (λ r0 r, base r = base r0 ∧ totalScore r = totalScore r0 ∧
                     rank r = rank r0 ∧
                     r = withStream r0 (qualifiedStream r))
      (ranked ss) (rankStudents ss ps).
Proof.
  intros Hstudents Hls Hplans Hlp.
  destruct (run_rankStudents h students plans ls ss lp ps
              Hstudents Hls Hplans Hlp)
    as (res & outs & extra & Hrun & Hres & Hfresh & Houts & Hout).
  exists res, outs, extra. split_and!; try done.
  - by apply lookup_app_l_Some.
  - by apply holds_app.
  - by apply lookup_app_l_Some.
  - by apply holds_app.
  - unfold rankStudents.
    eapply Forall2_impl; [apply allocate_only_stream|].
    intros r0 r Hr. split_and!; [by rewrite Hr..|done].
Qed.

Lemma input_untouched_witness :
  sampleStore !! 2%nat = Some (Store.ArrayObj [0; 1]%nat) ∧
  Store.holds Store.StudentObj sampleStore [0; 1]%nat [bob; alice] ∧
  sampleStore !! 4%nat = Some (Store.ArrayObj [3%nat]) ∧
  Store.holds Store.PlanObj sampleStore [3%nat] [mkPlan "X" 1] ∧
  ∃ res outs extra,
    Store.rankStudents 2%nat 4%nat sampleStore
      = Some (res, sampleStore ++ extra) ∧
    (sampleStore ++ extra) !! res = Some (Store.ArrayObj outs) ∧
    Store.holds Store.RankedObj (sampleStore ++ extra) outs
      (rankStudents [bob; alice] [mkPlan "X" 1]).
Proof.
  assert (H1 : sampleStore !! 2%nat = Some (Store.ArrayObj [0; 1]%nat))
    by reflexivity.
  assert (H2 : Store.holds Store.StudentObj sampleStore [0; 1]%nat
                 [bob; alice]) by (repeat constructor).
  assert (H3 : sampleStore !! 4%nat = Some (Store.ArrayObj [3%nat]))
    by reflexivity.
  assert (H4 : Store.holds Store.PlanObj sampleStore [3%nat] [mkPlan "X" 1])
    by (repeat constructor).
  split; [exact H1 | split; [exact H2 | split; [exact H3 | split; [exact H4|]]]].
  destruct (input_untouched sampleStore 2%nat 4%nat _ _ _ _ H1 H2 H3 H4)
    as (res & outs & extra & Hrun & _ & _ & _ & _ & _ & _ & Hres & Hout & _).
  exists res, outs, extra. split; [exact Hrun | split; [exact Hres | exact Hout]].
Defined.

(** * Further properties of the ranking service *)

(** ** Every student is ranked once *)

(** X1: the students of the output are the students of the input, each as
    often as it was given: ranking loses and invents nobody. *)
Theorem ranking_is_permutation students plans :
  base <$> rankStudents students plans ≡ₚ students.
Proof.
  rewrite rankStudents_base, ranked_base, sort_perm.
  rewrite <-list_fmap_compose. by rewrite list_fmap_id.
Qed.

(** ** What an allocation owes to the students ranked above *)

(** X2: a student left without a track finds every configured track on the
    own preference list, [__proto__] apart, full: with [p] the last plan
    listed under the name, the track has at least [quota p] students (and,
    by the capacity bound, no more than [max 0 (quota p)]). *)
Theorem unassigned_means_full students plans i r t p :
  rankStudents students plans !! i = Some r →
  qualifiedStream r = None →
  t ∈ preferredStreams (base r) →
  lastNamed t plans = Some p →
  t ≠ "__proto__"%string →
  quota p ≤ Z.of_nat (assignedTo t (rankStudents students plans))
          ≤ Z.max 0 (quota p).
Proof.
  intros (s & Hs & ->)%rankStudents_lookup Hnone Ht Hlast Hne. simpl in *.
  assert (Hq : initPlanQuotas plans !! t = Some (quota p)).
  { by rewrite initPlanQuotas_lookup_ne, Hlast. }
  pose proof (choosePlan_spec (initPlanQuotas plans)
                (usageBefore students plans i)
                (preferredStreams (base s))) as Hc.
  destruct (choosePlan _ _ _) as [[t'|] U']; simplify_eq/=.
  destruct Hc as [_ Hall]. rewrite Forall_forall in Hall.
  specialize (Hall t Ht). rewrite (hasSpace_count _ _ _ _ _ Hq) in Hall.
  apply Z.ltb_ge in Hall.
  pose proof (assignedTo_take_total t i (rankStudents students plans)).
  pose proof (rankStudents_assignedTo students plans t) as Hb.
  rewrite Hq in Hb. lia.
Qed.

Lemma unassigned_means_full_witness :
  rankStudents [alice; bob; carol] [mkPlan "X" 1] !! 1%nat
    = Some (withStream (withRank 1 (withTotal bob)) None) ∧
  "X"%string ∈ preferredStreams (base (withRank 1 (withTotal bob))) ∧
  lastNamed "X" [mkPlan "X" 1] = Some (mkPlan "X" 1) ∧
  "X"%string ≠ "__proto__"%string ∧
  1 ≤ Z.of_nat (assignedTo "X" (rankStudents [alice; bob; carol]
                                  [mkPlan "X" 1])) ≤ Z.max 0 1.
Proof.
  assert (H1 : rankStudents [alice; bob; carol] [mkPlan "X" 1] !! 1%nat
               = Some (withStream (withRank 1 (withTotal bob)) None))
    by (vm_compute; reflexivity).
  assert (H2 : "X"%string ∈ preferredStreams (base (withRank 1 (withTotal bob))))
    by apply list_elem_of_here.
  assert (H3 : lastNamed "X" [mkPlan "X" 1] = Some (mkPlan "X" 1))
    by (vm_compute; reflexivity).
  assert (H4 : "X"%string ≠ "__proto__"%string) by discriminate.
  split; [exact H1 | split; [exact H2 | split; [exact H3 | split; [exact H4|]]]].
  exact (unassigned_means_full [alice; bob; carol] [mkPlan "X" 1] 1 _ "X" _
           H1 eq_refl H2 H3 H4).
Defined.

(** X3: no student has cause to envy a lower-ranked one.  If a student B
    holds track [t] and a student A ranked above B lists [t], then A holds a
    track too, one that A lists no later than the first mention of [t]. *)
Theorem no_justified_envy students plans i j a b t :
  (i < j)%nat →
  rankStudents students plans !! i = Some a →
  rankStudents students plans !! j = Some b →
  qualifiedStream b = Some t →
  t ∈ preferredStreams (base a) →
  ∃ t' pre post,
    qualifiedStream a = Some t' ∧
    preferredStreams (base a) = pre ++ t' :: post ∧
    t ∉ pre.
Proof.
  intros Hij Ha (sb & Hsb & ->)%rankStudents_lookup Hb Ht. simpl in Hb.
  assert (Hroom : hasSpace (initPlanQuotas plans)
                    (usageBefore students plans i) t = true).
  { pose proof (choosePlan_spec (initPlanQuotas plans)
                  (usageBefore students plans j)
                  (preferredStreams (base sb))) as Hc.
    destruct (choosePlan _ _ _) as [[t0|] U']; simplify_eq/=.
    destruct Hc as (_ & _ & u & _ & _ & Hsp & _).
    pose proof Hsp as (q & u' & Hq & _ & _)%hasSpace_true.
    rewrite (hasSpace_count _ _ j _ _ Hq) in Hsp.
    rewrite (hasSpace_count _ _ i _ _ Hq).
    apply Z.ltb_lt in Hsp. apply Z.ltb_lt.
    pose proof (assignedTo_take_mono t i j (rankStudents students plans)).
    lia. }
  apply rankStudents_lookup in Ha as (sa & Hsa & ->).
  cbn [qualifiedStream base withStream] in *.
  pose proof (choosePlan_spec (initPlanQuotas plans)
                (usageBefore students plans i)
                (preferredStreams (base sa))) as Hc.
  destruct (choosePlan (initPlanQuotas plans) (usageBefore students plans i)
              (preferredStreams (base sa))) as [[t'|] U']; cbn [fst].
  - destruct Hc as (pre & post & u & Hprefs & Hpre & _).
    exists t', pre, post. split_and!; [done..|].
    intros Hin. rewrite Forall_forall in Hpre.
    specialize (Hpre t Hin). congruence.
  - destruct Hc as [_ Hall]. rewrite Forall_forall in Hall.
    specialize (Hall t Ht). congruence.
Qed.

Lemma no_justified_envy_witness :
  (0 < 1)%nat ∧
  rankStudents [alice; bob] plansXY !! 0%nat
    = Some (withStream (withRank 0 (withTotal alice)) (Some "X"%string)) ∧
  rankStudents [alice; bob] plansXY !! 1%nat
    = Some (withStream (withRank 1 (withTotal bob)) (Some "Y"%string)) ∧
  "Y"%string ∈ preferredStreams (base (withRank 0 (withTotal alice))) ∧
  ∃ t' pre post,
    qualifiedStream (withStream (withRank 0 (withTotal alice))
                       (Some "X"%string)) = Some t' ∧
    preferredStreams (base (withStream (withRank 0 (withTotal alice))
                              (Some "X"%string))) = pre ++ t' :: post ∧
    "Y"%string ∉ pre.
Proof.
  assert (H0 : (0 < 1)%nat) by lia.
  assert (H1 : rankStudents [alice; bob] plansXY !! 0%nat
               = Some (withStream (withRank 0 (withTotal alice))
                         (Some "X"%string))) by (vm_compute; reflexivity).
  assert (H2 : rankStudents [alice; bob] plansXY !! 1%nat
               = Some (withStream (withRank 1 (withTotal bob))
                         (Some "Y"%string))) by (vm_compute; reflexivity).
  assert (H3 : "Y"%string
               ∈ preferredStreams (base (withRank 0 (withTotal alice))))
    by (apply list_elem_of_further, list_elem_of_here).
  split; [exact H0 | split; [exact H1 | split; [exact H2 | split; [exact H3|]]]].
  exact (no_justified_envy [alice; bob] plansXY 0 1 _ _ "Y" H0 H1 H2
           eq_refl H3).
Defined.

(** ** Ample capacity *)

Lemma assignedTo_le_length t out : (assignedTo t out ≤ length out)%nat.
Proof. apply length_filter. Qed.

(** X4: when the quota of every plan is at least the number of students,
    each student receives the first preference that names a plan and is not
    [__proto__] (and no track if there is no such preference). *)
Theorem ample_capacity_first_choice students plans i r :
  Forall (λ p, Z.of_nat (length students) ≤ quota p) plans →
  rankStudents students plans !! i = Some r →
  qualifiedStream r =
  head (filter (λ n, n ≠ "__proto__"%string ∧ n ∈ name <$> plans)
          (preferredStreams (base r))).
Proof.
  intros Hample Hr. pose proof (lookup_lt_Some _ _ _ Hr) as Hi.
  rewrite rankStudents_length in Hi.
  apply rankStudents_lookup in Hr as (s & Hs & ->).
  cbn [qualifiedStream base withStream].
  assert (Hfilter :
    filter (λ n, n ≠ "__proto__"%string ∧ n ∈ name <$> plans)
      (preferredStreams (base s)) =
    filter (λ n, is_Some (initPlanQuotas plans !! n))
      (preferredStreams (base s))).
  { apply list_filter_iff. intros n. rewrite <-lastNamed_is_Some. split.
    - intros [Hne [p Hp]]. exists (quota p).
      apply initPlanQuotas_Some. eauto.
    - intros [q [Hne (p & Hp & _)]%initPlanQuotas_Some]. eauto. }
  rewrite Hfilter. clear Hfilter.
  rewrite <-choosePlan_skip_unknown.
  destruct (filter _ (preferredStreams (base s))) as [|n K] eqn:HK; [done|].
  assert (Hn : n ∈ filter (λ n, is_Some (initPlanQuotas plans !! n))
                 (preferredStreams (base s)))
    by (rewrite HK; apply list_elem_of_here).
  apply list_elem_of_filter in Hn as [[q Hq] _].
  cbn [choosePlan head]. rewrite Hq, (usageBefore_count _ _ _ _ _ Hq).
  assert (Z.of_nat (length students) ≤ q).
  { apply initPlanQuotas_Some in Hq as [_ (p & [Hp _]%lastNamed_elem_of & <-)].
    rewrite Forall_forall in Hample. by apply Hample. }
  pose proof (assignedTo_le_length n (take i (rankStudents students plans))).
  rewrite length_take in *.
  destruct (Z.ltb_spec (Z.of_nat (assignedTo n (take i (rankStudents students plans)))) q);
    [done | lia].
Qed.

Lemma ample_capacity_first_choice_witness :
  Forall (λ p, Z.of_nat (length [alice; bob; carol]) ≤ quota p)
    [mkPlan "X" 3; mkPlan "Y" 5] ∧
  rankStudents [alice; bob; carol] [mkPlan "X" 3; mkPlan "Y" 5] !! 2%nat
    = Some (withStream (withRank 2 (withTotal carol)) (Some "X"%string)) ∧
  qualifiedStream (withStream (withRank 2 (withTotal carol)) (Some "X"%string))
  = head (filter (λ n, n ≠ "__proto__"%string ∧
                       n ∈ name <$> [mkPlan "X" 3; mkPlan "Y" 5])
            (preferredStreams
               (base (withStream (withRank 2 (withTotal carol))
                        (Some "X"%string))))).
Proof.
  assert (H1 : Forall (λ p, Z.of_nat (length [alice; bob; carol]) ≤ quota p)
                 [mkPlan "X" 3; mkPlan "Y" 5]).
  { apply (bool_decide_unpack _). vm_compute. exact I. }
  assert (H2 : rankStudents [alice; bob; carol] [mkPlan "X" 3; mkPlan "Y" 5]
                 !! 2%nat
               = Some (withStream (withRank 2 (withTotal carol))
                         (Some "X"%string))) by (vm_compute; reflexivity).
  split; [exact H1 | split; [exact H2 |]].
  exact (ample_capacity_first_choice [alice; bob; carol]
           [mkPlan "X" 3; mkPlan "Y" 5] 2 _ H1 H2).
Defined.

(** X23: a plan named [__proto__] takes part in nothing: no student is given
    the name, whatever quota the plan carries and wherever students list it,
    and the result is the one the remaining plans give. *)
Theorem proto_plan_admits_nobody students plans :
  Forall (λ r, qualifiedStream r ≠ Some "__proto__"%string)
    (rankStudents students plans) ∧
  rankStudents students plans =
  rankStudents students (filter (λ p, name p ≠ "__proto__"%string) plans).
Proof.
  split.
  - apply assignedTo_zero.
    pose proof (rankStudents_assignedTo students plans "__proto__") as Hb.
    by rewrite initPlanQuotas_proto in Hb.
  - unfold rankStudents, initPlanQuotas, initQuotaUsage.
    assert (Hfold : ∀ (val : StudyPlan → Z) m,
              foldl (λ m p, assignKey m (name p) (val p)) m plans =
              foldl (λ m p, assignKey m (name p) (val p)) m
                (filter (λ p, name p ≠ "__proto__"%string) plans)).
    { intros val. induction plans as [|p plans IH]; intros m; [done|].
      rewrite filter_cons. case_decide as Hp; cbn [foldl]; [by rewrite IH|].
      unfold assignKey at 2. rewrite decide_True by done. apply IH. }
    by rewrite (Hfold quota), (Hfold (λ _, 0)).
Qed.

(** ** Independence from what comes below, and from the order of plans *)

(** X5: the allocation of the first [i] ranks is decided by the first [i]
    ranked students alone: two inputs with the same [i] best-ranked students
    give these the same tracks, whoever is ranked below. *)
Theorem lower_ranks_do_not_matter students1 students2 plans i :
  take i (ranked students1) = take i (ranked students2) →
  take i (rankStudents students1 plans) = take i (rankStudents students2 plans).
Proof.
  intros Heq. unfold rankStudents. by rewrite <-!allocate_take, Heq.
Qed.

Lemma lower_ranks_do_not_matter_witness :
  take 2 (ranked [alice; bob; dave]) = take 2 (ranked [alice; bob; carol]) ∧
  take 2 (rankStudents [alice; bob; dave] plansXY) =
  take 2 (rankStudents [alice; bob; carol] plansXY).
Proof.
  assert (H : take 2 (ranked [alice; bob; dave])
              = take 2 (ranked [alice; bob; carol]))
    by (vm_compute; reflexivity).
  split; [exact H|].
  exact (lower_ranks_do_not_matter [alice; bob; dave] [alice; bob; carol]
           plansXY 2 H).
Defined.

Lemma lastNamed_perm plans plans' t :
  plans ≡ₚ plans' → NoDup (name <$> plans) →
  lastNamed t plans = lastNamed t plans'.
Proof.
  intros Hperm Hnd.
  assert (Hnd' : NoDup (name <$> plans')) by (by rewrite <-Hperm).
  destruct (lastNamed t plans) as [p|] eqn:Hp.
  - apply (lastNamed_Some_unique _ _ _ Hnd) in Hp as [Hin Hname].
    symmetry. apply (lastNamed_Some_unique _ _ _ Hnd'). split; [|done].
    by rewrite <-Hperm.
  - destruct (lastNamed t plans') as [p'|] eqn:Hp'; [|done].
    apply (lastNamed_Some_unique _ _ _ Hnd') in Hp' as [Hin Hname].
    rewrite <-Hperm in Hin.
    assert (lastNamed t plans = Some p')
      by (by apply (lastNamed_Some_unique _ _ _ Hnd)).
    congruence.
Qed.

(** X6: with pairwise distinct plan names, the order in which the plans are
    listed has no influence on the result. *)
Theorem plan_order_is_irrelevant students plans plans' :
  plans ≡ₚ plans' → NoDup (name <$> plans) →
  rankStudents students plans = rankStudents students plans'.
Proof.
  intros Hperm Hnd. unfold rankStudents.
  assert (initPlanQuotas plans = initPlanQuotas plans') as ->.
  { apply map_eq. intros t.
    by rewrite !initPlanQuotas_lookup, (lastNamed_perm _ _ _ Hperm Hnd). }
  assert (initQuotaUsage plans = initQuotaUsage plans') as ->; [|done].
  apply map_eq. intros t.
  by rewrite !initQuotaUsage_lookup, (lastNamed_perm _ _ _ Hperm Hnd).
Qed.

Lemma plan_order_is_irrelevant_witness :
  plansXY ≡ₚ [mkPlan "Y" 5; mkPlan "X" 1] ∧
  NoDup (name <$> plansXY) ∧
  rankStudents [alice; bob; carol] plansXY =
  rankStudents [alice; bob; carol] [mkPlan "Y" 5; mkPlan "X" 1].
Proof.
  assert (H1 : plansXY ≡ₚ [mkPlan "Y" 5; mkPlan "X" 1])
    by apply Permutation_swap.
  assert (H2 : NoDup (name <$> plansXY)).
  { apply (bool_decide_unpack _). vm_compute. exact I. }
  split; [exact H1 | split; [exact H2 |]].
  exact (plan_order_is_irrelevant [alice; bob; carol] _ _ H1 H2).
Defined.

(** ** Sorting a part of the input *)

Section SortFilter.
Context {A : Type} (comparefn : A → A → number).
Context (D : A → Prop) (P : A → Prop) `{!∀ x, Decision (P x)}.

Let le (x y : A) : Prop := sortCompare comparefn x y ≤ 0.

Hypothesis le_total : ∀ x y, D x → D y → le x y ∨ le y x.
Hypothesis le_trans : ∀ x y z, D x → D y → D z → le x y → le y z → le x z.

Lemma insert_sorted_front x l :
  Forall (le x) l → insert_sorted comparefn x l = x :: l.
Proof.
  destruct l as [|y l]; [done|]. intros [Hy _]%Forall_cons. simpl.
  unfold le in Hy. by destruct (Z.leb_spec (sortCompare comparefn x y) 0); [|lia].
Qed.

Lemma insert_sorted_filter_out x l :
  ¬ P x → filter P (insert_sorted comparefn x l) = filter P l.
Proof.
  intros Hx. induction l as [|y l IH]; simpl.
  - by rewrite filter_cons_False.
  - destruct (sortCompare comparefn x y <=? 0).
    + by rewrite filter_cons_False.
    + by rewrite !(filter_cons _ y), IH.
Qed.

Lemma insert_sorted_filter_in x l :
  P x → D x → Forall D l → StronglySorted le l →
  insert_sorted comparefn x (filter P l) =
  filter P (insert_sorted comparefn x l).
Proof.
  intros HPx HDx. induction l as [|y l IH]; intros HD Hs.
  - simpl. by rewrite filter_cons_True.
  - apply Forall_cons in HD as [HDy HD].
    apply StronglySorted_cons in Hs as [Hyl Hs].
    cbn [insert_sorted].
    destruct (Z.leb_spec (sortCompare comparefn x y) 0) as [Hle|Hgt].
    + rewrite (filter_cons_True _ x) by done.
      apply insert_sorted_front. apply Forall_forall.
      intros z [_ Hz]%list_elem_of_filter.
      apply elem_of_cons in Hz as [->|Hz]; [done|].
      rewrite Forall_forall in Hyl, HD.
      apply (le_trans x y z); auto.
    + rewrite !(filter_cons _ y). destruct (decide (P y)).
      * cbn [insert_sorted].
        destruct (Z.leb_spec (sortCompare comparefn x y) 0); [lia|].
        by rewrite IH.
      * by apply IH.
Qed.

Lemma sort_StronglySorted_le l :
  Forall D l → StronglySorted le (sort comparefn l).
Proof.
  apply (sort_StronglySorted comparefn D le).
  - done.
  - intros x y Hx Hy Hn. destruct (le_total x y Hx Hy); [done|done].
  - exact le_trans.
Qed.

(** Sorting the elements that satisfy [P] gives the elements of the sorted
    list that satisfy [P]. *)
Lemma sort_filter_comm l :
  Forall D l → sort comparefn (filter P l) = filter P (sort comparefn l).
Proof.
  induction l as [|x l IH]; intros HD; [done|].
  apply Forall_cons in HD as [Hx HD]. rewrite filter_cons.
  destruct (decide (P x)).
  - cbn [sort]. rewrite IH by done.
    apply insert_sorted_filter_in; auto.
    + by rewrite sort_perm.
    + by apply sort_StronglySorted_le.
  - cbn [sort]. by rewrite insert_sorted_filter_out, IH.
Qed.

(** A list already in order is returned as it is. *)
Lemma sort_sorted_id l :
  StronglySorted le l → sort comparefn l = l.
Proof.
  induction 1 as [|x l Hs IH Hx]; [done|].
  cbn [sort]. rewrite IH. by apply insert_sorted_front.
Qed.

Lemma insert_sorted_back x l :
  Forall (λ y, ¬ le x y) l → insert_sorted comparefn x l = l ++ [x].
Proof.
  induction 1 as [|y l Hy _ IH]; [done|]. simpl. unfold le in Hy.
  destruct (Z.leb_spec (sortCompare comparefn x y) 0); [lia|].
  by rewrite IH.
Qed.

(** A list in strictly opposite order is reversed. *)
Lemma sort_reverse l :
  StronglySorted (λ x y, ¬ le x y) l → sort comparefn l = reverse l.
Proof.
  induction 1 as [|x l Hs IH Hx]; [done|].
  cbn [sort]. rewrite IH, reverse_cons. apply insert_sorted_back.
  rewrite Forall_forall in Hx |- *. intros y Hy.
  apply Hx. by apply elem_of_reverse.
Qed.
End SortFilter.

(** ** Ranking after a deletion *)

Lemma compareStudents_le a b :
  consistent a → consistent b →
  sortCompare compareStudents a b ≤ 0 ↔ ¬ better (base b) (base a).
Proof.
  intros Ha Hb. destruct (compareStudents_spec a b Ha Hb) as (_ & _ & H3).
  rewrite <-H3. lia.
Qed.

Lemma fmap_filter_withTotal (P : Student → Prop)
    {Pdec : ∀ x, Decision (P x)} (students : list Student) :
  withTotal <$> filter P students =
  filter (λ r, P (base r)) (withTotal <$> students).
Proof.
  induction students as [|x l IH]; [done|].
  rewrite fmap_cons, !filter_cons. simpl.
  destruct (decide (P x)); [by rewrite fmap_cons, IH | done].
Qed.

Lemma fmap_base_filter (P : Student → Prop)
    {Pdec : ∀ x, Decision (P x)} (l : list RankedStudent) :
  base <$> filter (λ r, P (base r)) l = filter P (base <$> l).
Proof.
  induction l as [|x l IH]; [done|].
  rewrite fmap_cons, !filter_cons.
  destruct (decide (P (base x))); [by rewrite fmap_cons, IH | done].
Qed.

(** Ranking a part of the cohort orders it as the whole cohort's ranking
    does. *)
Lemma ranking_of_filtered (P : Student → Prop)
    {Pdec : ∀ x, Decision (P x)} students plans :
  Forall complete students →
  base <$> rankStudents (filter P students) plans =
  filter P (base <$> rankStudents students plans).
Proof.
  intros Hc. rewrite !rankStudents_base, !ranked_base.
  rewrite fmap_filter_withTotal.
  rewrite (sort_filter_comm compareStudents consistent (λ r, P (base r))).
  - apply fmap_base_filter.
  - intros x y Hx Hy.
    rewrite (compareStudents_le x y Hx Hy), (compareStudents_le y x Hy Hx).
    destruct (better_total (base x) (base y)) as [H|[H|H]].
    + left. by apply better_asym.
    + left. intros Hb. by apply (better_not_tied _ _ Hb).
    + right. by apply better_asym.
  - intros x y z Hx Hy Hz.
    rewrite (compareStudents_le x y Hx Hy), (compareStudents_le y z Hy Hz),
      (compareStudents_le x z Hx Hz).
    apply not_better_trans.
  - by apply withTotal_consistent.
Qed.

(** X7: deleting a student from the dashboard leaves the others in the order
    the ranking had them in (students carrying the five subjects). *)
Theorem delete_keeps_ranking_order students plans i :
  Forall complete students →
  base <$> rankStudents (Dashboard.handleDeleteStudent false students i) plans
  = filter (λ s, id s ≠ i) (base <$> rankStudents students plans).
Proof.
  intros Hc. unfold Dashboard.handleDeleteStudent.
  by apply (ranking_of_filtered (λ s, id s ≠ i)).
Qed.

Lemma delete_keeps_ranking_order_witness :
  Forall complete [carol; alice; dave; bob] ∧
  base <$> rankStudents
             (Dashboard.handleDeleteStudent false [carol; alice; dave; bob]
                "S3") plansXY
  = filter (λ s, id s ≠ "S3"%string)
      (base <$> rankStudents [carol; alice; dave; bob] plansXY).
Proof.
  assert (Hc : Forall complete [carol; alice; dave; bob]).
  { apply (bool_decide_unpack _). vm_compute. exact I. }
  split; [exact Hc|].
  exact (delete_keeps_ranking_order [carol; alice; dave; bob] plansXY "S3" Hc).
Defined.

(** ** The dashboard's student list *)

Lemma findIndex_Some i l k :
  Dashboard.findIndex i l = Some k →
  ∃ s, l !! k = Some s ∧ id s = i ∧
       Forall (λ s', id s' ≠ i) (take k l).
Proof.
  revert k. induction l as [|x l IH]; intros k; [done|]. simpl.
  destruct (decide (id x = i)) as [Hx|Hx].
  - intros [= <-]. exists x. by split_and!.
  - destruct (Dashboard.findIndex i l) as [k'|]; [|done].
    intros [= <-]. destruct (IH k' eq_refl) as (s & Hs & Hid & Hpre).
    exists s. split_and!; [done..|]. simpl. by constructor.
Qed.

Lemma findIndex_None i l :
  Dashboard.findIndex i l = None ↔ i ∉ id <$> l.
Proof.
  induction l as [|x l IH]; simpl.
  - split; [intros _ ?%elem_of_nil | ]; done.
  - rewrite not_elem_of_cons. destruct (decide (id x = i)) as [Hx|Hx].
    + split; [done | intros [? _]; congruence].
    + destruct (Dashboard.findIndex i l); simpl.
      * split; [done|]. intros [_ H]. by apply IH in H.
      * split; [|done]. intros _. split; [congruence | by apply IH].
Qed.

(** One merge step leaves the ids in place and adds an unknown id at the
    end. *)
Lemma upsert_ids l n :
  id <$> Dashboard.upsert l n =
  if decide (id n ∈ id <$> l) then id <$> l else (id <$> l) ++ [id n].
Proof.
  unfold Dashboard.upsert.
  destruct (Dashboard.findIndex (id n) l) as [k|] eqn:Hk.
  - destruct (findIndex_Some _ _ _ Hk) as (s & Hs & Hid & _).
    rewrite decide_True.
    + rewrite list_fmap_insert. apply list_insert_id.
      by rewrite list_lookup_fmap, Hs, <-Hid.
    + rewrite <-Hid. apply list_elem_of_fmap_2.
      by eapply list_elem_of_lookup_2.
  - apply findIndex_None in Hk. rewrite decide_False by done.
    by rewrite fmap_app.
Qed.

(** X8: merging new students into a list with pairwise distinct ids gives a
    list with pairwise distinct ids, whatever repetitions the new students
    have among themselves or with the list. *)
Theorem add_keeps_ids_distinct students newStudents :
  NoDup (id <$> students) →
  NoDup (id <$> Dashboard.handleAddStudents false students newStudents).
Proof.
  unfold Dashboard.handleAddStudents. revert students.
  induction newStudents as [|n new IH]; intros students Hnd; [done|].
  simpl. apply IH. rewrite upsert_ids. case_decide; [done|].
  apply NoDup_app. split_and!; [done | | apply NoDup_singleton].
  intros x Hx ->%list_elem_of_singleton. done.
Qed.

Lemma add_keeps_ids_distinct_witness :
  NoDup (id <$> [alice; bob]) ∧
  NoDup (id <$> Dashboard.handleAddStudents false [alice; bob]
                  [carol; bob; carol]).
Proof.
  assert (H : NoDup (id <$> [alice; bob])).
  { apply (bool_decide_unpack _). vm_compute. exact I. }
  split; [exact H|].
  exact (add_keeps_ids_distinct [alice; bob] [carol; bob; carol] H).
Defined.

Lemma upsert_head_filter i l n :
  head (filter (λ s, id s = i) (Dashboard.upsert l n)) =
  if decide (id n = i) then Some n else head (filter (λ s, id s = i) l).
Proof.
  unfold Dashboard.upsert.
  destruct (Dashboard.findIndex (id n) l) as [k|] eqn:Hk.
  - destruct (findIndex_Some _ _ _ Hk) as (s & Hs & Hid & Hpre).
    assert (Hlen : length (take k l) = k).
    { rewrite length_take. apply lookup_lt_Some in Hs. lia. }
    assert (Hins : <[k:=n]> l = take k l ++ n :: drop (S k) l).
    { rewrite <-(take_drop_middle l k s Hs) at 1.
      rewrite insert_app_r_alt by lia.
      by replace (k - length (take k l))%nat with 0%nat by lia. }
    rewrite Hins.
    replace (filter (λ s0, id s0 = i) l)
      with (filter (λ s0, id s0 = i) (take k l ++ s :: drop (S k) l))
      by (by rewrite take_drop_middle).
    rewrite !filter_app, !filter_cons.
    destruct (decide (id n = i)) as [Hn|Hn].
    + assert (filter (λ s0, id s0 = i) (take k l) = []) as ->.
      { clear -Hpre Hn. induction Hpre as [|y ys Hy _ IH]; [done|].
        rewrite filter_cons_False by congruence. done. }
      done.
    + by rewrite decide_False by congruence.
  - apply findIndex_None in Hk. rewrite filter_app, filter_cons, filter_nil.
    destruct (decide (id n = i)) as [Hn|Hn].
    + assert (filter (λ s0, id s0 = i) l = []) as ->; [|done].
      clear -Hk Hn. induction l as [|y ys IH]; [done|].
      simpl in Hk. apply not_elem_of_cons in Hk as [Hy Hk].
      rewrite filter_cons_False by congruence. by apply IH.
    + by rewrite app_nil_r.
Qed.

(** X9: after a merge, the first student found under an id is the last one
    the new students had under that id, and, for an id the new students do
    not mention, the student found before the merge. *)
Theorem add_lookup students newStudents i :
  head (filter (λ s, id s = i)
          (Dashboard.handleAddStudents false students newStudents)) =
  match last (filter (λ s, id s = i) newStudents) with
  | Some n => Some n
  | None => head (filter (λ s, id s = i) students)
  end.
Proof.
  unfold Dashboard.handleAddStudents.
  induction newStudents as [|n new IH] using rev_ind; [done|].
  rewrite foldl_snoc, upsert_head_filter, filter_app, filter_cons, filter_nil.
  destruct (decide (id n = i)); [by rewrite last_snoc|].
  by rewrite app_nil_r.
Qed.

(** X10: adding one student under an id the list does not have, then
    deleting that id, gives the list back. *)
Theorem add_then_delete students n :
  id n ∉ (id <$> students) →
  Dashboard.handleDeleteStudent false
    (Dashboard.handleAddStudents false students [n]) (id n) = students.
Proof.
  intros Hn. unfold Dashboard.handleDeleteStudent, Dashboard.handleAddStudents.
  simpl. unfold Dashboard.upsert.
  rewrite (proj2 (findIndex_None _ _) Hn).
  rewrite filter_app, filter_cons_False, filter_nil, app_nil_r by naive_solver.
  clear -Hn. induction students as [|y ys IH]; [done|].
  simpl in Hn. apply not_elem_of_cons in Hn as [Hy Hn].
  rewrite filter_cons_True by congruence. by rewrite IH.
Qed.

Lemma add_then_delete_witness :
  (id carol ∉ (id <$> [alice; bob])) ∧
  Dashboard.handleDeleteStudent false
    (Dashboard.handleAddStudents false [alice; bob] [carol]) (id carol)
  = [alice; bob].
Proof.
  assert (H : id carol ∉ (id <$> [alice; bob])).
  { apply (bool_decide_unpack _). vm_compute. exact I. }
  split; [exact H|].
  exact (add_then_delete [alice; bob] carol H).
Defined.

(** X11: an edit keeps the list as long as it was, and keeps ids pairwise
    distinct when the edited student keeps the id or takes one that no
    student has. *)
Theorem edit_keeps_ids_distinct students updatedStudent originalId :
  NoDup (id <$> students) →
  id updatedStudent = Dashboard.targetId updatedStudent originalId ∨
  id updatedStudent ∉ (id <$> students) →
  NoDup (id <$> Dashboard.handleEditStudent false students updatedStudent
                  originalId) ∧
  length (Dashboard.handleEditStudent false students updatedStudent originalId)
  = length students.
Proof.
  intros Hnd Hid. unfold Dashboard.handleEditStudent.
  split; [|by rewrite length_fmap].
  set (target := Dashboard.targetId updatedStudent originalId) in *.
  assert (Hids : id <$> ((λ s, if decide (id s = target)
                                then updatedStudent else s) <$> students)
                 = (λ i, if decide (i = target) then id updatedStudent else i)
                     <$> (id <$> students)).
  { rewrite <-!list_fmap_compose. apply list_fmap_ext.
    intros _ s _. simpl. by case_decide. }
  rewrite Hids. apply NoDup_fmap_2_strong; [|done].
  intros i j Hi Hj. repeat case_decide; intros Heq; try congruence.
  - destruct Hid as [Hid|Hid]; [congruence|].
    exfalso. apply Hid. by rewrite Heq.
  - destruct Hid as [Hid|Hid]; [congruence|].
    exfalso. apply Hid. by rewrite <-Heq.
Qed.

Lemma edit_keeps_ids_distinct_witness :
  NoDup (id <$> [alice; bob]) ∧
  (id carol = Dashboard.targetId carol (Some "S2"%string) ∨
   id carol ∉ (id <$> [alice; bob])) ∧
  NoDup (id <$> Dashboard.handleEditStudent false [alice; bob] carol
                  (Some "S2"%string)).
Proof.
  assert (H1 : NoDup (id <$> [alice; bob])).
  { apply (bool_decide_unpack _). vm_compute. exact I. }
  assert (H2 : id carol = Dashboard.targetId carol (Some "S2"%string) ∨
               id carol ∉ (id <$> [alice; bob])).
  { right. apply (bool_decide_unpack _). vm_compute. exact I. }
  split; [exact H1 | split; [exact H2 |]].
  exact (proj1 (edit_keeps_ids_distinct [alice; bob] carol
                  (Some "S2"%string) H1 H2)).
Defined.

(** ** Plans added in the settings page *)

(** X12: two plans added one after the other, and left with the name the
    page gives them, carry the same name; [rankStudents] then serves them
    from one counter, so that together they receive at most 10 students, the
    quota of one. *)
Theorem added_plans_share_one_quota now1 now2 tempPlans students :
  ¬ NoDup (name <$> SettingsPage.handleAddTempPlan now2
                      (SettingsPage.handleAddTempPlan now1 tempPlans)) ∧
  (assignedTo "แผนการเรียนใหม่"
     (rankStudents students
        (SettingsPage.handleAddTempPlan now2
           (SettingsPage.handleAddTempPlan now1 tempPlans))) ≤ 10)%nat.
Proof.
  unfold SettingsPage.handleAddTempPlan. split.
  - rewrite !fmap_app. simpl. rewrite <-(assoc_L (++)). simpl.
    intros [_ [_ Hnd]]%NoDup_app. apply NoDup_cons in Hnd as [Hnd _].
    apply Hnd, list_elem_of_here.
  - pose proof (rankStudents_assignedTo students
      ((tempPlans ++
        [{| plan_id := "PLAN-" +:+ pretty now1;
            name := "แผนการเรียนใหม่"; quota := 10 |}]) ++
       [{| plan_id := "PLAN-" +:+ pretty now2;
           name := "แผนการเรียนใหม่"; quota := 10 |}])
      "แผนการเรียนใหม่") as H.
    rewrite initPlanQuotas_lookup_ne, lastNamed_snoc in H by done.
    cbn [name] in H. rewrite decide_True in H by done.
    cbn [fmap option_fmap option_map quota] in H. lia.
Qed.

(** ** The student list view *)

Lemma StronglySorted_of_lookup {A} (R : A → A → Prop) l :
  (∀ i j x y, (i < j)%nat → l !! i = Some x → l !! j = Some y → R x y) →
  StronglySorted R l.
Proof.
  induction l as [|x l IH]; intros H; constructor.
  - apply IH. intros i j a b Hij Ha Hb. apply (H (S i) (S j)); [lia|done..].
  - apply Forall_forall. intros y (j & Hj)%list_elem_of_lookup.
    apply (H 0%nat (S j)); [lia|done..].
Qed.

Lemma StronglySorted_filter {A} (R : A → A → Prop) (P : A → Prop)
    `{!∀ x, Decision (P x)} l :
  StronglySorted R l → StronglySorted R (filter P l).
Proof.
  induction 1 as [|x l Hs IH Hx]; [constructor|].
  rewrite filter_cons. case_decide; [|done].
  constructor; [done|]. apply Forall_forall.
  intros y [_ Hy]%list_elem_of_filter. rewrite Forall_forall in Hx. auto.
Qed.

Lemma StronglySorted_weaken {A} (R R' : A → A → Prop) l :
  (∀ x y, R x y → R' x y) → StronglySorted R l → StronglySorted R' l.
Proof.
  intros HR. induction 1 as [|x l Hs IH Hx]; constructor; [done|].
  eapply Forall_impl; [exact Hx | auto].
Qed.

Lemma rankStudents_rank_sorted students plans :
  StronglySorted (λ a b, rank a < rank b) (rankStudents students plans).
Proof.
  apply StronglySorted_of_lookup. intros i j a b Hij Ha Hb.
  rewrite (rankStudents_lookup_rank _ _ _ _ Ha),
    (rankStudents_lookup_rank _ _ _ _ Hb). lia.
Qed.

(** X13: with the sort set to the total, the view lists the students that
    pass the filters in rank order, best first, when the direction is
    descending, and in the reverse of that order when it is ascending. *)
Theorem view_by_total_is_rank_order (toLowerCase : string → string)
    students plans filterStream filterPreferred searchTerm :
  StudentList.filteredStudents toLowerCase (rankStudents students plans)
    filterStream filterPreferred searchTerm "TOTAL" StudentList.DESC
  = filter (λ s, StudentList.matches toLowerCase filterStream filterPreferred
                   searchTerm s = true) (rankStudents students plans) ∧
  StudentList.filteredStudents toLowerCase (rankStudents students plans)
    filterStream filterPreferred searchTerm "TOTAL" StudentList.ASC
  = reverse
      (filter (λ s, StudentList.matches toLowerCase filterStream
                      filterPreferred searchTerm s = true)
         (rankStudents students plans)).
Proof.
  unfold StudentList.filteredStudents. cbv zeta.
  rewrite decide_False by (intros H; by apply H).
  pose proof (StronglySorted_filter _
    (λ s, StudentList.matches toLowerCase filterStream filterPreferred
            searchTerm s = true) _
    (rankStudents_rank_sorted students plans)) as Hs.
  split.
  - apply sort_sorted_id. eapply StronglySorted_weaken; [|exact Hs].
    intros a b Hab. unfold sortCompare, StudentList.byRank. simpl in *. lia.
  - apply sort_reverse. eapply StronglySorted_weaken; [|exact Hs].
    intros a b Hab. unfold sortCompare, StudentList.byRank. simpl in *. lia.
Qed.

(** X14: sorted by a subject, the view holds the students that pass the
    filters, each once, ordered by that subject's score (0 for a missing
    key), highest first when descending and lowest first when ascending;
    students with the same score stay in the order the list gave them. *)
Theorem view_by_subject (toLowerCase : string → string)
    (students : list RankedStudent)
    filterStream filterPreferred searchTerm sortSubject sortDirection :
  sortSubject ≠ "TOTAL"%string →
  let shown := filter (λ s, StudentList.matches toLowerCase filterStream
                              filterPreferred searchTerm s = true) students in
  let view := StudentList.filteredStudents toLowerCase students filterStream
                filterPreferred searchTerm sortSubject sortDirection in
  view ≡ₚ shown ∧
  StronglySorted
    (λ a b, match sortDirection with
            | StudentList.DESC =>
                score sortSubject (base b) ≤ score sortSubject (base a)
            | StudentList.ASC =>
                score sortSubject (base a) ≤ score sortSubject (base b)
            end) view ∧
  ∀ v, filter (λ s, score sortSubject (base s) = v) view =
       filter (λ s, score sortSubject (base s) = v) shown.
Proof.
  intros Hsub shown view. unfold view, StudentList.filteredStudents.
  cbv zeta. rewrite decide_True by done. fold shown. split_and!.
  - apply sort_perm.
  - apply (sort_StronglySorted _ (λ _, True)).
    + intros x y _ _. unfold sortCompare, StudentList.byRank,
        StudentList.bySubject. destruct sortDirection; simpl; lia.
    + intros x y _ _. unfold sortCompare, StudentList.bySubject.
      destruct sortDirection; simpl; lia.
    + intros x y z _ _ _. destruct sortDirection; lia.
    + by apply Forall_true.
  - intros v. apply (sort_filter _ (λ _, True)).
    + intros x y _ _ Hx Hy. unfold sortCompare, StudentList.bySubject.
      destruct sortDirection; simpl; lia.
    + by apply Forall_true.
Qed.

Lemma view_by_subject_witness :
  "math"%string ≠ "TOTAL"%string ∧
  StudentList.filteredStudents (λ s, s)
    (rankStudents [dave; carol; alice; bob] plansXY)
    "ALL" "ALL" "" "math" StudentList.ASC
  ≡ₚ filter (λ s, StudentList.matches (λ s, s) "ALL" "ALL" "" s = true)
       (rankStudents [dave; carol; alice; bob] plansXY).
Proof.
  assert (H : "math"%string ≠ "TOTAL"%string) by discriminate.
  split; [exact H|].
  exact (proj1 (view_by_subject (λ s, s)
                  (rankStudents [dave; carol; alice; bob] plansXY)
                  "ALL" "ALL" "" "math" StudentList.ASC H)).
Defined.

(** ** Pages *)

Lemma paginatedStudents_chunk filtered (p : nat) :
  StudentList.paginatedStudents filtered (Z.of_nat (S p)) =
  take 100 (drop (100 * p) filtered).
Proof.
  unfold StudentList.paginatedStudents, StudentList.slice,
    StudentList.ITEMS_PER_PAGE. cbv zeta.
  set (len := Z.of_nat (length filtered)).
  assert (Hstart : (Z.of_nat (S p) - 1) * 100 = Z.of_nat (100 * p)) by lia.
  rewrite Hstart.
  destruct (Z.ltb_spec (Z.of_nat (100 * p)) 0); [lia|].
  destruct (Z.ltb_spec (Z.of_nat (100 * p) + 100) 0); [lia|].
  destruct (decide (length filtered ≤ 100 * p)%nat) as [Hge|Hlt].
  - rewrite (drop_ge filtered (100 * p)) by done.
    rewrite drop_ge by (unfold len; lia). by rewrite !take_nil.
  - replace (Z.to_nat (Z.of_nat (100 * p) `min` len)) with (100 * p)%nat
      by (unfold len; lia).
    destruct (decide (length filtered ≤ 100 * p + 100)%nat).
    + rewrite !take_ge; [done | rewrite length_drop; lia |].
      rewrite length_drop. unfold len. lia.
    + f_equal. unfold len. lia.
Qed.

Lemma chunks_concat {A} (l : list A) (n : nat) :
  (length l ≤ 100 * n)%nat →
  concat ((λ p, take 100 (drop (100 * p) l)) <$> seq 0 n) = l.
Proof.
  revert l. induction n as [|n IH]; intros l Hlen.
  - destruct l; [done | simpl in Hlen; lia].
  - cbn [seq fmap list_fmap concat]. rewrite <-fmap_S_seq, <-list_fmap_compose.
    replace (100 * 0)%nat with 0%nat by lia. rewrite drop_0.
    etrans; [|apply (take_drop 100 l)]. f_equal.
    etrans; [|apply (IH (drop 100 l)); rewrite length_drop; lia].
    f_equal. apply list_fmap_ext. intros _ p _. simpl.
    rewrite drop_drop. do 2 f_equal. lia.
Qed.

Lemma totalPages_bounds filtered :
  0 ≤ StudentList.totalPages filtered ∧
  Z.of_nat (length filtered) ≤ 100 * StudentList.totalPages filtered ∧
  (filtered ≠ [] →
   100 * (StudentList.totalPages filtered - 1) < Z.of_nat (length filtered)).
Proof.
  unfold StudentList.totalPages, StudentList.ceilDiv,
    StudentList.ITEMS_PER_PAGE.
  set (n := Z.of_nat (length filtered)).
  assert (0 ≤ n) by (unfold n; lia).
  assert (Hn0 : filtered ≠ [] → 0 < n).
  { intros Hne. destruct filtered; [done | unfold n; simpl; lia]. }
  pose proof (Z.div_mod n 100 ltac:(lia)).
  pose proof (Z.mod_pos_bound n 100 ltac:(lia)).
  destruct (Z.eqb_spec (n mod 100) 0); split_and!; lia.
Qed.

(** X15: the pages 1 to [totalPages] put one after the other give the
    filtered list back; each of them holds between 1 and 100 students; and a
    page number beyond [totalPages] shows nothing. *)
Theorem pages_partition filtered :
  concat ((λ p, StudentList.paginatedStudents filtered (Z.of_nat p))
          <$> seq 1 (Z.to_nat (StudentList.totalPages filtered)))
  = filtered ∧
  (∀ page, 1 ≤ page ≤ StudentList.totalPages filtered →
     (1 ≤ length (StudentList.paginatedStudents filtered page) ≤ 100)%nat) ∧
  (∀ page, StudentList.totalPages filtered < page →
     StudentList.paginatedStudents filtered page = []).
Proof.
  pose proof (totalPages_bounds filtered) as (H0 & Hup & Hlow).
  split_and!.
  - rewrite <-fmap_S_seq, <-list_fmap_compose.
    rewrite (list_fmap_ext _ (λ p, take 100 (drop (100 * p) filtered)))
      by (intros _ p _; apply paginatedStudents_chunk).
    apply chunks_concat. lia.
  - intros page [H1 H2].
    replace page with (Z.of_nat (S (Z.to_nat (page - 1)))) by lia.
    rewrite paginatedStudents_chunk, length_take, length_drop.
    assert (Hne : filtered ≠ []).
    { intros ->. change (StudentList.totalPages []) with 0 in H2. lia. }
    specialize (Hlow Hne). lia.
  - intros page Hp.
    replace page with (Z.of_nat (S (Z.to_nat (page - 1)))) by lia.
    rewrite paginatedStudents_chunk, drop_ge; [done|]. lia.
Qed.

(** X16: [goToPage] never leaves the pages that exist: from a page between
    1 and [totalPages], whatever page is asked for, the page shown is
    between 1 and [totalPages], and it is the page asked for exactly when
    that page exists. *)
Theorem goToPage_stays_in_range filtered currentPage page :
  1 ≤ currentPage ≤ StudentList.totalPages filtered →
  1 ≤ StudentList.goToPage filtered currentPage page
    ≤ StudentList.totalPages filtered ∧
  (StudentList.goToPage filtered currentPage page = page ↔
   1 ≤ page ≤ StudentList.totalPages filtered ∨ page = currentPage).
Proof.
  intros Hcur. unfold StudentList.goToPage.
  destruct (Z.leb_spec 1 page), (Z.leb_spec page (StudentList.totalPages filtered));
    simpl; split; try lia; split; intros; try lia; auto.
Qed.

Lemma goToPage_stays_in_range_witness :
  1 ≤ 1 ≤ StudentList.totalPages (rankStudents [alice; bob] plansXY) ∧
  1 ≤ StudentList.goToPage (rankStudents [alice; bob] plansXY) 1 7
    ≤ StudentList.totalPages (rankStudents [alice; bob] plansXY).
Proof.
  assert (H : 1 ≤ 1 ≤ StudentList.totalPages
                        (rankStudents [alice; bob] plansXY))
    by (vm_compute; split; discriminate).
  split; [exact H|].
  exact (proj1 (goToPage_stays_in_range
                  (rankStudents [alice; bob] plansXY) 1 7 H)).
Defined.

(** ** The export *)

(** A track given to a student is a configured one, and is not named
    [__proto__]. *)
Lemma assigned_is_configured students plans r t :
  r ∈ rankStudents students plans → qualifiedStream r = Some t →
  t ≠ "__proto__"%string ∧ ∃ p, lastNamed t plans = Some p.
Proof.
  intros (i & Hi)%list_elem_of_lookup Hr.
  destruct (assigned_first_with_room _ _ _ _ _ Hi Hr)
    as (_ & _ & _ & _ & Hsp & _).
  apply hasSpace_true in Hsp as (q & _ & Hq & _).
  apply initPlanQuotas_Some in Hq as [Hne (p & Hp & _)]. eauto.
Qed.

(** An export that no exception ends leaves the overall sheet, one sheet
    per plan in the order of the plans, and the waiting sheet when somebody
    waits. *)
Lemma generateSheet_Some addWorksheet sheetName data workbook workbook' :
  StudentList.generateSheet addWorksheet sheetName data workbook
    = Some workbook' →
  workbook' = workbook ++ [(sheetName, data)].
Proof.
  unfold StudentList.generateSheet. case_match; [|done]. by intros [= <-].
Qed.

Lemma forEach_generateSheet_Some trim substring addWorksheet students
    studyPlans :
  ∀ acc workbook',
    foldl (λ acc plan,
        workbook ← acc;
        StudentList.generateSheet addWorksheet
          (StudentList.safeSheetName trim substring plan)
          (StudentList.planStudents students plan) workbook)
      acc studyPlans = Some workbook' →
    ∃ workbook,
      acc = Some workbook ∧
      workbook' = workbook ++
        ((λ plan, (StudentList.safeSheetName trim substring plan,
                   StudentList.planStudents students plan)) <$> studyPlans).
Proof.
  induction studyPlans as [|plan studyPlans IH]; intros acc workbook' H.
  - exists workbook'. by rewrite app_nil_r.
  - cbn [foldl] in H. apply IH in H as (workbook1 & H1 & ->).
    destruct acc as [workbook|]; [|done]. simpl in H1.
    apply generateSheet_Some in H1 as ->.
    exists workbook. split; [done|]. by rewrite <-(assoc_L (++)).
Qed.

Lemma handleExport_Some trim substring addWorksheet students studyPlans
    workbook :
  StudentList.handleExport trim substring addWorksheet students studyPlans
    = Some workbook →
  workbook =
    ("รวมทั้งหมด"%string, students) ::
    ((λ plan, (StudentList.safeSheetName trim substring plan,
               StudentList.planStudents students plan)) <$> studyPlans) ++
    (if decide (0 < length (StudentList.waitingStudents students))%nat
     then [("รอเรียก (Waiting)"%string, StudentList.waitingStudents students)]
     else []).
Proof.
  unfold StudentList.handleExport. intros H.
  apply bind_Some in H as (workbook1 & H1 & H).
  apply generateSheet_Some in H1 as ->.
  apply bind_Some in H as (workbook2 & H2 & H).
  apply forEach_generateSheet_Some in H2 as (workbook1 & [= <-] & ->).
  case_decide.
  - apply generateSheet_Some in H as ->. by rewrite <-(assoc_L (++)).
  - injection H as <-. by rewrite app_nil_r.
Qed.

Lemma handleExport_plan trim substring addWorksheet students studyPlans
    workbook k p :
  StudentList.handleExport trim substring addWorksheet students studyPlans
    = Some workbook →
  studyPlans !! k = Some p →
  workbook !! S k =
  Some (StudentList.safeSheetName trim substring p,
        StudentList.planStudents students p).
Proof.
  intros ->%handleExport_Some Hk.
  change ((?x :: ?l) !! S k) with (l !! k).
  rewrite lookup_app_l by (rewrite length_fmap; by eapply lookup_lt_Some).
  by rewrite list_lookup_fmap, Hk.
Qed.

Lemma handleExport_waiting trim substring addWorksheet students studyPlans
    workbook k sheet :
  StudentList.handleExport trim substring addWorksheet students studyPlans
    = Some workbook →
  (length studyPlans ≤ k)%nat →
  workbook !! S k = Some sheet →
  k = length studyPlans ∧
  sheet = ("รอเรียก (Waiting)"%string, StudentList.waitingStudents students).
Proof.
  intros ->%handleExport_Some Hk.
  change ((?x :: ?l) !! S k) with (l !! k).
  rewrite lookup_app_r by (by rewrite length_fmap). rewrite length_fmap.
  case_decide; [|done].
  destruct (k - length studyPlans)%nat as [|j] eqn:Hj; [|done].
  intros [= <-]. split; [lia | done].
Qed.

(** X17: when the export of the result of [rankStudents], for plans with
    pairwise distinct, non-empty names, is not ended by an exception of the
    workbook library, every student is on exactly one sheet after the first
    (the overall sheet): on the waiting sheet, the one after the sheets of
    the plans, if the student has no track; otherwise on the sheet added for
    the plan of the student's track, which carries the sheet name derived
    from the plan's name and, for a quota >= 0, at most quota students.
    Sheets are told apart by their position in the workbook; two plans may
    arrive at one sheet name (see [sheet_names_can_coincide]), and whether
    the workbook then takes both is up to the library. *)
Theorem export_sheets_partition (trim : string → string)
    (substring : string → Z → Z → string)
    (addWorksheet : list string → string → bool) students plans workbook r :
  NoDup (name <$> plans) →
  ""%string ∉ (name <$> plans) →
  StudentList.handleExport trim substring addWorksheet
    (rankStudents students plans) plans = Some workbook →
  r ∈ rankStudents students plans →
  workbook !! 0%nat = Some ("รวมทั้งหมด"%string, rankStudents students plans) ∧
  ∃ k sheetName data,
    workbook !! S k = Some (sheetName, data) ∧
    r ∈ data ∧
    (∀ k' sheet, workbook !! S k' = Some sheet → r ∈ sheet.2 → k' = k) ∧
    match qualifiedStream r with
    | None =>
        k = length plans ∧
        sheetName = "รอเรียก (Waiting)"%string ∧
        data = StudentList.waitingStudents (rankStudents students plans)
    | Some t =>
        ∃ p, plans !! k = Some p ∧ name p = t ∧
             sheetName = StudentList.safeSheetName trim substring p ∧
             data = StudentList.planStudents (rankStudents students plans) p ∧
             (0 ≤ quota p → Z.of_nat (length data) ≤ quota p)
    end.
Proof.
  intros Hnd Hempty Hwb Hr. set (out := rankStudents students plans) in *.
  split; [by rewrite (handleExport_Some _ _ _ _ _ _ Hwb)|].
  assert (Hplans : ∀ k' p' sheet,
    plans !! k' = Some p' → workbook !! S k' = Some sheet →
    r ∈ sheet.2 → qualifiedStream r = Some (name p')).
  { intros k' p' sheet Hk'. rewrite (handleExport_plan _ _ _ _ _ _ _ _ Hwb Hk').
    intros [= <-]. cbn [snd]. unfold StudentList.planStudents.
    by intros [? _]%list_elem_of_filter. }
  destruct (qualifiedStream r) as [t|] eqn:Hq.
  - destruct (assigned_is_configured _ _ _ _ Hr Hq) as (Hne & p & Hlast).
    apply lastNamed_elem_of in Hlast as [Hp Hname].
    pose proof Hp as (k & Hk)%list_elem_of_lookup.
    exists k, (StudentList.safeSheetName trim substring p),
      (StudentList.planStudents out p).
    split_and!.
    + by eapply handleExport_plan.
    + apply list_elem_of_filter. split; [congruence | done].
    + intros k' sheet Hsheet Hin.
      destruct (decide (k' < length plans)%nat) as [Hlt|Hge].
      * destruct (lookup_lt_is_Some_2 _ _ Hlt) as [p' Hk'].
        pose proof (Hplans _ _ _ Hk' Hsheet Hin) as Hq'.
        apply (NoDup_lookup (name <$> plans) k' k (name p) Hnd).
        -- rewrite list_lookup_fmap, Hk'. simpl. congruence.
        -- by rewrite list_lookup_fmap, Hk.
      * exfalso. assert (Hle : (length plans ≤ k')%nat) by lia.
        destruct (handleExport_waiting _ _ _ _ _ _ _ _ Hwb Hle Hsheet)
          as [_ ->].
        cbn [snd] in Hin. unfold StudentList.waitingStudents in Hin.
        apply list_elem_of_filter in Hin as [[?|Ht] _]; [congruence|].
        apply Hempty. assert (t = ""%string) as <- by congruence.
        rewrite <-Hname. by apply list_elem_of_fmap_2.
    + exists p. split_and!; [done..|]. intros Hpos.
      pose proof (rankStudents_assignedTo students plans (name p)) as Hb.
      rewrite initPlanQuotas_unique in Hb by (done || congruence).
      unfold assignedTo in Hb. unfold StudentList.planStudents, out. lia.
  - assert (Hw : r ∈ StudentList.waitingStudents out).
    { apply list_elem_of_filter. split; [by left | done]. }
    exists (length plans), "รอเรียก (Waiting)"%string,
      (StudentList.waitingStudents out).
    split_and!; [| done | | done..].
    + rewrite (handleExport_Some _ _ _ _ _ _ Hwb).
      change ((?x :: ?l) !! S ?k) with (l !! k).
      rewrite lookup_app_r by (by rewrite length_fmap). rewrite length_fmap.
      rewrite decide_True.
      * by replace (length plans - length plans)%nat with 0%nat by lia.
      * destruct (StudentList.waitingStudents out);
          [by apply elem_of_nil in Hw | simpl; lia].
    + intros k' sheet Hsheet Hin.
      destruct (decide (k' < length plans)%nat) as [Hlt|Hge].
      * destruct (lookup_lt_is_Some_2 _ _ Hlt) as [p' Hk'].
        by pose proof (Hplans _ _ _ Hk' Hsheet Hin).
      * assert (Hle : (length plans ≤ k')%nat) by lia.
        by destruct (handleExport_waiting _ _ _ _ _ _ _ _ Hwb Hle Hsheet).
Qed.

Lemma export_sheets_partition_witness :
  NoDup (name <$> plansXY) ∧
  (""%string ∉ (name <$> plansXY)) ∧
  StudentList.handleExport (λ s, s) (λ s _ _, s)
    (λ names sheetName, bool_decide (sheetName ∉ names))
    (rankStudents [alice; bob] plansXY) plansXY
  = Some [("รวมทั้งหมด"%string, rankStudents [alice; bob] plansXY);
          ("X"%string,
           [withStream (withRank 0 (withTotal alice)) (Some "X"%string)]);
          ("Y"%string,
           [withStream (withRank 1 (withTotal bob)) (Some "Y"%string)])] ∧
  withStream (withRank 1 (withTotal bob)) (Some "Y"%string)
    ∈ rankStudents [alice; bob] plansXY ∧
  ∃ k sheetName data,
    [("รวมทั้งหมด"%string, rankStudents [alice; bob] plansXY);
     ("X"%string,
      [withStream (withRank 0 (withTotal alice)) (Some "X"%string)]);
     ("Y"%string,
      [withStream (withRank 1 (withTotal bob)) (Some "Y"%string)])] !! S k
      = Some (sheetName, data) ∧
    withStream (withRank 1 (withTotal bob)) (Some "Y"%string) ∈ data.
Proof.
  assert (H1 : NoDup (name <$> plansXY)).
  { apply (bool_decide_unpack _). vm_compute. exact I. }
  assert (H2 : ""%string ∉ (name <$> plansXY)).
  { apply (bool_decide_unpack _). vm_compute. exact I. }
  assert (H3 : StudentList.handleExport (λ s, s) (λ s _ _, s)
                 (λ names sheetName, bool_decide (sheetName ∉ names))
                 (rankStudents [alice; bob] plansXY) plansXY
               = Some [("รวมทั้งหมด"%string, rankStudents [alice; bob] plansXY);
                       ("X"%string,
                        [withStream (withRank 0 (withTotal alice))
                           (Some "X"%string)]);
                       ("Y"%string,
                        [withStream (withRank 1 (withTotal bob))
                           (Some "Y"%string)])])
    by (vm_compute; reflexivity).
  assert (H4 : withStream (withRank 1 (withTotal bob)) (Some "Y"%string)
                 ∈ rankStudents [alice; bob] plansXY).
  { apply list_elem_of_lookup. exists 1%nat. vm_compute. reflexivity. }
  split; [exact H1 | split; [exact H2 | split; [exact H3 | split; [exact H4 |]]]].
  destruct (proj2 (export_sheets_partition _ _ _ [alice; bob] plansXY _ _
                     H1 H2 H3 H4))
    as (k & sheetName & data & Hsheet & Hin & _).
  exists k, sheetName, data. split; [exact Hsheet | exact Hin].
Defined.

(** The sheet names of two plans can coincide although the plan names
    differ: [A/B] and [A:B] both become [A B] before [trim] and [substring]
    see them. *)
Lemma sheet_names_can_coincide trim substring :
  NoDup (name <$> plansSlash) ∧
  StudentList.safeSheetName trim substring (mkPlan "A/B" 1) =
  StudentList.safeSheetName trim substring (mkPlan "A:B" 1).
Proof.
  split; [apply (bool_decide_unpack _); vm_compute; exact I | reflexivity].
Qed.

(** ** The edit form *)

Lemma loadStreams_snoc preferred s plans :
  EditStudentForm.loadStreams (preferred ++ [s]) plans =
  if (length preferred <? plans)%nat
  then <[length preferred := s]> (EditStudentForm.loadStreams preferred plans)
  else EditStudentForm.loadStreams preferred plans.
Proof.
  unfold EditStudentForm.loadStreams.
  rewrite imap_app, foldl_app. simpl. by rewrite Nat.add_0_r.
Qed.

(** The slots after loading: the preferences that fit, then empty slots. *)
Lemma loadStreams_spec preferred plans :
  EditStudentForm.loadStreams preferred plans =
  take plans preferred ++ replicate (plans - length preferred) ""%string.
Proof.
  induction preferred as [|s preferred IH] using rev_ind.
  - unfold EditStudentForm.loadStreams. simpl.
    by rewrite take_nil, Nat.sub_0_r.
  - rewrite loadStreams_snoc, IH, length_app. simpl.
    destruct (Nat.ltb_spec (length preferred) plans) as [Hlt|Hge].
    + rewrite (take_ge preferred) by lia.
      rewrite (take_ge (preferred ++ [s])) by (rewrite length_app; simpl; lia).
      replace (length preferred) with (length preferred + 0)%nat at 1 by lia.
      rewrite insert_app_r.
      replace (plans - length preferred)%nat
        with (S (plans - (length preferred + 1))) by lia.
      simpl. by rewrite <-(assoc_L (++)).
    + rewrite take_app_le by lia.
      by replace (plans - (length preferred + 1))%nat
        with (plans - length preferred)%nat by lia.
Qed.

(** X18: opening the edit form on a student and confirming without touching
    the preferences gives the preferences back, when there are no more of
    them than plans and none is the empty string; in general it gives the
    first [plans] of them, empty strings removed. *)
Theorem edit_form_preferences_round_trip preferred plans :
  EditStudentForm.finalStreams (EditStudentForm.loadStreams preferred plans)
  = filter (λ s, s ≠ ""%string) (take plans preferred) ∧
  ((length preferred ≤ plans)%nat → ""%string ∉ preferred →
   EditStudentForm.finalStreams (EditStudentForm.loadStreams preferred plans)
   = preferred).
Proof.
  assert (Hgen : EditStudentForm.finalStreams
                   (EditStudentForm.loadStreams preferred plans)
                 = filter (λ s, s ≠ ""%string) (take plans preferred)).
  { unfold EditStudentForm.finalStreams. rewrite loadStreams_spec, filter_app.
    assert (filter (λ s, s ≠ ""%string)
              (replicate (plans - length preferred) ""%string) = []) as ->.
    { induction (plans - length preferred)%nat as [|k IH]; [done|].
      simpl. by rewrite filter_cons_False by (intros H; by apply H). }
    by rewrite app_nil_r. }
  split; [exact Hgen|]. intros Hlen Hne. rewrite Hgen, take_ge by done.
  clear -Hne. induction preferred as [|s l IH]; [done|].
  apply not_elem_of_cons in Hne as [Hs Hl].
  rewrite filter_cons_True by done. by rewrite IH.
Qed.

Lemma edit_form_preferences_round_trip_witness :
  (length ["X"; "Y"]%string ≤ 5)%nat ∧
  (""%string ∉ ["X"; "Y"]%string) ∧
  EditStudentForm.finalStreams
    (EditStudentForm.loadStreams ["X"; "Y"]%string 5) = ["X"; "Y"]%string.
Proof.
  assert (H1 : (length ["X"; "Y"]%string ≤ 5)%nat) by (simpl; lia).
  assert (H2 : ""%string ∉ ["X"; "Y"]%string).
  { apply (bool_decide_unpack _). vm_compute. exact I. }
  split; [exact H1 | split; [exact H2 |]].
  exact (proj2 (edit_form_preferences_round_trip ["X"; "Y"]%string 5) H1 H2).
Defined.

(** ** Better scores, better ranks *)

(** X19: among students carrying the five subjects, a student that is
    strictly better on the sort key (total, then science, math, english,
    thai, social) has a strictly smaller rank number. *)
Theorem better_has_smaller_rank students plans a b :
  Forall complete students →
  a ∈ rankStudents students plans →
  b ∈ rankStudents students plans →
  better (base a) (base b) →
  rank a < rank b.
Proof.
  intros Hc (i & Ha & Hra)%rankStudents_position
            (j & Hb & Hrb)%rankStudents_position Hbetter.
  destruct (Nat.lt_trichotomy i j) as [Hij|[->|Hji]]; [lia| |].
  - exfalso. assert (a = b) as -> by congruence.
    by apply (lexGt_irrefl (sortKey (base b))).
  - exfalso.
    by apply (rankStudents_sorted students plans j i b a Hc Hji Hb Ha).
Qed.

Lemma better_has_smaller_rank_witness :
  Forall complete [bob; alice] ∧
  withStream (withRank 0 (withTotal alice)) (Some "X"%string)
    ∈ rankStudents [bob; alice] plansXY ∧
  withStream (withRank 1 (withTotal bob)) (Some "Y"%string)
    ∈ rankStudents [bob; alice] plansXY ∧
  better alice bob ∧
  rank (withStream (withRank 0 (withTotal alice)) (Some "X"%string))
  < rank (withStream (withRank 1 (withTotal bob)) (Some "Y"%string)).
Proof.
  assert (Hc : Forall complete [bob; alice]).
  { apply (bool_decide_unpack _). vm_compute. exact I. }
  assert (Ha : withStream (withRank 0 (withTotal alice)) (Some "X"%string)
                 ∈ rankStudents [bob; alice] plansXY).
  { apply list_elem_of_lookup. exists 0%nat. vm_compute. reflexivity. }
  assert (Hb : withStream (withRank 1 (withTotal bob)) (Some "Y"%string)
                 ∈ rankStudents [bob; alice] plansXY).
  { apply list_elem_of_lookup. exists 1%nat. vm_compute. reflexivity. }
  assert (Hbetter : better alice bob).
  { apply (bool_decide_unpack _). vm_compute. exact I. }
  split; [exact Hc | split; [exact Ha | split; [exact Hb |
    split; [exact Hbetter |]]]].
  exact (better_has_smaller_rank [bob; alice] plansXY _ _ Hc Ha Hb Hbetter).
Defined.

(** ** A late applicant at the bottom *)

Lemma insert_sorted_snoc {A} (comparefn : A → A → number) x K n :
  sortCompare comparefn x n ≤ 0 →
  insert_sorted comparefn x (K ++ [n]) = insert_sorted comparefn x K ++ [n].
Proof.
  intros Hle. induction K as [|y K IH]; simpl.
  - by destruct (Z.leb_spec (sortCompare comparefn x n) 0); [|lia].
  - destruct (sortCompare comparefn x y <=? 0); [done|]. by rewrite IH.
Qed.

Lemma sort_snoc {A} (comparefn : A → A → number) l n :
  Forall (λ x, sortCompare comparefn x n ≤ 0) l →
  sort comparefn (l ++ [n]) = sort comparefn l ++ [n].
Proof.
  induction 1 as [|x l Hx _ IH]; [done|].
  cbn [app sort]. rewrite IH. by apply insert_sorted_snoc.
Qed.

(** X20: a student added to the dashboard under a new id, whom no present
    student ranks below, takes the last rank; every other student keeps
    rank and track.  (Students carrying the five subjects.) *)
Theorem late_weakest_applicant students plans n :
  id n ∉ (id <$> students) →
  Forall complete students → complete n →
  Forall (λ s, ¬ better n s) students →
  ∃ stream,
    rankStudents (Dashboard.handleAddStudents false students [n]) plans =
    rankStudents students plans ++
    [{| base := n; totalScore := calculateTotal n;
        rank := Z.of_nat (length students) + 1;
        qualifiedStream := stream |}].
Proof.
  intros Hid Hc Hn Hworst.
  assert (Hadd : Dashboard.handleAddStudents false students [n]
                 = students ++ [n]).
  { unfold Dashboard.handleAddStudents, Dashboard.upsert. simpl.
    by rewrite (proj2 (findIndex_None _ _) Hid). }
  assert (Hranked : ranked (students ++ [n]) =
                    ranked students ++
                    [withRank (length students) (withTotal n)]).
  { unfold ranked. rewrite fmap_app. simpl. rewrite sort_snoc.
    - rewrite imap_app. simpl.
      by rewrite sort_length, length_fmap, Nat.add_0_r.
    - apply Forall_fmap. rewrite Forall_forall in Hc, Hworst |- *.
      intros s Hs. simpl.
      apply (compareStudents_le (withTotal s) (withTotal n));
        [by split; auto | by split | by apply Hworst]. }
  rewrite Hadd. unfold rankStudents. rewrite Hranked, allocate_app.
  cbn [fst]. rewrite allocate_cons. cbn [fst allocate].
  eexists. reflexivity.
Qed.

Lemma late_weakest_applicant_witness :
  (id dave ∉ (id <$> [alice; bob])) ∧
  Forall complete [alice; bob] ∧ complete dave ∧
  Forall (λ s, ¬ better dave s) [alice; bob] ∧
  ∃ stream,
    rankStudents (Dashboard.handleAddStudents false [alice; bob] [dave])
      plansXY =
    rankStudents [alice; bob] plansXY ++
    [{| base := dave; totalScore := calculateTotal dave;
        rank := Z.of_nat (length [alice; bob]) + 1;
        qualifiedStream := stream |}].
Proof.
  assert (H1 : id dave ∉ (id <$> [alice; bob])).
  { apply (bool_decide_unpack _). vm_compute. exact I. }
  assert (H2 : Forall complete [alice; bob]).
  { apply (bool_decide_unpack _). vm_compute. exact I. }
  assert (H3 : complete dave).
  { apply (bool_decide_unpack _). vm_compute. exact I. }
  assert (H4 : Forall (λ s, ¬ better dave s) [alice; bob]).
  { apply (bool_decide_unpack _). vm_compute. exact I. }
  split; [exact H1 | split; [exact H2 | split; [exact H3 |
    split; [exact H4 |]]]].
  exact (late_weakest_applicant [alice; bob] plansXY dave H1 H2 H3 H4).
Defined.

(** ** More room never hurts *)

Lemma hasSpace_mono Q U Q' U' t :
  noLessRoom Q U Q' U' → hasSpace Q U t = true → hasSpace Q' U' t = true.
Proof.
  intros HI (q & u & Hq & Hu & Hlt)%hasSpace_true.
  destruct (HI t q u Hq Hu) as (q' & u' & Hq' & Hu' & Hle).
  apply hasSpace_true. exists q', u'. split_and!; [done..|lia].
Qed.

Lemma hasSpace_false_room Q U n q u :
  hasSpace Q U n = false → Q !! n = Some q → U !! n = Some u → q - u ≤ 0.
Proof.
  unfold hasSpace. intros H Hq Hu. rewrite Hq, Hu in H.
  apply Z.ltb_ge in H. lia.
Qed.

(** One student, served twice: where there is no less room, the student
    leaves no less room behind and is served no later on the own list. *)
Lemma choosePlan_mono Q Q' prefs :
  ∀ U U', noLessRoom Q U Q' U' →
    noLessRoom Q (choosePlan Q U prefs).2 Q' (choosePlan Q' U' prefs).2 ∧
    ∀ t, (choosePlan Q U prefs).1 = Some t →
      ∃ t' pre post,
        (choosePlan Q' U' prefs).1 = Some t' ∧
        prefs = pre ++ t' :: post ∧ t ∉ pre.
Proof.
  induction prefs as [|n rest IH]; intros U U' HI; [by split|].
  destruct (hasSpace Q U n) eqn:Hn.
  - pose proof (hasSpace_mono _ _ _ _ n HI Hn) as Hn'.
    destruct (choosePlan_cons_true Q U n rest Hn) as (u & Hu & ->).
    destruct (choosePlan_cons_true Q' U' n rest Hn') as (u' & Hu' & ->).
    cbn [fst snd]. split.
    + intros t q v Hq Hv. destruct (decide (t = n)) as [->|Hne].
      * rewrite lookup_insert_eq in Hv. simplify_eq.
        destruct (HI n q u Hq Hu) as (q' & w & Hq' & Hw & Hle).
        exists q', (u' + 1). rewrite lookup_insert_eq.
        split_and!; [done..|]. simplify_eq. lia.
      * rewrite lookup_insert_ne in Hv by done.
        destruct (HI t q v Hq Hv) as (q' & w & Hq' & Hw & Hle).
        exists q', w. by rewrite lookup_insert_ne.
    + intros t [= <-]. exists n, [], rest. split_and!; [done..|].
      apply not_elem_of_nil.
  - rewrite (choosePlan_cons_false Q U n rest Hn).
    destruct (hasSpace Q' U' n) eqn:Hn'.
    + destruct (choosePlan_cons_true Q' U' n rest Hn') as (u' & Hu' & ->).
      cbn [fst snd].
      pose proof Hn' as (q' & w & Hq' & Hw & Hlt')%hasSpace_true.
      simplify_eq.
      pose proof (choosePlan_spec Q U rest) as Hc. split.
      * intros t q v Hq Hv. destruct (decide (t = n)) as [->|Hne].
        -- exists q', (u' + 1). rewrite lookup_insert_eq.
           split_and!; [done..|].
           assert (HUn : U !! n = Some v).
           { destruct (choosePlan Q U rest) as [[t0|] U1]; cbn [snd] in Hv.
             - destruct Hc as (_ & _ & u0 & _ & _ & Ht0 & _ & ->).
               destruct (decide (t0 = n)) as [->|]; [congruence|].
               by rewrite lookup_insert_ne in Hv.
             - by destruct Hc as [-> _]. }
           pose proof (hasSpace_false_room _ _ _ _ _ Hn Hq HUn). lia.
        -- rewrite lookup_insert_ne by done.
           destruct (choosePlan Q U rest) as [[t0|] U1]; cbn [snd] in Hv.
           ++ destruct Hc as (_ & _ & u0 & _ & _ & Ht0 & Hu0 & ->).
              destruct (decide (t0 = t)) as [->|].
              ** rewrite lookup_insert_eq in Hv. simplify_eq.
                 destruct (HI t q u0 Hq Hu0) as (q1 & w & Hq1 & Hw & Hle).
                 exists q1, w. split_and!; [done..|lia].
              ** rewrite lookup_insert_ne in Hv by done.
                 exact (HI t q v Hq Hv).
           ++ destruct Hc as [-> _]. exact (HI t q v Hq Hv).
      * intros t _. exists n, [], rest. split_and!; [done..|].
        apply not_elem_of_nil.
    + rewrite (choosePlan_cons_false Q' U' n rest Hn').
      destruct (IH U U' HI) as [IH1 IH2]. split; [done|].
      intros t Ht. destruct (IH2 t Ht) as (t' & pre & post & Ht' & -> & Hpre).
      exists t', (n :: pre), post. split_and!; [done..|].
      apply not_elem_of_cons. split; [|done]. intros ->.
      pose proof (choosePlan_spec Q U (pre ++ t' :: post)) as Hc.
      destruct (choosePlan Q U (pre ++ t' :: post)) as [[t0|] U1];
        simplify_eq/=.
      destruct Hc as (_ & _ & _ & _ & _ & Hsp & _). congruence.
Qed.

Lemma allocate_mono Q Q' l :
  ∀ U U', noLessRoom Q U Q' U' →
    Forall2 (λ r r', ∀ t, qualifiedStream r = Some t →
               ∃ t' pre post,
                 qualifiedStream r' = Some t' ∧
                 preferredStreams (base r') = pre ++ t' :: post ∧ t ∉ pre)
      (allocate Q U l).1 (allocate Q' U' l).1.
Proof.
  induction l as [|s l IH]; intros U U' HI; [constructor|].
  rewrite !allocate_cons. cbn [fst].
  destruct (choosePlan_mono Q Q' (preferredStreams (base s)) U U' HI)
    as [HI1 Hpos].
  constructor; [exact Hpos | by apply IH].
Qed.

(** X21: raising quotas, or adding plans, never hurts a student.  If
    [plans'] gives every name configured in [plans] a quota at least as
    large, a student with a track under [plans] has a track under [plans']
    too, one listed no later among the student's preferences. *)
Theorem more_room_never_hurts students plans plans' i r r' t :
  (∀ n q, initPlanQuotas plans !! n = Some q →
          ∃ q', initPlanQuotas plans' !! n = Some q' ∧ q ≤ q') →
  rankStudents students plans !! i = Some r →
  rankStudents students plans' !! i = Some r' →
  qualifiedStream r = Some t →
  ∃ t' pre post,
    qualifiedStream r' = Some t' ∧
    preferredStreams (base r') = pre ++ t' :: post ∧
    t ∉ pre.
Proof.
  intros Hquota Hr Hr' Ht.
  assert (HI : noLessRoom (initPlanQuotas plans) (initQuotaUsage plans)
                 (initPlanQuotas plans') (initQuotaUsage plans')).
  { intros n q u Hq Hu. destruct (Hquota n q Hq) as (q' & Hq' & Hle).
    exists q', 0. rewrite (initQuotaUsage_of_quota _ _ _ Hq) in Hu.
    rewrite (initQuotaUsage_of_quota _ _ _ Hq'). simplify_eq.
    split_and!; [done..|lia]. }
  pose proof (allocate_mono _ _ (ranked students) _ _ HI) as Hall.
  exact (Forall2_lookup_lr _ _ _ _ _ _ Hall Hr Hr' t Ht).
Qed.

Lemma more_room_never_hurts_witness :
  (∀ n q, initPlanQuotas [mkPlan "Y" 5] !! n = Some q →
          ∃ q', initPlanQuotas plansXY !! n = Some q' ∧ q ≤ q') ∧
  rankStudents [alice; bob] [mkPlan "Y" 5] !! 0%nat
    = Some (withStream (withRank 0 (withTotal alice)) (Some "Y"%string)) ∧
  rankStudents [alice; bob] plansXY !! 0%nat
    = Some (withStream (withRank 0 (withTotal alice)) (Some "X"%string)) ∧
  ∃ t' pre post,
    qualifiedStream (withStream (withRank 0 (withTotal alice))
                       (Some "X"%string)) = Some t' ∧
    preferredStreams (base (withStream (withRank 0 (withTotal alice))
                              (Some "X"%string))) = pre ++ t' :: post ∧
    "Y"%string ∉ pre.
Proof.
  assert (H1 : ∀ n q, initPlanQuotas [mkPlan "Y" 5] !! n = Some q →
                 ∃ q', initPlanQuotas plansXY !! n = Some q' ∧ q ≤ q').
  { intros n q. rewrite !initPlanQuotas_lookup.
    change [mkPlan "Y" 5] with ([] ++ [mkPlan "Y" 5]).
    change plansXY with (([] ++ [mkPlan "X" 1]) ++ [mkPlan "Y" 5]).
    rewrite !lastNamed_snoc. cbn [name mkPlan].
    repeat case_decide; simpl; try done. intros [= <-]. exists 5. by split. }
  assert (H2 : rankStudents [alice; bob] [mkPlan "Y" 5] !! 0%nat
               = Some (withStream (withRank 0 (withTotal alice))
                         (Some "Y"%string))) by (vm_compute; reflexivity).
  assert (H3 : rankStudents [alice; bob] plansXY !! 0%nat
               = Some (withStream (withRank 0 (withTotal alice))
                         (Some "X"%string))) by (vm_compute; reflexivity).
  split; [exact H1 | split; [exact H2 | split; [exact H3 |]]].
  exact (more_room_never_hurts [alice; bob] [mkPlan "Y" 5] plansXY 0 _ _ "Y"
           H1 H2 H3 eq_refl).
Defined.

(** ** Choosing preferences in the forms *)

Lemma chosen_spread l :
  StreamSelect.chosen (StreamSelect.spread l) = StreamSelect.chosen l.
Proof.
  unfold StreamSelect.chosen, StreamSelect.spread.
  induction l as [|x l IH]; [done|]. csimpl. rewrite IH. by destruct x.
Qed.

Lemma chosen_app l k :
  StreamSelect.chosen (l ++ k) = StreamSelect.chosen l ++ StreamSelect.chosen k.
Proof. apply omap_app. Qed.

Lemma chosen_holes n : StreamSelect.chosen (replicate n StreamSelect.Hole) = [].
Proof. induction n as [|n IH]; [done|]. simpl. exact IH. Qed.

Lemma someElsewhere_false from l name index :
  StreamSelect.someElsewhere from l name index = false →
  ∀ i, l !! i = Some (StreamSelect.Str name) → (from + i)%nat = index.
Proof.
  revert from. induction l as [|x l IH]; intros from H i Hi; [done|].
  simpl in H. apply orb_false_iff in H as [Hx Hrest].
  destruct i as [|i]; simplify_eq/=.
  - rewrite bool_decide_eq_true_2 in Hx by done. simpl in Hx.
    apply bool_decide_eq_false in Hx. destruct (decide (from = index)); [lia|done].
  - specialize (IH (S from) Hrest i Hi). lia.
Qed.

Lemma spread_lookup_Str l i s :
  StreamSelect.spread l !! i = Some (StreamSelect.Str s) ↔
  l !! i = Some (StreamSelect.Str s).
Proof.
  unfold StreamSelect.spread. rewrite list_lookup_fmap.
  destruct (l !! i) as [[| |]|]; simpl; naive_solver.
Qed.

Lemma chosen_elem_of l s :
  s ∈ StreamSelect.chosen l → ∃ i, l !! i = Some (StreamSelect.Str s).
Proof.
  unfold StreamSelect.chosen. intros (x & Hx & Hs)%list_elem_of_omap.
  destruct x as [s'| |]; [|done..]. case_decide; simplify_eq.
  by apply list_elem_of_lookup.
Qed.

(** What [handleConfirm] keeps of the slots holds the same plans. *)
Lemma finalStreams_chosen l :
  StreamSelect.chosen (StreamSelect.finalStreams l) = StreamSelect.chosen l.
Proof.
  unfold StreamSelect.finalStreams, StreamSelect.chosen.
  induction l as [|x l IH]; [done|]. rewrite filter_cons.
  destruct (decide (x ≠ StreamSelect.Hole
                    ∧ x ≠ StreamSelect.Str ""%string)) as [_|Hn].
  - csimpl. by rewrite IH.
  - csimpl. rewrite IH. destruct x as [s| |]; [|by destruct Hn|done].
    destruct (decide (s = ""%string)) as [->|Hs]; [done|].
    destruct Hn. split; congruence.
Qed.

(** On slots that all hold strings it is the filter of the edit form. *)
Lemma finalStreams_strings (l : list string) :
  StreamSelect.finalStreams (StreamSelect.Str <$> l) =
  StreamSelect.Str <$> EditStudentForm.finalStreams l.
Proof.
  unfold StreamSelect.finalStreams, EditStudentForm.finalStreams.
  induction l as [|s l IH]; [done|]. rewrite fmap_cons, !filter_cons.
  destruct (decide (s ≠ ""%string)) as [Hs|Hs].
  - rewrite decide_True by (split; congruence). by rewrite fmap_cons, IH.
  - rewrite decide_False; [done|]. intros [_ H]. apply Hs. congruence.
Qed.

(** X22: while every choice made in a select is the blank entry or a plan
    that no other select holds (the options the form leaves enabled), the
    plans chosen stay pairwise distinct, and so do those that confirming
    the form would submit. *)
Theorem selects_stay_distinct selectedStreams index value :
  NoDup (StreamSelect.chosen selectedStreams) →
  value = ""%string ∨
  StreamSelect.isSelectedElsewhere selectedStreams value index = false →
  NoDup (StreamSelect.chosen
           (StreamSelect.handleStreamChange selectedStreams index value)) ∧
  NoDup (StreamSelect.chosen
           (StreamSelect.finalStreams
              (StreamSelect.handleStreamChange selectedStreams index value))).
Proof.
  intros Hnd Hguard. rewrite finalStreams_chosen.
  cut (NoDup (StreamSelect.chosen
                (StreamSelect.handleStreamChange selectedStreams index value)));
    [by split|].
  unfold StreamSelect.handleStreamChange, StreamSelect.assign.
  rewrite <-chosen_spread in Hnd.
  assert (Hfree : value ≠ ""%string →
            ∀ i, StreamSelect.spread selectedStreams !! i
                 = Some (StreamSelect.Str value) → i = index).
  { intros Hne i Hi. destruct Hguard as [?|Hg]; [done|].
    apply (proj1 (spread_lookup_Str _ _ _)) in Hi.
    exact (someElsewhere_false 0 _ _ _ Hg i Hi). }
  set (l := StreamSelect.spread selectedStreams) in *.
  assert (Hval : StreamSelect.chosen [StreamSelect.Str value] =
                 if decide (value = ""%string) then [] else [value]).
  { unfold StreamSelect.chosen. simpl. by case_decide. }
  destruct (Nat.ltb_spec index (length l)) as [Hlt|Hge].
  - destruct (lookup_lt_is_Some_2 l index Hlt) as [x Hx].
    rewrite <-(take_drop_middle l index x Hx) in Hnd, Hfree |- *.
    assert (Hlen : length (take index l) = index)
      by (rewrite length_take; lia).
    rewrite insert_app_r_alt by lia.
    replace (index - length (take index l))%nat with 0%nat by lia.
    cbn [insert list_insert].
    change (StreamSelect.Str value :: drop (S index) l)
      with ([StreamSelect.Str value] ++ drop (S index) l).
    change (x :: drop (S index) l) with ([x] ++ drop (S index) l) in Hnd.
    rewrite !chosen_app in Hnd |- *. rewrite Hval.
    apply NoDup_app in Hnd as (Hnd1 & Hdisj & Hnd2).
    apply NoDup_app in Hnd2 as (_ & _ & Hnd2).
    apply NoDup_app. split_and!; [done | |].
    + intros s Hs1 Hs2. apply elem_of_app in Hs2 as [Hs2|Hs2].
      * case_decide; [by apply elem_of_nil in Hs2|].
        apply list_elem_of_singleton in Hs2 as ->.
        apply chosen_elem_of in Hs1 as (i & Hi).
        pose proof (lookup_lt_Some _ _ _ Hi) as Hlti.
        specialize (Hfree ltac:(done) i).
        rewrite lookup_app_l in Hfree by done. specialize (Hfree Hi). lia.
      * apply (Hdisj s Hs1). apply elem_of_app. by right.
    + apply NoDup_app. split_and!; [case_decide; [apply NoDup_nil_2 | apply NoDup_singleton] | | done].
      intros s Hs1 Hs2. case_decide; [by apply elem_of_nil in Hs1|].
      apply list_elem_of_singleton in Hs1 as ->.
      apply chosen_elem_of in Hs2 as (i & Hi).
      specialize (Hfree ltac:(done) (length (take index l) + S i)%nat).
      rewrite lookup_app_r in Hfree by lia.
      replace (length (take index l) + S i - length (take index l))%nat
        with (S i) in Hfree by lia.
      specialize (Hfree Hi). lia.
  - rewrite !chosen_app, chosen_holes, Hval. simpl.
    case_decide; [by rewrite app_nil_r|].
    apply NoDup_app. split_and!; [done | | apply NoDup_singleton].
    intros s Hs ->%list_elem_of_singleton.
    apply chosen_elem_of in Hs as (i & Hi).
    pose proof (lookup_lt_Some _ _ _ Hi). specialize (Hfree ltac:(done) i Hi).
    lia.
Qed.

Lemma selects_stay_distinct_witness :
  NoDup (StreamSelect.chosen
           [StreamSelect.Str "X"; StreamSelect.Str ""; StreamSelect.Str ""]) ∧
  ("Y"%string = ""%string ∨
   StreamSelect.isSelectedElsewhere
     [StreamSelect.Str "X"; StreamSelect.Str ""; StreamSelect.Str ""]
     "Y" 1 = false) ∧
  NoDup (StreamSelect.chosen
           (StreamSelect.handleStreamChange
              [StreamSelect.Str "X"; StreamSelect.Str ""; StreamSelect.Str ""]
              1 "Y")).
Proof.
  assert (H1 : NoDup (StreamSelect.chosen
             [StreamSelect.Str "X"; StreamSelect.Str ""; StreamSelect.Str ""])).
  { apply (bool_decide_unpack _). vm_compute. exact I. }
  assert (H2 : "Y"%string = ""%string ∨
               StreamSelect.isSelectedElsewhere
                 [StreamSelect.Str "X"; StreamSelect.Str "";
                  StreamSelect.Str ""] "Y" 1 = false)
    by (right; vm_compute; reflexivity).
  split; [exact H1 | split; [exact H2 |]].
  exact (proj1 (selects_stay_distinct _ 1 "Y" H1 H2)).
Defined.
